(** * MPM3D: the per-tick transfer pipeline of [mpm3.cpp]

    A shallow embedding of the cubic B-spline kernel, of the particle/grid
    transfers ([rasterize], [resample]), of the force projection, of the
    grid boundary conditions and of the tick alignment and position
    integration of [MPM3D::substep], with the properties the
    specification states about them; then the seeding of particles
    ([add_particles]), the render particles and the asset manager, with
    further properties of the code.

    Numbers.  The C++ type [real] (a binary floating-point number) is
    embedded as an exact rational [Q]: every arithmetic operation of the
    source is the corresponding exact operation, so rounding, NaN and
    infinities are abstracted away, and equality of reals is [==].
    Three places keep the rounding to binary32 ([Float32]), because it
    decides what the program does there: the bound [res - eps] of the
    clamp in [substep], the sum [i + rand()] in [add_particles], and the
    values of [w] at the ends of its support.  The tick counters are
    [int64]; they are embedded as [Z] with the wrap-around written out.

    Loops.  The parallel loops over particles are embedded as sequential
    folds in list order; a node's lock makes the accumulation into the
    node one step.  The validity checks [CV(...)] have no effect on the
    state and are left out.

    Outside [mpm3.cpp].  The scheduler, the level set, the vector library,
    [clamp], [eps], [get_bounded_rasterization_region] and the methods of
    the particle classes are not in the sources; they are parameters, or
    definitions marked as modelled from the specification. *)

From Stdlib Require Import ZArith QArith Qabs Qround Qpower List Bool Lia Lqa.
From Stdlib Require Import Setoid Morphisms.
Import ListNotations.

Local Open Scope Z_scope.
Local Open Scope Q_scope.

(** ** Scalars *)

Module Scalar.

(** [x < y] on reals, as a boolean. *)
Definition ltb (x y : Q) : bool :=
  if Qlt_le_dec x y then true else false.

(** [std::max(a, b)] is [(a < b) ? b : a]. *)
Definition fmax (a b : Q) : Q := if ltb a b then b else a.

(** [abs(x)] on a [float]. *)
Definition fabs (x : Q) : Q := Qabs x.

(** [(int) x]: conversion of a real to an integer truncates toward zero. *)
Definition to_int (x : Q) : Z := Z.quot (Qnum x) (Z.pos (Qden x)).

(** Conversion of an integer to a real. *)
Definition of_int (z : Z) : Q := inject_Z z.

(** Modelled from the spec: [clamp] comes from math_util.h, which is not
    part of the sources.  The spec clamps a response "to +-mu*pressure" and
    a position "back within bounds": a value below the lower bound becomes
    the lower bound, a value above the upper bound becomes the upper
    bound, any other value is kept. *)
Definition clamp (a lo hi : Q) : Q :=
  if ltb a lo then lo else if ltb hi a then hi else a.

(** Arithmetic on [int64] wraps around. *)
Definition wrap64 (z : Z) : Z :=
  ((z + 2 ^ 63) mod 2 ^ 64 - 2 ^ 63)%Z.

(** The sum of [f x] over the elements [x] of a list. *)
Definition sumQ {A : Type} (f : A -> Q) (l : list A) : Q :=
  fold_right (fun x acc => f x + acc) 0 l.

(** Division that records a zero divisor as an error. *)
Definition checked_div (a b : Q) : option Q :=
  if Qeq_bool b 0 then None else Some (a / b).

End Scalar.

(** ** Rounding to binary32 *)

Module Float32.

(** Round to the nearest integer, ties to the even one. *)
Definition rne (q : Q) : Z :=
  let f := Qfloor q in
  match Qcompare (q - inject_Z f) (1 # 2) with
  | Lt => f
  | Gt => (f + 1)%Z
  | Eq => if Z.even f then f else (f + 1)%Z
  end.

(** The exponent of a positive number: the largest [e] with
    [2^e <= x]. *)
Definition ilog2 (x : Q) : Z :=
  let k := (Z.log2 (Qnum x) - Z.log2 (Z.pos (Qden x)))%Z in
  if Qle_bool (2 ^ k) x then k else (k - 1)%Z.

(** The binary32 number nearest to a positive [x]: 24 significant bits,
    the exponent at least -126 (below it the subnormal numbers share one
    spacing), ties to even.  There are no infinities: a number beyond the
    largest finite one is rounded like the others. *)
Definition round_pos (x : Q) : Q :=
  let e := Z.max (ilog2 x) (-126) in
  let ulp := 2 ^ (e - 23) in
  inject_Z (rne (x / ulp)) * ulp.

(** Rounding to binary32, to nearest. *)
Definition round32 (x : Q) : Q :=
  match Qcompare x 0 with
  | Eq => 0
  | Gt => round_pos x
  | Lt => - round_pos (- x)
  end.

(** The operations of [float]: the exact result, rounded. *)
Definition fadd32 (a b : Q) : Q := round32 (a + b).
Definition fsub32 (a b : Q) : Q := round32 (a - b).
Definition fmul32 (a b : Q) : Q := round32 (a * b).
Definition fdiv32 (a b : Q) : Q := round32 (a / b).

(** Conversion of an [int] to [float]. *)
Definition int_to_float (z : Z) : Q := round32 (inject_Z z).

End Float32.

(** ** The interpolation kernel *)

Module Kernel.
Import Scalar.

(** The body of [w(float)] with the assertion compiled out. *)
Definition w (x : Q) : Q :=
  let x := fabs x in
  if ltb x 1 then
    (1 # 2) * x * x * x - x * x + 2 / 3
  else
    - (1) / 6 * x * x * x + x * x - 2 * x + 4 / 3.

(** [assert(x <= 2)] of [w], on the absolute value. *)
Definition w_assert (x : Q) : bool := negb (ltb 2 (fabs x)).

(** [w(float)] with its assertion: [None] is the failed assertion. *)
Definition w_checked (x : Q) : option Q :=
  if w_assert x then Some (w x) else None.

(** The body of [dw(float)] with the assertion compiled out. *)
Definition dw (x : Q) : Q :=
  let s := if ltb x 0 then - (1) else 1 in
  let x := x * s in
  let xx := x * x in
  let val :=
    if ltb x 1 then (3 # 2) * xx - 2 * x
    else - (1 # 2) * xx + 2 * x - 2 in
  s * val.

(** [assert(x <= 2.0f)] of [dw], after the multiplication by the sign. *)
Definition dw_assert (x : Q) : bool :=
  let s := if ltb x 0 then - (1) else 1 in
  negb (ltb 2 (x * s)).

(** Sum of [w_checked] over a list of arguments; fails when one
    assertion fails. *)
Fixpoint sum_w_checked (xs : list Q) : option Q :=
  match xs with
  | [] => Some 0
  | x :: xs' =>
      match w_checked x, sum_w_checked xs' with
      | Some a, Some b => Some (a + b)
      | _, _ => None
      end
  end.

(** Sum of the weights with the assertion compiled out. *)
Definition sum_w (xs : list Q) : Q := sumQ w xs.

(** The arguments [i - f] of the 1D stencil, for the [n] integers [i]
    from [lo] upwards. *)
Definition stencil (lo : Z) (n : nat) (f : Q) : list Q :=
  map (fun i => of_int i - f) (map (fun k => (lo + Z.of_nat k)%Z) (seq 0 n)).

End Kernel.

(** ** The weight in binary32 *)

Module KernelBinary32.
Import Scalar Float32.

(** The body of [w(float)] as the program computes it on a binary32
    argument: every operation rounded, in the order of the expression,
    without contraction into fused operations. *)
Definition w_binary32 (x : Q) : Q :=
  let x := fabs x in
  if ltb x 1 then
    fadd32 (fsub32 (fmul32 (fmul32 (fmul32 (1 # 2) x) x) x) (fmul32 x x))
           (fdiv32 2 3)
  else
    fadd32
      (fsub32
         (fadd32 (fmul32 (fmul32 (fmul32 (fdiv32 (- (1)) 6) x) x) x)
                 (fmul32 x x))
         (fmul32 2 x))
      (fdiv32 4 3).

End KernelBinary32.

(** ** Vectors and matrices ([glm::vec3], [glm::mat3]) *)

Module Linear.
Import Scalar.

Record Vector3 : Type := mkVector { vx : Q; vy : Q; vz : Q }.

(** [glm::mat3] is stored by columns, and [Matrix(a0, a1, a2, ...)] fills
    the first column first. *)
Record Matrix : Type := mkMatrix { col0 : Vector3; col1 : Vector3; col2 : Vector3 }.

(** [Vector(s)]: all components equal to [s]. *)
Definition vconst (s : Q) : Vector3 := mkVector s s s.

Definition vadd (a b : Vector3) : Vector3 :=
  mkVector (vx a + vx b) (vy a + vy b) (vz a + vz b).

Definition vsub (a b : Vector3) : Vector3 :=
  mkVector (vx a - vx b) (vy a - vy b) (vz a - vz b).

Definition vneg (a : Vector3) : Vector3 :=
  mkVector (- vx a) (- vy a) (- vz a).

(** [s * a] and [a * s]. *)
Definition vscale (s : Q) (a : Vector3) : Vector3 :=
  mkVector (s * vx a) (s * vy a) (s * vz a).

Definition vscale_r (a : Vector3) (s : Q) : Vector3 :=
  mkVector (vx a * s) (vy a * s) (vz a * s).

(** [glm::dot]. *)
Definition dot (a b : Vector3) : Q :=
  vx a * vx b + vy a * vy b + vz a * vz b.

(** [Matrix(s)]: [s] on the diagonal. *)
Definition mdiag (s : Q) : Matrix :=
  mkMatrix (mkVector s 0 0) (mkVector 0 s 0) (mkVector 0 0 s).

Definition madd (a b : Matrix) : Matrix :=
  mkMatrix (vadd (col0 a) (col0 b)) (vadd (col1 a) (col1 b))
           (vadd (col2 a) (col2 b)).

Definition mscale (s : Q) (a : Matrix) : Matrix :=
  mkMatrix (vscale s (col0 a)) (vscale s (col1 a)) (vscale s (col2 a)).

Definition mscale_r (a : Matrix) (s : Q) : Matrix :=
  mkMatrix (vscale_r (col0 a) s) (vscale_r (col1 a) s) (vscale_r (col2 a) s).

(** Matrix times column vector. *)
Definition mat_vec (m : Matrix) (a : Vector3) : Vector3 :=
  vadd (vadd (vscale_r (col0 m) (vx a)) (vscale_r (col1 m) (vy a)))
       (vscale_r (col2 m) (vz a)).

(** Matrix product: the columns of [a * b] are [a] times the columns of [b]. *)
Definition mat_mul (a b : Matrix) : Matrix :=
  mkMatrix (mat_vec a (col0 b)) (mat_vec a (col1 b)) (mat_vec a (col2 b)).

(** [glm::outerProduct(c, r)]: column [j] is [c * r[j]]. *)
Definition outerProduct (c r : Vector3) : Matrix :=
  mkMatrix (vscale_r c (vx r)) (vscale_r c (vy r)) (vscale_r c (vz r)).

(** [a] divided by [s], component by component. *)
Definition vdiv (a : Vector3) (s : Q) : Vector3 :=
  mkVector (vx a / s) (vy a / s) (vz a / s).

(** Equality of vectors and matrices, component by component. *)
Definition veq (a b : Vector3) : Prop :=
  vx a == vx b /\ vy a == vy b /\ vz a == vz b.

Definition meq (a b : Matrix) : Prop :=
  veq (col0 a) (col0 b) /\ veq (col1 a) (col1 b) /\ veq (col2 a) (col2 b).

End Linear.

Declare Scope vec_scope.
Infix "=v=" := Linear.veq (at level 70, no associativity) : vec_scope.
Infix "=m=" := Linear.meq (at level 70, no associativity) : vec_scope.
Local Open Scope vec_scope.

(** The 3D kernel: the product of the per-axis weights, and its gradient. *)
Module Kernel3.
Import Scalar Linear Kernel.

Definition w3 (a : Vector3) : Q := w (vx a) * w (vy a) * w (vz a).

Definition dw3 (a : Vector3) : Vector3 :=
  mkVector (dw (vx a) * w (vy a) * w (vz a))
           (w (vx a) * dw (vy a) * w (vz a))
           (w (vx a) * w (vy a) * dw (vz a)).

(** The assertions of the three calls of [w] made by [w(const Vector3 &)]. *)
Definition w3_assert (a : Vector3) : bool :=
  w_assert (vx a) && w_assert (vy a) && w_assert (vz a).

(** The assertions of the calls of [dw] and [w] made by
    [dw(const Vector3 &)]. *)
Definition dw3_assert (a : Vector3) : bool :=
  dw_assert (vx a) && dw_assert (vy a) && dw_assert (vz a) && w3_assert a.

End Kernel3.

(** ** Particles *)

Module Particles.
Import Scalar Linear.

Inductive ParticleState : Type := INACTIVE | BUFFER | UPDATING.

Definition state_eqb (a b : ParticleState) : bool :=
  match a, b with
  | INACTIVE, INACTIVE | BUFFER, BUFFER | UPDATING, UPDATING => true
  | _, _ => false
  end.

(** The fields of [MPM3Particle] that [mpm3.cpp] reads or writes. *)
Record MPM3Particle : Type := mkParticle {
  pos : Vector3;
  v : Vector3;
  mass : Q;
  apic_b : Matrix;
  dg_e : Matrix;
  dg_p : Matrix;
  dg_cache : Matrix;
  tmp_force : Matrix;
  state : ParticleState;
  last_update : Z
}.

(** [particles] is a vector of pointers; a pointer is the position of the
    particle in the store. *)
Definition Store : Type := list MPM3Particle.

(** Write through a particle pointer. *)
Fixpoint store_set (st : Store) (n : nat) (p : MPM3Particle) : Store :=
  match st, n with
  | [], _ => []
  | _ :: rest, O => p :: rest
  | q :: rest, S n' => q :: store_set rest n' p
  end.

(** [parallel_for_each_active_particle(f)] for an [f] that updates the
    particle it is given: the scheduler's active particles are pointers
    into the store, visited one after the other. *)
Definition visit (f : MPM3Particle -> MPM3Particle) (st : Store) (n : nat)
    : Store :=
  match nth_error st n with
  | Some p => store_set st n (f p)
  | None => st
  end.

Definition for_each_active (f : MPM3Particle -> MPM3Particle)
    (active : list nat) (st : Store) : Store :=
  fold_left (visit f) active st.

(** [parallel_for_each_particle(f)]: every particle of the store. *)
Definition for_each_particle (f : MPM3Particle -> MPM3Particle)
    (st : Store) : Store := map f st.

(** The particles the scheduler's active pointers refer to. *)
Definition active_particles (active : list nat) (st : Store)
    : list MPM3Particle :=
  flat_map
    (fun n => match nth_error st n with Some p => [p] | None => [] end)
    active.

End Particles.

(** ** The background grid *)

Module Grid.
Import Scalar Linear.

(** A node index ([Index3D], [Vector3i]). *)
Definition Index : Type := (Z * Z * Z)%type.

Definition index_eqb (a b : Index) : bool :=
  let '(ai, aj, ak) := a in
  let '(bi, bj, bk) := b in
  (ai =? bi)%Z && (aj =? bj)%Z && (ak =? bk)%Z.

(** [Vector(ind.i, ind.j, ind.k)]. *)
Definition node_pos (ind : Index) : Vector3 :=
  let '(i, j, k) := ind in mkVector (of_int i) (of_int j) (of_int k).

(** A dense 3D array, read at an index. *)
Definition Array3D (A : Type) : Type := Index -> A.

(** [a[ind] = x]. *)
Definition upd {A : Type} (a : Array3D A) (ind : Index) (x : A) : Array3D A :=
  fun j => if index_eqb j ind then x else a j.

(** The integers [lo], [lo + 1], ..., [n] of them. *)
Definition zrange (lo : Z) (n : nat) : list Z :=
  map (fun k => (lo + Z.of_nat k)%Z) (seq 0 n).

(** The nodes of the box [xs] x [ys] x [zs], first index outermost. *)
Definition box (xs ys zs : list Z) : list Index :=
  flat_map (fun i => flat_map (fun j => map (fun k => (i, j, k)) zs) ys) xs.

(** [grid_mass.get_region()]: the arrays are initialised with size
    [res + 1] on every axis. *)
Definition get_region (res : Index) : list Index :=
  let '(rx, ry, rz) := res in
  box (zrange 0 (Z.to_nat (rx + 1))) (zrange 0 (Z.to_nat (ry + 1)))
      (zrange 0 (Z.to_nat (rz + 1))).

(** The three grid arrays of [MPM3D]. *)
Record Grids : Type := mkGrids {
  grid_mass : Array3D Q;
  grid_velocity : Array3D Vector3;
  grid_velocity_backup : Array3D Vector3
}.

(** Modelled from the spec: [get_bounded_rasterization_region] is declared
    in mpm3.h, which is not part of the sources.  The spec describes the
    4x4x4 neighborhood (64 nodes) surrounding the particle, on a lattice of
    size [resolution + 1] per axis, with fewer than 64 nodes when the
    particle is too close to a domain boundary: per axis the four nodes
    [x - 1 .. x + 2] around the integer part [x] of the coordinate, kept
    when they are nodes of the lattice. *)
Definition axis_nodes (r : Z) (c : Q) : list Z :=
  let x := to_int c in
  filter (fun i => (0 <=? i)%Z && (i <=? r)%Z)
         [(x - 1)%Z; x; (x + 1)%Z; (x + 2)%Z].

(** Modelled from the spec: [get_bounded_rasterization_region] of mpm3.h
    (not part of the sources), the box of the nodes kept on each axis. *)
Definition get_bounded_rasterization_region (res : Index) (p : Vector3)
    : list Index :=
  let '(rx, ry, rz) := res in
  box (axis_nodes rx (vx p)) (axis_nodes ry (vy p)) (axis_nodes rz (vz p)).

(** The whole neighborhood of [p] is on the lattice. *)
Definition axis_inside (r : Z) (c : Q) : bool :=
  (1 <=? to_int c)%Z && (to_int c + 2 <=? r)%Z.

Definition neighborhood_inside (res : Index) (p : Vector3) : bool :=
  let '(rx, ry, rz) := res in
  axis_inside rx (vx p) && axis_inside ry (vy p) && axis_inside rz (vz p).

(** Sum of an array of reals over a list of nodes. *)
Definition sum_over (a : Array3D Q) (inds : list Index) : Q := sumQ a inds.

End Grid.

(** ** Rasterize (particle to grid) *)

Module Rasterize.
Import Scalar Linear Kernel3 Particles Grid.

(** [grid_velocity.reset(Vector(0.0f)); grid_mass.reset(0.0f)]. *)
Definition reset (g : Grids) : Grids :=
  mkGrids (fun _ => 0) (fun _ => vconst 0) (grid_velocity_backup g).

(** The body of the loop over the nodes of a particle's region.  The
    lock of the node makes the two accumulations one step. *)
Definition scatter (p : MPM3Particle) (g : Grids) (ind : Index) : Grids :=
  let d_pos := vsub (node_pos ind) (pos p) in
  let weight := w3 d_pos in
  mkGrids
    (upd (grid_mass g) ind (grid_mass g ind + weight * mass p))
    (upd (grid_velocity g) ind
       (vadd (grid_velocity g ind)
          (vscale (weight * mass p)
             (vadd (v p) (mat_vec (mscale 3 (apic_b p)) d_pos)))))
    (grid_velocity_backup g).

Definition scatter_particle (res : Index) (g : Grids) (p : MPM3Particle)
    : Grids :=
  fold_left (scatter p) (get_bounded_rasterization_region res (pos p)) g.

(** The first loop of [rasterize], over the active particles. *)
Definition scatter_all (res : Index) (ps : list MPM3Particle) (g : Grids)
    : Grids :=
  fold_left (scatter_particle res) ps (reset g).

(** The body of the second loop: the velocity of a node of positive mass
    is multiplied by [1.0f / grid_mass[ind]]; [None] is a division by
    zero. *)
Definition normalize_node (g : Grids) (ind : Index) : option Grids :=
  if ltb 0 (grid_mass g ind) then
    match checked_div 1 (grid_mass g ind) with
    | Some r =>
        Some (mkGrids (grid_mass g)
                (upd (grid_velocity g) ind (vscale_r (grid_velocity g ind) r))
                (grid_velocity_backup g))
    | None => None
    end
  else Some g.

Fixpoint normalize (inds : list Index) (g : Grids) : option Grids :=
  match inds with
  | [] => Some g
  | ind :: rest =>
      match normalize_node g ind with
      | Some g' => normalize rest g'
      | None => None
      end
  end.

(** [MPM3D::rasterize]; [ps] are the particles the scheduler's active
    pointers refer to ([active_particles]). *)
Definition rasterize (res : Index) (ps : list MPM3Particle) (g : Grids)
    : option Grids :=
  normalize (get_region res) (scatter_all res ps g).

(** Every node has a mass that is not negative, and a node without mass
    has no velocity. *)
Definition massless_at_rest (g : Grids) : Prop :=
  forall ind,
    0 <= grid_mass g ind /\
    (grid_mass g ind == 0 -> grid_velocity g ind =v= vconst 0).

(** A particle of non-negative mass at non-negative coordinates. *)
Definition physical (p : MPM3Particle) : Prop :=
  0 <= mass p /\ 0 <= vx (pos p) /\ 0 <= vy (pos p) /\ 0 <= vz (pos p).

(** Total mass of a list of particles. *)
Definition total_mass (ps : list MPM3Particle) : Q := sumQ mass ps.

End Rasterize.

(** ** Projection of the deformation force on the grid *)

Module Force.
Import Scalar Linear Kernel3 Particles Grid.

(** The body of the second loop of [apply_deformation_force]: a node
    without mass is skipped, the others receive
    [delta_t / mass * force]; [None] is a division by zero. *)
Definition project_node (delta_t : Q) (p : MPM3Particle) (g : Grids)
    (ind : Index) : option Grids :=
  let mass := grid_mass g ind in
  if Qeq_bool mass 0 then Some g
  else
    let d_pos := vsub (pos p) (node_pos ind) in
    let gw := dw3 d_pos in
    let force := mat_vec (tmp_force p) gw in
    match checked_div delta_t mass with
    | Some r =>
        Some (mkGrids (grid_mass g)
                (upd (grid_velocity g) ind
                     (vadd (grid_velocity g ind) (vscale r force)))
                (grid_velocity_backup g))
    | None => None
    end.

Fixpoint project_nodes (delta_t : Q) (p : MPM3Particle) (inds : list Index)
    (g : Grids) : option Grids :=
  match inds with
  | [] => Some g
  | ind :: rest =>
      match project_node delta_t p g ind with
      | Some g' => project_nodes delta_t p rest g'
      | None => None
      end
  end.

Fixpoint project_particles (res : Index) (delta_t : Q)
    (ps : list MPM3Particle) (g : Grids) : option Grids :=
  match ps with
  | [] => Some g
  | p :: rest =>
      match project_nodes delta_t p
              (get_bounded_rasterization_region res (pos p)) g with
      | Some g' => project_particles res delta_t rest g'
      | None => None
      end
  end.

(** [MPM3D::apply_deformation_force]; [calculate_force] is a virtual
    method of the particle classes, a parameter here. *)
Definition apply_deformation_force
    (calculate_force : MPM3Particle -> MPM3Particle) (res : Index)
    (delta_t : Q) (active : list nat) (st : Store) (g : Grids)
    : Store * option Grids :=
  let st' := for_each_active calculate_force active st in
  (st', project_particles res delta_t (active_particles active st') g).

End Force.

(** ** The constants of a simulation *)

Module Config.
Import Grid.

(** The members of [MPM3D] set by [initialize] that the transfers read. *)
Record Config : Type := mkConfig {
  res : Index;
  apic : bool;
  async : bool;
  base_delta_t : Q;
  affine_damping : Q
}.

End Config.

(** ** Resample (grid to particle) *)

Module Resample.
Import Scalar Linear Kernel3 Particles Grid Config.

(** The local accumulators of the lambda of [resample]. *)
Record Gather : Type := mkGather {
  g_v : Vector3;
  g_bv : Vector3;
  g_cdg : Matrix;
  g_b : Matrix;
  g_count : Z
}.

Definition gather_init : Gather :=
  mkGather (vconst 0) (vconst 0) (mdiag 0) (mdiag 0) 0%Z.

(** The body of the loop over the nodes of the particle's region. *)
Definition gather_step (g : Grids) (p : MPM3Particle) (acc : Gather)
    (ind : Index) : Gather :=
  let count := (g_count acc + 1)%Z in
  let d_pos := vsub (pos p) (node_pos ind) in
  let weight := w3 d_pos in
  let gw := dw3 d_pos in
  let grid_vel := grid_velocity g ind in
  let aa := grid_vel in
  let bb := vneg d_pos in
  let out :=
    mkMatrix (mkVector (vx aa * vx bb) (vy aa * vx bb) (vz aa * vx bb))
             (mkVector (vx aa * vy bb) (vy aa * vy bb) (vz aa * vy bb))
             (mkVector (vx aa * vz bb) (vy aa * vz bb) (vz aa * vz bb)) in
  mkGather (vadd (g_v acc) (vscale weight grid_vel))
           (vadd (g_bv acc) (vscale weight (grid_velocity_backup g ind)))
           (madd (g_cdg acc) (outerProduct (grid_velocity g ind) gw))
           (madd (g_b acc) (mscale weight out))
           count.

(** The accumulators after the loop. *)
Definition gather (cfg : Config) (g : Grids) (p : MPM3Particle) : Gather :=
  fold_left (gather_step g p)
            (get_bounded_rasterization_region (res cfg) (pos p)) gather_init.

(** [if (count != 64 || !apic) b = Matrix(0);] *)
Definition select_affine (count : Z) (apic : bool) (b : Matrix) : Matrix :=
  if negb (count =? 64)%Z || negb apic then mdiag 0 else b.

(** [alpha_delta_t], set before the loop over the particles. *)
Definition alpha_delta_t (cfg : Config) : Q := if apic cfg then 0 else 1.

(** The velocity assigned to the particle. *)
Definition blend (alpha : Q) (gv gbv v_old : Vector3) : Vector3 :=
  vadd (vscale (1 - alpha) gv) (vscale alpha (vadd (vsub gv gbv) v_old)).

(** The lambda of [resample], applied to one particle. *)
Definition resample_particle (cfg : Config) (current_t_int : Z) (g : Grids)
    (p : MPM3Particle) : MPM3Particle :=
  if negb (state_eqb (state p) UPDATING) then p
  else
    let delta_t :=
      base_delta_t cfg * of_int (wrap64 (current_t_int - last_update p)) in
    let acc := gather cfg g p in
    let b := select_affine (g_count acc) (apic cfg) (g_b acc) in
    let damping := fmax 0 (1 - delta_t * affine_damping cfg) in
    let cdg := madd (mdiag 1) (mscale delta_t (g_cdg acc)) in
    let dg := mat_mul (mat_mul cdg (dg_e p)) (dg_p p) in
    mkParticle (pos p)
               (blend (alpha_delta_t cfg) (g_v acc) (g_bv acc) (v p))
               (mass p)
               (mscale_r b damping)
               (mat_mul cdg (dg_e p))
               (dg_p p)
               dg
               (tmp_force p)
               (state p)
               (last_update p).

(** [MPM3D::resample]. *)
Definition resample (cfg : Config) (current_t_int : Z) (g : Grids)
    (active : list nat) (st : Store) : Store :=
  for_each_active (resample_particle cfg current_t_int g) active st.

(** The velocity gathered from an array of node velocities: the sum of
    [weight * velocity] over the nodes of a list. *)
Fixpoint weighted_sum (a : Array3D Vector3) (x : Vector3)
    (inds : list Index) : Vector3 :=
  match inds with
  | [] => vconst 0
  | ind :: rest =>
      vadd (vscale (w3 (vsub x (node_pos ind))) (a ind))
           (weighted_sum a x rest)
  end.

End Resample.

(** ** Boundary conditions on the grid *)

Module Boundary.
Import Scalar Linear Grid.

(** The queries [mpm3.cpp] makes on the level set. *)
Record DynamicLevelSet3D : Type := mkLevelSet {
  sample : Vector3 -> Q -> Q;
  get_spatial_gradient : Vector3 -> Q -> Vector3;
  get_temporal_derivative : Vector3 -> Q -> Q;
  friction : Q
}.

(** [Vector3(0.5 + ind[0], 0.5 + ind[1], 0.5 + ind[2])]. *)
Definition sample_pos (ind : Index) : Vector3 :=
  let '(i, j, k) := ind in
  mkVector ((1 # 2) + of_int i) ((1 # 2) + of_int j) ((1 # 2) + of_int k).

(** The velocity of the boundary at node [ind]:
    [levelset.get_temporal_derivative(pos, t) * n]. *)
Definition boundary_velocity_at (levelset : DynamicLevelSet3D) (t : Q)
    (ind : Index) : Vector3 :=
  vscale (get_temporal_derivative levelset (sample_pos ind) t)
         (get_spatial_gradient levelset (sample_pos ind) t).

Section WithVectorLibrary.

(** [length] and [normalize] on vectors come from the vector library and
    need a square root; they are parameters here. *)
Variable length : Vector3 -> Q.
Variable normalize : Vector3 -> Vector3.

(** The body of the loop of [grid_apply_boundary_conditions]. *)
Definition boundary_node (levelset : DynamicLevelSet3D) (t : Q)
    (gv : Array3D Vector3) (ind : Index) : Array3D Vector3 :=
  let pos := sample_pos ind in
  let phi := sample levelset pos t in
  if ltb 1 phi || ltb phi (- (3)) then gv
  else
    let n := get_spatial_gradient levelset pos t in
    let boundary_velocity :=
      vscale (get_temporal_derivative levelset pos t) n in
    let v := vsub (gv ind) boundary_velocity in
    let v :=
      if ltb 0 phi then
        let pressure := fmax (- dot v n) 0 in
        let mu := friction levelset in
        if ltb mu 0 then vconst 0
        else
          let t := vsub v (vscale_r n (dot v n)) in
          let t := if ltb (1 # 1000000) (length t) then normalize t else t in
          let friction :=
            - clamp (dot t v) (- mu * pressure) (mu * pressure) in
          vadd (vadd v (vscale_r n pressure)) (vscale_r t friction)
      else if ltb phi 0 then vscale_r n (fmax 0 (dot v n))
      else v in
    upd gv ind (vadd v boundary_velocity).

(** [MPM3D::grid_apply_boundary_conditions], on the scheduler's active
    grid points. *)
Definition grid_apply_boundary_conditions (levelset : DynamicLevelSet3D)
    (t : Q) (active_grid_points : list Index) (gv : Array3D Vector3)
    : Array3D Vector3 :=
  fold_left (boundary_node levelset t) active_grid_points gv.

End WithVectorLibrary.

End Boundary.

(** ** The substep: tick alignment and position integration *)

Module Substep.
Import Scalar Float32 Linear Particles Grid Config Resample.

(** The tick counters of [MPM3D]. *)
Record Clock : Type := mkClock {
  current_t_int : Z;
  old_t_int : Z;
  t_int_increment : Z;
  original_t_int_increment : Z;
  current_t : Q
}.

(** The asynchronous branch of [substep].  [pot] is the value of
    [get_largest_pot(int64(maximum_delta_t / base_delta_t))] and
    [max_dt_int] the value of [scheduler.update_max_dt_int(current_t_int)];
    both functions are outside this file. *)
Definition advance_async (cfg : Config) (pot max_dt_int : Z) (c : Clock)
    : Clock :=
  let old := current_t_int c in
  let original := Z.min pot max_dt_int in
  let increment :=
    wrap64 (original - Z.rem (current_t_int c) original) in
  let current := wrap64 (current_t_int c + increment) in
  mkClock current old increment original
          (of_int current * base_delta_t cfg).

(** The synchronous branch of [substep], on the counters. *)
Definition advance_sync (cfg : Config) (c : Clock) : Clock :=
  let old := current_t_int c in
  let increment := 1%Z in
  let current := wrap64 (current_t_int c + increment) in
  mkClock current old increment (original_t_int_increment c)
          (of_int current * base_delta_t cfg).

(** The synchronous branch marks every particle as updating. *)
Definition mark_updating (p : MPM3Particle) : MPM3Particle :=
  mkParticle (pos p) (v p) (mass p) (apic_b p) (dg_e p) (dg_p p)
             (dg_cache p) (tmp_force p) UPDATING (last_update p).

Section WithParticleMethods.

(** The constant [eps] of math_util.h, and the virtual methods
    [plasticity] and [resolve_collision] of the particle classes, are
    outside this file; they are parameters here. *)
Variable eps : Q.
Variable plasticity : MPM3Particle -> MPM3Particle.
Variable resolve_collision : Q -> MPM3Particle -> MPM3Particle.

(** The lambda of the loop over all particles that follows [resample].
    The upper bound of the clamp, [res[0] - eps], is the binary32
    difference of the converted resolution and [eps]. *)
Definition integrate_particle (cfg : Config) (c : Clock) (p : MPM3Particle)
    : MPM3Particle :=
  if state_eqb (state p) UPDATING then
    let '(rx, ry, rz) := res cfg in
    let moved :=
      vadd (pos p)
           (vscale (of_int (wrap64 (current_t_int c - last_update p))
                    * base_delta_t cfg) (v p)) in
    let x := clamp (vx moved) 0 (fsub32 (int_to_float rx) eps) in
    let y := clamp (vy moved) 0 (fsub32 (int_to_float ry) eps) in
    let z := clamp (vz moved) 0 (fsub32 (int_to_float rz) eps) in
    plasticity
      (mkParticle (mkVector x y z) (v p) (mass p) (apic_b p) (dg_e p)
                  (dg_p p) (dg_cache p) (tmp_force p) (state p)
                  (current_t_int c))
  else p.

Definition integrate (cfg : Config) (c : Clock) (st : Store) : Store :=
  for_each_particle (integrate_particle cfg c) st.

(** [MPM3D::particle_collision_resolution]. *)
Definition particle_collision_resolution (t : Q) (active : list nat)
    (st : Store) : Store :=
  for_each_active
    (fun p =>
       if state_eqb (state p) UPDATING then resolve_collision t p else p)
    active st.

(** [resample] followed by the position-integration loop. *)
Definition resample_and_integrate (cfg : Config) (c : Clock) (g : Grids)
    (active : list nat) (st : Store) : Store :=
  integrate cfg c (resample cfg (current_t_int c) g active st).

(** The end of [substep], from [resample] on (without the scheduler's
    [enforce_smoothness]). *)
Definition finish_substep (cfg : Config) (c : Clock) (g : Grids)
    (active : list nat) (st : Store) : Store :=
  particle_collision_resolution (current_t c) active
    (resample_and_integrate cfg c g active st).

End WithParticleMethods.

(** A coordinate is inside the domain: in [[0, r)]. *)
Definition coord_in_domain (r : Z) (c : Q) : Prop :=
  0 <= c /\ c < of_int r.

Definition in_domain (res : Index) (p : MPM3Particle) : Prop :=
  let '(rx, ry, rz) := res in
  coord_in_domain rx (vx (pos p)) /\
  coord_in_domain ry (vy (pos p)) /\
  coord_in_domain rz (vz (pos p)).

(** A coordinate is between the bounds of the clamp, [0] and the
    binary32 value of [r - eps]. *)
Definition coord_clamped (eps : Q) (r : Z) (c : Q) : Prop :=
  0 <= c /\ c <= fsub32 (int_to_float r) eps.

Definition clamped (eps : Q) (res : Index) (p : MPM3Particle) : Prop :=
  let '(rx, ry, rz) := res in
  coord_clamped eps rx (vx (pos p)) /\
  coord_clamped eps ry (vy (pos p)) /\
  coord_clamped eps rz (vz (pos p)).

End Substep.

(** ** Sample data *)

Module Sample.
Import Scalar Linear Particles Grid Config Substep.

Definition cfg_apic : Config :=
  mkConfig (8, 8, 8)%Z true false (1 # 1000000) 0.

Definition cfg_flip : Config :=
  mkConfig (8, 8, 8)%Z false false (1 # 1000000) 0.

Definition particle_at (x : Vector3) (s : ParticleState) : MPM3Particle :=
  mkParticle x (mkVector 1 0 (- (1))) 1 (mdiag (1 # 2)) (mdiag 1) (mdiag 1)
             (mdiag 1) (mdiag 0) s 0%Z.

(** A particle in the interior, one next to the boundary and one beyond
    the domain. *)
Definition interior : Vector3 := mkVector (9 # 2) (17 # 4) 4.
Definition near_wall : Vector3 := mkVector (1 # 2) 4 4.
Definition outside : Vector3 := mkVector 12 (- (3)) 4.

(** A grid whose node velocities vary with the node. *)
Definition grids : Grids :=
  mkGrids (fun _ => 1)
          (fun ind => let '(i, j, k) := ind in
                      mkVector (of_int i) (of_int j) (of_int (i + k)))
          (fun ind => let '(i, j, k) := ind in
                      mkVector (of_int k) 1 (of_int j)).

Definition clock : Clock := mkClock 3 2 1 1 (3 # 1000000).

(** A [plasticity] that rewrites the deformation gradients only. *)
Definition plasticity (p : MPM3Particle) : MPM3Particle :=
  mkParticle (pos p) (v p) (mass p) (apic_b p) (mdiag 1)
             (mat_mul (dg_e p) (dg_p p)) (dg_cache p) (tmp_force p)
             (state p) (last_update p).

(** A [resolve_collision] that stops the particle where it is. *)
Definition resolve_collision (t : Q) (p : MPM3Particle) : MPM3Particle :=
  mkParticle (pos p) (vconst 0) (mass p) (apic_b p) (dg_e p) (dg_p p)
             (dg_cache p) (tmp_force p) (state p) (last_update p).

End Sample.

(** ** Sums of vectors and momentum *)

Module Measures.
Import Scalar Linear Particles Grid.

(** The sum of the vectors [f a] over the elements [a] of a list. *)
Definition vsum {A : Type} (f : A -> Vector3) (l : list A) : Vector3 :=
  fold_right (fun a acc => vadd (f a) acc) (vconst 0) l.

(** The sum of the matrices [f a] over the elements [a] of a list. *)
Definition msum {A : Type} (f : A -> Matrix) (l : list A) : Matrix :=
  fold_right (fun a acc => madd (f a) acc) (mdiag 0) l.

(** The momentum the grid holds once [grid_velocity] is a velocity:
    the sum of [mass * velocity] over a list of nodes. *)
Definition grid_momentum (g : Grids) (inds : list Index) : Vector3 :=
  vsum (fun ind => vscale (grid_mass g ind) (grid_velocity g ind)) inds.

(** The momentum of a list of particles. *)
Definition particle_momentum (ps : list MPM3Particle) : Vector3 :=
  vsum (fun p => vscale (mass p) (v p)) ps.

(** What one particle adds to the velocity array of one node in the first
    loop of [rasterize]. *)
Definition node_share (p : MPM3Particle) (ind : Index) : Vector3 :=
  let d_pos := vsub (node_pos ind) (pos p) in
  vscale (Kernel3.w3 d_pos * mass p)
         (vadd (v p) (mat_vec (mscale 3 (apic_b p)) d_pos)).

(** The fractional part of a coordinate. *)
Definition frac (c : Q) : Q := c - of_int (to_int c).

(** Two grids hold the same mass and velocity at every node. *)
Definition same_nodes (g1 g2 : Grids) : Prop :=
  forall ind,
    grid_mass g1 ind = grid_mass g2 ind /\
    grid_velocity g1 ind = grid_velocity g2 ind.

(** The factors of the weight and of its gradient along one axis, as
    functions of the offset node minus particle [t], with the powers of
    [t] that the moments need. *)
Definition wm0 (t : Q) : Q := Kernel.w (- t).
Definition wm1 (t : Q) : Q := Kernel.w (- t) * t.
Definition wm2 (t : Q) : Q := Kernel.w (- t) * t * t.
Definition gm0 (t : Q) : Q := Kernel.dw (- t).
Definition gm1 (t : Q) : Q := Kernel.dw (- t) * t.

(** The weight of a node, its offset from the particle and the gradient
    of the weight, as the loop of [resample] computes them for a particle
    at [x]: [weight], [bb] and [gw]. *)
Definition node_weight (x : Vector3) (ind : Index) : Q :=
  Kernel3.w3 (vsub x (node_pos ind)).

Definition node_offset (x : Vector3) (ind : Index) : Vector3 :=
  vneg (vsub x (node_pos ind)).

Definition node_gradient (x : Vector3) (ind : Index) : Vector3 :=
  Kernel3.dw3 (vsub x (node_pos ind)).

(** What the second loop of [apply_deformation_force] adds to the
    momentum [mass * velocity] of a node that has mass:
    [delta_t * force]. *)
Definition node_impulse (delta_t : Q) (p : MPM3Particle) (ind : Index)
    : Vector3 :=
  vscale delta_t (mat_vec (tmp_force p) (node_gradient (pos p) ind)).

(** An affine velocity field on the nodes: [c + A * node]. *)
Definition affine_field (c : Vector3) (A : Matrix) (x : Vector3) : Vector3 :=
  vadd c (mat_vec A x).

(** A [calculate_force] that stores a force in the particle. *)
Definition sample_calculate_force (p : MPM3Particle) : MPM3Particle :=
  mkParticle (pos p) (v p) (mass p) (apic_b p) (dg_e p) (dg_p p)
             (dg_cache p)
             (mkMatrix (mkVector (- (2)) 0 1) (mkVector 0 (- (2)) 0)
                       (mkVector (1 # 2) 0 (- (3))))
             (state p) (last_update p).

End Measures.

(** ** Render particles *)

Module Render.
Import Scalar Linear Particles Grid Config.

Record Vector4 : Type := mkVector4 { c_r : Q; c_g : Q; c_b : Q; c_a : Q }.

(** [RenderParticle]: a position and a colour. *)
Record RenderParticle : Type := mkRenderParticle {
  position : Vector3;
  color : Vector4
}.

(** [Vector3 center(res[0] / 2.0f, res[1] / 2.0f, res[2] / 2.0f)]. *)
Definition center (cfg : Config) : Vector3 :=
  let '(rx, ry, rz) := res cfg in
  mkVector (of_int rx / 2) (of_int ry / 2) (of_int rz / 2).

(** The body of the loop of [get_render_particles]. *)
Definition render_particle (cfg : Config) (current_t_int : Z)
    (p : MPM3Particle) : RenderParticle :=
  let pos :=
    vadd (vsub (pos p) (center cfg))
         (vscale (of_int (wrap64 (current_t_int - last_update p))
                  * base_delta_t cfg) (v p)) in
  match state p with
  | UPDATING =>
      mkRenderParticle pos (mkVector4 (4 # 5) (1 # 10) (1 # 5) (1 # 2))
  | BUFFER =>
      mkRenderParticle pos (mkVector4 (4 # 5) (4 # 5) (1 # 5) (1 # 2))
  | INACTIVE =>
      mkRenderParticle pos (mkVector4 (4 # 5) (9 # 10) 1 (1 # 2))
  end.

(** [MPM3D::get_render_particles]. *)
Definition get_render_particles (cfg : Config) (current_t_int : Z)
    (particles : Store) : list RenderParticle :=
  map (render_particle cfg current_t_int) particles.

End Render.

(** ** The asset manager *)

Module Assets.

(** A [shared_ptr]: the address [get()] returns and the control block
    that tracks the object's life. *)
Record shared_ptr : Type := mkShared { s_addr : Z; s_block : Z }.

(** A [weak_ptr<void>]: empty (default-constructed) or watching a
    control block. *)
Inductive weak_ptr : Type :=
| weak_empty
| weak_to (addr block : Z).

(** A [std::map] with integer keys. *)
Definition ZMap (V : Type) : Type := Z -> option V.

Definition zempty {V : Type} : ZMap V := fun _ => None.

(** [m[k] = x] and [m.erase(k)]. *)
Definition zset {V : Type} (m : ZMap V) (k : Z) (x : V) : ZMap V :=
  fun j => if (j =? k)%Z then Some x else m j.

Definition zerase {V : Type} (m : ZMap V) (k : Z) : ZMap V :=
  fun j => if (j =? k)%Z then None else m j.

(** The members of [AssetManager]; [asset_to_id] is keyed by address. *)
Record AssetManager : Type := mkManager {
  counter : Z;
  asset_to_id : ZMap Z;
  id_to_asset : ZMap weak_ptr
}.

(** [static AssetManager manager]: [counter = 0] and empty maps. *)
Definition get_instance : AssetManager := mkManager 0 zempty zempty.

(** The failures of [assert_info], by their messages: "Asset not found",
    "Asset has been expired", "Asset already exists". *)
Inductive AssetError : Type :=
| AssetNotFound
| AssetExpired
| AssetAlreadyExists.

(** Arithmetic on [int] wraps around. *)
Definition wrap32 (z : Z) : Z := ((z + 2 ^ 31) mod 2 ^ 32 - 2 ^ 31)%Z.

Section WithHeap.

(** Which control blocks have no owner left, when the call is made. *)
Variable block_expired : Z -> bool.

(** [ptr.expired()]. *)
Definition expired (w : weak_ptr) : bool :=
  match w with
  | weak_empty => true
  | weak_to _ b => block_expired b
  end.

(** [get_asset_<T>(id)]. *)
Definition get_asset_ (m : AssetManager) (id : Z)
    : AssetError + shared_ptr :=
  match id_to_asset m id with
  | None => inl AssetNotFound
  | Some ptr =>
      match ptr with
      | weak_empty => inl AssetExpired
      | weak_to a b =>
          if block_expired b then inl AssetExpired else inr (mkShared a b)
      end
  end.

(** [insert_asset_<T>(ptr)]: the new id and the manager after the call.
    [id_to_asset[existing_id]] on a missing key is an empty pointer. *)
Definition insert_asset_ (m : AssetManager) (ptr : shared_ptr)
    : AssetError + (Z * AssetManager) :=
  let stale :=
    match asset_to_id m (s_addr ptr) with
    | Some existing_id =>
        let w := match id_to_asset m existing_id with
                 | Some w => w
                 | None => weak_empty
                 end in
        if expired w then
          inr (zerase (asset_to_id m) (s_addr ptr),
               zerase (id_to_asset m) existing_id)
        else inl AssetAlreadyExists
    | None => inr (asset_to_id m, id_to_asset m)
    end in
  match stale with
  | inl e => inl e
  | inr (a2i, i2a) =>
      let id := counter m in
      inr (id,
           mkManager (wrap32 (counter m + 1))
                     (zset a2i (s_addr ptr) id)
                     (zset i2a id (weak_to (s_addr ptr) (s_block ptr))))
  end.

End WithHeap.

(** The two maps mirror each other and every id is below the counter. *)
Definition consistent (m : AssetManager) : Prop :=
  (forall id w, id_to_asset m id = Some w ->
     (0 <= id < counter m)%Z /\
     exists a b, w = weak_to a b /\ asset_to_id m a = Some id) /\
  (forall a id, asset_to_id m a = Some id ->
     exists b, id_to_asset m id = Some (weak_to a b)).

End Assets.

(** ** Seeding of particles *)

Module Seeding.
Import Scalar Float32 Linear Particles Grid Assets.

(** The entries of [config] that [add_particles] reads: ["density_tex"],
    whether ["type"] is ["ep"] (the default), and ["initial_velocity"]
    when it is given. *)
Record SeedConfig : Type := mkSeed {
  density_tex : Z;
  type_is_ep : bool;
  initial_velocity : option Vector3
}.

(** The vector [particles] and the number of calls of [rand()] made so
    far. *)
Record Seeder : Type := mkSeeder {
  particles : Store;
  draws : nat
}.

(** [Vector3(i + 0.5f, j + 0.5f, k + 0.5f) / Vector3(res)]; the loops
    only reach it with a resolution that is positive on every axis. *)
Definition cell_coord (res : Index) (i j k : Z) : Vector3 :=
  let '(rx, ry, rz) := res in
  mkVector ((of_int i + (1 # 2)) / of_int rx)
           ((of_int j + (1 # 2)) / of_int ry)
           ((of_int k + (1 # 2)) / of_int rz).

(** [(int)num + (rand() < num - int(num))], for a [num] that fits an
    [int]. *)
Definition cell_count (num r : Q) : Z :=
  (to_int num + (if ltb r (num - of_int (to_int num)) then 1 else 0))%Z.

(** The cells the three loops visit, in their order. *)
Definition cells (res : Index) : list Index :=
  let '(rx, ry, rz) := res in
  box (zrange 0 (Z.to_nat rx)) (zrange 0 (Z.to_nat ry))
      (zrange 0 (Z.to_nat rz)).

(** The order in which the three calls of [rand()] in
    [Vector(i + rand(), j + rand(), k + rand())] are made is the
    compiler's choice: which of the three draws goes to [x], to [y] and to
    [z]. *)
Record DrawOrder : Type := mkOrder {
  draw_x : nat;
  draw_y : nat;
  draw_z : nat
}.

Section WithExternals.

(** Which control blocks have no owner left. *)
Variable block_expired : Z -> bool.

(** [density_texture->sample(coord).x] for the texture behind a
    pointer. *)
Variable sample : shared_ptr -> Vector3 -> Q.

(** The successive values of [rand()]. *)
Variable rand : nat -> Q.

(** The order of the three draws of a position. *)
Variable order : DrawOrder.

(** What [new EPParticle3()] and [new DPParticle3()] followed by
    [initialize(config)] build. *)
Variable ep_particle : MPM3Particle.
Variable dp_particle : MPM3Particle.

(** The body of the innermost loop, up to [push_back].  The sums
    [i + rand()] are binary32 sums of the converted index and the
    draw. *)
Definition new_particle (cfg : SeedConfig) (current_t_int : Z)
    (i j k : Z) (n : nat) : MPM3Particle :=
  let p := if type_is_ep cfg then ep_particle else dp_particle in
  mkParticle
    (mkVector (fadd32 (int_to_float i) (rand (n + draw_x order)))
              (fadd32 (int_to_float j) (rand (n + draw_y order)))
              (fadd32 (int_to_float k) (rand (n + draw_z order))))
    (match initial_velocity cfg with
     | Some u => u
     | None => v p
     end)
    1 (apic_b p) (dg_e p) (dg_p p) (dg_cache p) (tmp_force p)
    (state p) current_t_int.

(** [for (int l = 0; l < t; l++)], with the iterations left to do. *)
Fixpoint spawn (cfg : SeedConfig) (current_t_int : Z) (i j k : Z)
    (todo : nat) (s : Seeder) : Seeder :=
  match todo with
  | O => s
  | S todo' =>
      spawn cfg current_t_int i j k todo'
        (mkSeeder
           (particles s ++ [new_particle cfg current_t_int i j k (draws s)])
           (draws s + 3))
  end.

(** The body of the loop over [k]. *)
Definition seed_cell (cfg : SeedConfig) (current_t_int : Z) (res : Index)
    (tex : shared_ptr) (s : Seeder) (ind : Index) : Seeder :=
  let '(i, j, k) := ind in
  let num := sample tex (cell_coord res i j k) in
  let t := cell_count num (rand (draws s)) in
  spawn cfg current_t_int i j k (Z.to_nat t)
        (mkSeeder (particles s) (S (draws s))).

(** [MPM3D::add_particles]; the particles are also handed to the
    scheduler, which is not part of the sources. *)
Definition add_particles (m : AssetManager) (cfg : SeedConfig)
    (current_t_int : Z) (res : Index) (s : Seeder)
    : AssetError + Seeder :=
  match get_asset_ block_expired m (density_tex cfg) with
  | inl e => inl e
  | inr tex =>
      inr (fold_left (seed_cell cfg current_t_int res tex) (cells res) s)
  end.

End WithExternals.

(** What [add_particles] gives a particle it creates in the cell
    [(i, j, k)]: each coordinate between the index of the cell and the
    next one, the latter included (the sum [i + rand()] may round up to
    it). *)
Definition seeded (cfg : SeedConfig) (current_t_int : Z)
    (ep_particle dp_particle : MPM3Particle) (cell : Index)
    (p : MPM3Particle) : Prop :=
  let '(i, j, k) := cell in
  mass p = 1 /\
  last_update p = current_t_int /\
  (of_int i <= vx (pos p) /\ vx (pos p) <= of_int i + 1) /\
  (of_int j <= vy (pos p) /\ vy (pos p) <= of_int j + 1) /\
  (of_int k <= vz (pos p) /\ vz (pos p) <= of_int k + 1) /\
  v p = match initial_velocity cfg with
        | Some u => u
        | None => v (if type_is_ep cfg then ep_particle else dp_particle)
        end.

(** The particles of one cell: between [lo] and [hi] of them, all
    seeded in that cell. *)
Definition cell_group (cfg : SeedConfig) (current_t_int : Z)
    (ep_particle dp_particle : MPM3Particle) (lo hi : Z) (cell : Index)
    (group : list MPM3Particle) : Prop :=
  (lo <= Z.of_nat (length group) <= hi)%Z /\
  Forall (seeded cfg current_t_int ep_particle dp_particle cell) group.

(** Every index of the grid converts to [float] exactly. *)
Definition fits_float (res : Index) : Prop :=
  let '(rx, ry, rz) := res in
  (rx <= 2 ^ 24 /\ ry <= 2 ^ 24 /\ rz <= 2 ^ 24)%Z.

(** A position in the closed box [[0, res]]. *)
Definition in_closed_domain (res : Index) (p : MPM3Particle) : Prop :=
  let '(rx, ry, rz) := res in
  (0 <= vx (pos p) /\ vx (pos p) <= of_int rx) /\
  (0 <= vy (pos p) /\ vy (pos p) <= of_int ry) /\
  (0 <= vz (pos p) /\ vz (pos p) <= of_int rz).

(** A manager that holds one texture, a density that grows along [x],
    and a [rand()] that cycles through three values, the last of them the
    largest binary32 number below 1. *)
Definition sample_texture : shared_ptr := mkShared 4096 1.

Definition sample_manager : AssetManager :=
  match insert_asset_ (fun _ => false) get_instance sample_texture with
  | inr (_, m) => m
  | inl _ => get_instance
  end.

Definition sample_density (tex : shared_ptr) (c : Vector3) : Q := 1 + vx c.

Definition sample_rand (n : nat) : Q :=
  match Nat.modulo n 3 with
  | O => 1 # 2
  | S O => 0
  | _ => 16777215 # 16777216
  end.

End Seeding.

(** * Lemmas *)

(** ** Rounding *)

Module Float32Facts.
Import Float32.

Lemma inject_le (a b : Z) : inject_Z a <= inject_Z b -> (a <= b)%Z.
Proof. rewrite <- Zle_Qle. auto. Qed.

Lemma inject_lt (a b : Z) : inject_Z a < inject_Z b -> (a < b)%Z.
Proof. rewrite <- Zlt_Qlt. auto. Qed.

(** Rounding to an integer stays between the integers around the
    number. *)
Lemma rne_between (a b : Z) (q : Q) :
  inject_Z a <= q -> q <= inject_Z b -> (a <= rne q <= b)%Z.
Proof.
  intros Ha Hb.
  assert (Hfa : (a <= Qfloor q)%Z).
  { rewrite <- (Qfloor_Z a). apply Qfloor_resp_le. exact Ha. }
  pose proof (Qfloor_le q) as Hfq.
  assert (Hfb : (Qfloor q <= b)%Z) by (apply inject_le; lra).
  assert (Hup : inject_Z (Qfloor q) < q -> (Qfloor q + 1 <= b)%Z).
  { intros Hlt. assert (H : (Qfloor q < b)%Z) by (apply inject_lt; lra). lia. }
  unfold rne.
  destruct (Qcompare_spec (q - inject_Z (Qfloor q)) (1 # 2)) as [E | E | E].
  - destruct (Z.even (Qfloor q)); [lia |].
    assert (inject_Z (Qfloor q) < q) by lra. specialize (Hup H). lia.
  - lia.
  - assert (inject_Z (Qfloor q) < q) by lra. specialize (Hup H). lia.
Qed.

Lemma pow2_inject (n : Z) : (0 <= n)%Z -> 2 ^ n == inject_Z (2 ^ n).
Proof. intros H. rewrite Zpower_Qpower by exact H. reflexivity. Qed.

(** The exponent is not above the number. *)
Lemma ilog2_le (x : Q) : 0 < x -> 2 ^ ilog2 x <= x.
Proof.
  intros Hx. unfold ilog2.
  set (k := (Z.log2 (Qnum x) - Z.log2 (Z.pos (Qden x)))%Z).
  destruct (Qle_bool (2 ^ k) x) eqn:E.
  - apply Qle_bool_iff. exact E.
  - destruct x as [n d]. cbn [Qnum Qden] in k.
    assert (Hn : (0 < n)%Z).
    { unfold Qlt in Hx. cbn in Hx. lia. }
    destruct (Z.log2_spec n Hn) as [Hl _].
    destruct (Z.log2_spec (Z.pos d) (Pos2Z.is_pos d)) as [_ Hu].
    pose proof (Z.log2_nonneg n) as Ha.
    pose proof (Z.log2_nonneg (Z.pos d)) as Hb.
    set (a := Z.log2 n) in *. set (b := Z.log2 (Z.pos d)) in *.
    assert (Hd : inject_Z (Z.pos d) <= 2 ^ (b + 1)).
    { rewrite pow2_inject by lia. rewrite <- Zle_Qle.
      replace (b + 1)%Z with (Z.succ b) by lia. lia. }
    assert (Hna : 2 ^ a <= inject_Z n).
    { rewrite pow2_inject by lia. rewrite <- Zle_Qle. exact Hl. }
    assert (Hsplit : 2 ^ a == 2 ^ (k - 1) * 2 ^ (b + 1)).
    { rewrite <- Qpower_plus by discriminate.
      replace (k - 1 + (b + 1))%Z with a by (unfold k; lia). reflexivity. }
    assert (Hp : 0 < 2 ^ (k - 1)) by (apply Qpower_0_lt; reflexivity).
    assert (Hmul : 2 ^ (k - 1) * inject_Z (Z.pos d) <= inject_Z n).
    { apply Qle_trans with (2 ^ (k - 1) * 2 ^ (b + 1)).
      - apply Qmult_le_l; assumption.
      - rewrite <- Hsplit. exact Hna. }
    assert (Hq : n # d == inject_Z n / inject_Z (Z.pos d)) by apply Qmake_Qdiv.
    rewrite Hq. apply Qle_shift_div_l; [reflexivity | exact Hmul].
Qed.

(** Below [2^24] the spacing of the binary32 numbers is [1 / K] for a
    positive integer [K], so rounding does not cross an integer. *)
Lemma round_pos_between (x : Q) (n m : Z) :
  0 < x -> x < inject_Z (2 ^ 24) ->
  inject_Z n <= x -> x <= inject_Z m ->
  inject_Z n <= round_pos x /\ round_pos x <= inject_Z m.
Proof.
  intros Hx Hbig Hn Hm. unfold round_pos.
  set (e := Z.max (ilog2 x) (-126)).
  assert (He : (e <= 23)%Z).
  { assert (H : (ilog2 x < 24)%Z).
    { apply (Qpower_lt_compat_l_inv 2); [| reflexivity].
      apply Qle_lt_trans with x; [apply ilog2_le; exact Hx |].
      rewrite pow2_inject by lia. exact Hbig. }
    unfold e. lia. }
  set (K := (2 ^ (23 - e))%Z).
  assert (HK : (0 < K)%Z) by (apply Z.pow_pos_nonneg; lia).
  assert (HKq : 0 < inject_Z K).
  { change 0 with (inject_Z 0). rewrite <- Zlt_Qlt. exact HK. }
  assert (Hulp : 2 ^ (e - 23) == / inject_Z K).
  { replace (e - 23)%Z with (- (23 - e))%Z by lia.
    rewrite Qpower_opp, pow2_inject by lia. reflexivity. }
  assert (Hq : x / 2 ^ (e - 23) == x * inject_Z K).
  { rewrite Hulp. field. lra. }
  assert (Hr : (n * K <= rne (x / 2 ^ (e - 23)) <= m * K)%Z).
  { apply rne_between; rewrite Hq, inject_Z_mult.
    - apply Qmult_le_compat_r; lra.
    - apply Qmult_le_compat_r; lra. }
  destruct Hr as [Hr1 Hr2].
  rewrite Zle_Qle in Hr1, Hr2.
  rewrite inject_Z_mult in Hr1, Hr2.
  set (r := inject_Z (rne (x / 2 ^ (e - 23)))) in *.
  rewrite Hulp.
  split.
  - apply Qle_shift_div_l; [exact HKq | exact Hr1].
  - apply Qle_shift_div_r; [exact HKq | exact Hr2].
Qed.

Lemma round32_between (x : Q) (n m : Z) :
  0 <= x -> x < inject_Z (2 ^ 24) ->
  inject_Z n <= x -> x <= inject_Z m ->
  inject_Z n <= round32 x /\ round32 x <= inject_Z m.
Proof.
  intros H0 Hbig Hn Hm. unfold round32.
  destruct (Qcompare_spec x 0) as [E | E | E].
  - lra.
  - lra.
  - apply round_pos_between; assumption.
Qed.

(** An [int] below [2^24] converts exactly. *)
Lemma int_to_float_exact (n : Z) :
  (0 <= n < 2 ^ 24)%Z -> int_to_float n == inject_Z n.
Proof.
  intros H. unfold int_to_float.
  destruct (round32_between (inject_Z n) n n) as [H1 H2].
  - change 0 with (inject_Z 0). rewrite <- Zle_Qle. lia.
  - rewrite <- Zlt_Qlt. lia.
  - apply Qle_refl.
  - apply Qle_refl.
  - lra.
Qed.

(** [i + rand()] with [rand()] in [[0, 1)]: the sum is rounded to a
    number between [i] and [i + 1], the latter included. *)
Lemma fadd32_unit (i : Z) (r : Q) :
  (0 <= i)%Z -> (i + 1 <= 2 ^ 24)%Z -> 0 <= r -> r < 1 ->
  inject_Z i <= fadd32 (int_to_float i) r /\
  fadd32 (int_to_float i) r <= inject_Z (i + 1).
Proof.
  intros Hi Hbig Hr0 Hr1.
  pose proof (int_to_float_exact i ltac:(lia)) as E.
  assert (Hi0 : 0 <= inject_Z i).
  { change 0 with (inject_Z 0). rewrite <- Zle_Qle. lia. }
  assert (Hi1 : inject_Z (i + 1) <= inject_Z (2 ^ 24))
    by (rewrite <- Zle_Qle; lia).
  rewrite inject_Z_plus in Hi1. change (inject_Z 1) with 1 in Hi1.
  unfold fadd32. apply round32_between.
  - lra.
  - lra.
  - lra.
  - rewrite inject_Z_plus. change (inject_Z 1) with 1. lra.
Qed.

End Float32Facts.

(** ** The kernel *)

Module KernelFacts.
Import Scalar Kernel.

Lemma ltb_true (x y : Q) : x < y -> ltb x y = true.
Proof.
  intros H. unfold ltb. destruct (Qlt_le_dec x y) as [_ | Hle]; [reflexivity | lra].
Qed.

Lemma ltb_false (x y : Q) : y <= x -> ltb x y = false.
Proof.
  intros H. unfold ltb. destruct (Qlt_le_dec x y) as [Hlt | _]; [lra | reflexivity].
Qed.

Lemma ltb_spec (x y : Q) : ltb x y = true <-> x < y.
Proof.
  unfold ltb. destruct (Qlt_le_dec x y); split; intros; try easy; lra.
Qed.

(** [w] on the inner piece of the spline. *)
Lemma w_inner (x a : Q) :
  Qabs x == a -> a < 1 ->
  w x == (1 # 2) * a * a * a - a * a + 2 / 3.
Proof.
  intros Ha Hlt. unfold w, fabs.
  rewrite ltb_true by (rewrite Ha; exact Hlt).
  rewrite Ha. reflexivity.
Qed.

(** [w] on the outer piece of the spline. *)
Lemma w_outer (x a : Q) :
  Qabs x == a -> 1 <= a ->
  w x == - (1) / 6 * a * a * a + a * a - 2 * a + 4 / 3.
Proof.
  intros Ha Hge. unfold w, fabs.
  rewrite ltb_false by (rewrite Ha; exact Hge).
  rewrite Ha. reflexivity.
Qed.

Lemma abs_of_neg (x a : Q) : x <= 0 -> a == - x -> Qabs x == a.
Proof. intros Hx Ha. rewrite Ha. apply Qabs_neg. exact Hx. Qed.

Lemma abs_of_pos (x a : Q) : 0 <= x -> a == x -> Qabs x == a.
Proof. intros Hx Ha. rewrite Ha. apply Qabs_pos. exact Hx. Qed.

(** The four weights of the nodes around a point at offset [f] from the
    node below it sum to one. *)
Lemma four_weights (f : Q) :
  0 <= f -> f < 1 ->
  w (- (1) - f) + w (0 - f) + w (1 - f) + w (2 - f) == 1.
Proof.
  intros H0 H1.
  rewrite (w_outer (- (1) - f) (1 + f)) by (try apply abs_of_neg; lra).
  rewrite (w_inner (0 - f) f) by (try apply abs_of_neg; lra).
  rewrite (w_outer (2 - f) (2 - f)) by (try apply abs_of_pos; lra).
  destruct (Qlt_le_dec 0 f) as [Hpos | Hzero].
  - rewrite (w_inner (1 - f) (1 - f)) by (try apply abs_of_pos; lra).
    field.
  - assert (Hf : f == 0) by lra.
    rewrite (w_outer (1 - f) (1 - f)) by (try apply abs_of_pos; lra).
    rewrite Hf. reflexivity.
Qed.

(** The weight is not negative where the assertion of [w] holds. *)
Lemma w_nonneg (x : Q) : Qabs x <= 2 -> 0 <= w x.
Proof.
  intros H2. pose proof (Qabs_nonneg x) as H0.
  destruct (Qlt_le_dec (Qabs x) 1) as [Hlt | Hge].
  - rewrite (w_inner x (Qabs x)) by (reflexivity || exact Hlt).
    set (a := Qabs x) in *.
    assert (E : (1 # 2) * a * a * a - a * a + 2 / 3
                == (1 # 6) + (1 # 2) * ((1 - a) * (1 + a * (1 - a)))) by field.
    rewrite E.
    assert (0 <= a * (1 - a)) by (apply Qmult_le_0_compat; lra).
    assert (0 <= (1 - a) * (1 + a * (1 - a))) by (apply Qmult_le_0_compat; lra).
    lra.
  - rewrite (w_outer x (Qabs x)) by (reflexivity || exact Hge).
    set (a := Qabs x) in *.
    assert (E : - (1) / 6 * a * a * a + a * a - 2 * a + 4 / 3
                == (1 # 6) * ((2 - a) * ((2 - a) * (2 - a)))) by field.
    rewrite E.
    assert (0 <= (2 - a) * (2 - a)) by (apply Qmult_le_0_compat; lra).
    assert (0 <= (2 - a) * ((2 - a) * (2 - a))) by (apply Qmult_le_0_compat; lra).
    lra.
Qed.

(** The values of the spline at its centre and at the ends of its
    support. *)
Lemma w_values : w 0 == 2 # 3 /\ w 1 == 1 # 6 /\ w 2 == 0 /\ w (- (2)) == 0.
Proof. repeat split. Qed.

Lemma w_assert_true (x : Q) : Qabs x <= 2 -> w_assert x = true.
Proof.
  intros H. unfold w_assert, fabs. rewrite ltb_false by exact H. reflexivity.
Qed.

Lemma w_assert_false (x : Q) : 2 < Qabs x -> w_assert x = false.
Proof.
  intros H. unfold w_assert, fabs. rewrite ltb_true by exact H. reflexivity.
Qed.

Lemma abs_le_2 (x : Q) : - (2) <= x -> x <= 2 -> Qabs x <= 2.
Proof. intros Hl Hu. apply Qabs_Qle_condition. split; lra. Qed.

End KernelFacts.

(** ** Tick alignment *)

Module ClockFacts.
Import Scalar Config Substep.
Local Open Scope Z_scope.

Lemma wrap64_small (z : Z) : - 2 ^ 63 <= z < 2 ^ 63 -> wrap64 z = z.
Proof.
  intros H. unfold wrap64.
  change (2 ^ 64) with (2 ^ 63 + 2 ^ 63).
  rewrite Z.mod_small; lia.
Qed.

(** Rounding a tick up to the next multiple of [P], strictly above it. *)
Lemma next_multiple (t P : Z) :
  0 < P -> (t + (P - t mod P)) mod P = 0.
Proof.
  intros HP.
  replace (t + (P - t mod P)) with ((t / P + 1) * P).
  - apply Z.mod_mul. lia.
  - pose proof (Z.div_mod t P ltac:(lia)). lia.
Qed.

End ClockFacts.

(** ** Arrays and boundary conditions *)

Module BoundaryFacts.
Import Scalar Linear Grid Boundary KernelFacts.

Lemma index_eqb_eq (a b : Index) : index_eqb a b = true <-> a = b.
Proof.
  destruct a as [[ai aj] ak], b as [[bi bj] bk]. unfold index_eqb.
  rewrite !andb_true_iff, !Z.eqb_eq. split.
  - intros [[-> ->] ->]. reflexivity.
  - intros H. inversion H. auto.
Qed.

Lemma index_eqb_refl (a : Index) : index_eqb a a = true.
Proof. apply index_eqb_eq. reflexivity. Qed.

Lemma index_eqb_neq (a b : Index) : a <> b -> index_eqb a b = false.
Proof.
  intros H. destruct (index_eqb a b) eqn:E; [| reflexivity].
  apply index_eqb_eq in E. contradiction.
Qed.

Lemma upd_same {A : Type} (a : Array3D A) (ind : Index) (x : A) :
  upd a ind x ind = x.
Proof. unfold upd. rewrite index_eqb_refl. reflexivity. Qed.

Lemma upd_other {A : Type} (a : Array3D A) (ind j : Index) (x : A) :
  j <> ind -> upd a ind x j = a j.
Proof. intros H. unfold upd. rewrite index_eqb_neq by exact H. reflexivity. Qed.

Lemma index_eq_dec (a b : Index) : {a = b} + {a <> b}.
Proof. repeat decide equality. Qed.

Section Sticky.
Variable length : Vector3 -> Q.
Variable normalize : Vector3 -> Vector3.
Variable levelset : DynamicLevelSet3D.
Variable t : Q.
Variable ind : Index.

Hypothesis phi_pos : 0 < sample levelset (sample_pos ind) t.
Hypothesis phi_le_1 : sample levelset (sample_pos ind) t <= 1.
Hypothesis sticky : friction levelset < 0.

(** One visit of the sticky node leaves the velocity of the boundary. *)
Lemma boundary_node_sticky (gv : Array3D Vector3) :
  boundary_node length normalize levelset t gv ind ind
  =v= boundary_velocity_at levelset t ind.
Proof.
  unfold boundary_node, boundary_velocity_at.
  rewrite (ltb_false 1) by exact phi_le_1.
  rewrite (ltb_false _ (- (3))) by lra.
  cbn [orb].
  rewrite (ltb_true 0) by exact phi_pos.
  rewrite (ltb_true _ 0) by exact sticky.
  rewrite upd_same.
  unfold veq, vadd, vconst, vscale; cbn. repeat split; ring.
Qed.

(** A visit of any node keeps that velocity at the sticky node. *)
Lemma boundary_node_keeps (gv : Array3D Vector3) (j : Index) :
  gv ind =v= boundary_velocity_at levelset t ind ->
  boundary_node length normalize levelset t gv j ind
  =v= boundary_velocity_at levelset t ind.
Proof.
  intros H. destruct (index_eq_dec j ind) as [-> | Hne].
  - apply boundary_node_sticky.
  - unfold boundary_node.
    destruct (ltb 1 _ || ltb _ (- (3))); [exact H |].
    rewrite upd_other by congruence. exact H.
Qed.

Lemma boundary_loop_sticky (points : list Index) (gv : Array3D Vector3) :
  In ind points \/ gv ind =v= boundary_velocity_at levelset t ind ->
  grid_apply_boundary_conditions length normalize levelset t points gv ind
  =v= boundary_velocity_at levelset t ind.
Proof.
  unfold grid_apply_boundary_conditions.
  revert gv. induction points as [| j rest IH]; intros gv H; cbn.
  - destruct H as [[] | H]. exact H.
  - apply IH. destruct H as [[-> | Hin] | H].
    + right. apply boundary_node_sticky.
    + left. exact Hin.
    + right. apply boundary_node_keeps. exact H.
Qed.

End Sticky.

End BoundaryFacts.

(** ** Vectors up to [==] *)

Module LinearFacts.
Import Linear.

#[export] Instance veq_Equivalence : Equivalence veq.
Proof.
  split.
  - intros a. unfold veq. split; [| split]; apply Qeq_refl.
  - intros a b (Hx & Hy & Hz). unfold veq.
    split; [| split]; apply Qeq_sym; assumption.
  - intros a b c (Hx & Hy & Hz) (Hx' & Hy' & Hz'). unfold veq.
    split; [| split]; eapply Qeq_trans; eassumption.
Qed.

#[export] Instance meq_Equivalence : Equivalence meq.
Proof.
  split.
  - intros a. unfold meq. split; [| split]; reflexivity.
  - intros a b (H0 & H1 & H2). unfold meq.
    split; [| split]; apply veq_Equivalence; assumption.
  - intros a b c (H0 & H1 & H2) (H0' & H1' & H2'). unfold meq.
    split; [| split]; etransitivity; eassumption.
Qed.

#[export] Instance vadd_Proper : Proper (veq ==> veq ==> veq) vadd.
Proof.
  intros a a' (Hx & Hy & Hz) b b' (Hx' & Hy' & Hz'). unfold veq, vadd; cbn.
  rewrite Hx, Hy, Hz, Hx', Hy', Hz'. repeat split; reflexivity.
Qed.

#[export] Instance vsub_Proper : Proper (veq ==> veq ==> veq) vsub.
Proof.
  intros a a' (Hx & Hy & Hz) b b' (Hx' & Hy' & Hz'). unfold veq, vsub; cbn.
  rewrite Hx, Hy, Hz, Hx', Hy', Hz'. repeat split; reflexivity.
Qed.

#[export] Instance vscale_Proper : Proper (Qeq ==> veq ==> veq) vscale.
Proof.
  intros s s' Hs a a' (Hx & Hy & Hz). unfold veq, vscale; cbn.
  rewrite Hs, Hx, Hy, Hz. repeat split; reflexivity.
Qed.

(** Componentwise equations of polynomials in the components. *)
Ltac vec_ring :=
  unfold veq, meq, vadd, vsub, vneg, vscale, vscale_r, vconst, mdiag,
    mscale, mscale_r, madd;
  cbn [vx vy vz col0 col1 col2];
  repeat split; ring.

Lemma vadd_zero_l (a : Vector3) : vadd (vconst 0) a =v= a.
Proof. vec_ring. Qed.

Lemma vadd_assoc (a b c : Vector3) : vadd (vadd a b) c =v= vadd a (vadd b c).
Proof. vec_ring. Qed.

Lemma zero_matrix_scaled (s : Q) : mscale_r (mdiag 0) s =m= mdiag 0.
Proof. vec_ring. Qed.

End LinearFacts.

(** ** Resample *)

Module ResampleFacts.
Import Scalar Linear LinearFacts Kernel3 Particles Grid Config Resample.

(** The three sums the loop of [resample] builds for the velocity. *)
Lemma gather_loop_velocity (g : Grids) (p : MPM3Particle)
    (inds : list Index) (acc : Gather) :
  let acc' := fold_left (gather_step g p) inds acc in
  g_v acc' =v= vadd (g_v acc) (weighted_sum (grid_velocity g) (pos p) inds) /\
  g_bv acc'
  =v= vadd (g_bv acc) (weighted_sum (grid_velocity_backup g) (pos p) inds) /\
  g_count acc' = (g_count acc + Z.of_nat (length inds))%Z.
Proof.
  revert acc. induction inds as [| ind rest IH]; intros acc; cbn zeta.
  - cbn [fold_left weighted_sum length].
    split; [vec_ring | split; [vec_ring | cbn; lia]].
  - cbn [fold_left]. destruct (IH (gather_step g p acc ind)) as (Hv & Hbv & Hc).
    split; [| split].
    + rewrite Hv. cbn [gather_step g_v weighted_sum]. apply vadd_assoc.
    + rewrite Hbv. cbn [gather_step g_bv weighted_sum]. apply vadd_assoc.
    + rewrite Hc. cbn [gather_step g_count length]. lia.
Qed.

Lemma gather_velocity (cfg : Config) (g : Grids) (p : MPM3Particle) :
  let region := get_bounded_rasterization_region (res cfg) (pos p) in
  g_v (gather cfg g p) =v= weighted_sum (grid_velocity g) (pos p) region /\
  g_bv (gather cfg g p)
  =v= weighted_sum (grid_velocity_backup g) (pos p) region /\
  g_count (gather cfg g p) = Z.of_nat (length region).
Proof.
  intros region. unfold gather. fold region.
  destruct (gather_loop_velocity g p region gather_init) as (Hv & Hbv & Hc).
  split; [| split].
  - rewrite Hv. apply vadd_zero_l.
  - rewrite Hbv. apply vadd_zero_l.
  - rewrite Hc. reflexivity.
Qed.

Lemma resample_particle_updating (cfg : Config) (t : Z) (g : Grids)
    (p : MPM3Particle) :
  state p = UPDATING ->
  v (resample_particle cfg t g p)
  = blend (alpha_delta_t cfg) (g_v (gather cfg g p)) (g_bv (gather cfg g p))
          (v p) /\
  apic_b (resample_particle cfg t g p)
  = mscale_r
      (select_affine (g_count (gather cfg g p)) (apic cfg)
                     (g_b (gather cfg g p)))
      (Scalar.fmax 0
         (1 - base_delta_t cfg
              * Scalar.of_int (Scalar.wrap64 (t - last_update p))
              * affine_damping cfg)).
Proof.
  intros Hs. unfold resample_particle. rewrite Hs. cbn. split; reflexivity.
Qed.

Lemma resample_particle_idle (cfg : Config) (t : Z) (g : Grids)
    (p : MPM3Particle) :
  state p <> UPDATING -> resample_particle cfg t g p = p.
Proof.
  intros Hs. unfold resample_particle.
  destruct (state p); try reflexivity. contradiction.
Qed.

Lemma resample_particle_state (cfg : Config) (t : Z) (g : Grids)
    (p : MPM3Particle) :
  state (resample_particle cfg t g p) = state p.
Proof.
  unfold resample_particle.
  destruct (negb (state_eqb (state p) UPDATING)); reflexivity.
Qed.

End ResampleFacts.

(** ** The particle store *)

Module StoreFacts.
Import Particles.

Lemma store_set_same (st : Store) (n : nat) (p q : MPM3Particle) :
  nth_error st n = Some q -> nth_error (store_set st n p) n = Some p.
Proof.
  revert n. induction st as [| a rest IH]; intros [| n] H; cbn in *;
    try discriminate; auto.
Qed.

Lemma store_set_other (st : Store) (n m : nat) (p : MPM3Particle) :
  n <> m -> nth_error (store_set st m p) n = nth_error st n.
Proof.
  revert n m. induction st as [| a rest IH]; intros [| n] [| m] H; cbn;
    try reflexivity; try congruence.
  apply IH. congruence.
Qed.

Section Loop.
Variable f : MPM3Particle -> MPM3Particle.

Lemma visit_same (st : Store) (n : nat) (p : MPM3Particle) :
  nth_error st n = Some p -> nth_error (visit f st n) n = Some (f p).
Proof.
  intros H. unfold visit. rewrite H. eapply store_set_same. exact H.
Qed.

Lemma visit_other (st : Store) (n m : nat) :
  n <> m -> nth_error (visit f st m) n = nth_error st n.
Proof.
  intros H. unfold visit. destruct (nth_error st m); [| reflexivity].
  apply store_set_other. exact H.
Qed.

(** A particle that [f] leaves alone is left alone by the loop. *)
Lemma for_each_active_fixed (active : list nat) (st : Store) (n : nat)
    (p : MPM3Particle) :
  f p = p -> nth_error st n = Some p ->
  nth_error (for_each_active f active st) n = Some p.
Proof.
  intros Hf. unfold for_each_active.
  revert st. induction active as [| m rest IH]; intros st H; cbn [fold_left].
  - exact H.
  - apply IH. destruct (Nat.eq_dec n m) as [<- | Hne].
    + rewrite (visit_same st n p H). rewrite Hf. reflexivity.
    + rewrite visit_other by exact Hne. exact H.
Qed.

(** A property that [f] establishes on the particles of a class it maps
    to itself holds, after the loop, for the active particles of the
    class. *)
Lemma for_each_active_establishes (C Q : MPM3Particle -> Prop) :
  (forall p, C p -> C (f p) /\ Q (f p)) ->
  forall (active : list nat) (st : Store) (n : nat) (p : MPM3Particle),
    nth_error st n = Some p -> C p -> In n active \/ Q p ->
    exists p', nth_error (for_each_active f active st) n = Some p' /\
               C p' /\ Q p'.
Proof.
  intros Hf. unfold for_each_active.
  induction active as [| m rest IH]; intros st n p H HC HQ; cbn [fold_left].
  - destruct HQ as [[] | HQ]. exists p. auto.
  - destruct (Nat.eq_dec n m) as [<- | Hne].
    + apply (IH (visit f st n) n (f p)).
      * apply visit_same. exact H.
      * apply Hf. exact HC.
      * right. apply Hf. exact HC.
    + apply (IH (visit f st m) n p).
      * rewrite visit_other by exact Hne. exact H.
      * exact HC.
      * destruct HQ as [[-> | Hin] | HQ]; [contradiction | left | right]; auto.
Qed.

Lemma in_store_set (st : Store) (n : nat) (p q : MPM3Particle) :
  In q (store_set st n p) -> q = p \/ In q st.
Proof.
  revert n. induction st as [| a rest IH]; intros [| n] H; cbn in *; auto.
  - destruct H as [<- | H]; auto.
  - destruct H as [<- | H]; auto. destruct (IH n H); auto.
Qed.

(** A property of all particles that [f] keeps is kept by the loop. *)
Lemma for_each_active_forall (P : MPM3Particle -> Prop) :
  (forall p, P p -> P (f p)) ->
  forall (active : list nat) (st : Store),
    (forall p, In p st -> P p) ->
    forall p, In p (for_each_active f active st) -> P p.
Proof.
  intros Hf. unfold for_each_active.
  induction active as [| m rest IH]; intros st H; cbn [fold_left].
  - exact H.
  - apply IH. intros q Hq. unfold visit in Hq.
    destruct (nth_error st m) as [a |] eqn:E; [| apply H; exact Hq].
    apply in_store_set in Hq. destruct Hq as [-> | Hq].
    + apply Hf, H. eapply nth_error_In. exact E.
    + apply H. exact Hq.
Qed.

End Loop.

End StoreFacts.

(** ** Position integration *)

Module SubstepFacts.
Import Scalar Linear Particles Grid Config Substep.

Lemma integrate_particle_idle (eps : Q)
    (plasticity : MPM3Particle -> MPM3Particle) (cfg : Config) (c : Clock)
    (p : MPM3Particle) :
  state p <> UPDATING -> integrate_particle eps plasticity cfg c p = p.
Proof.
  intros Hs. unfold integrate_particle.
  destruct (state p); try reflexivity. contradiction.
Qed.

End SubstepFacts.

(** ** Sums over lists *)

Module SumFacts.
Import Scalar.

Lemma sumQ_nil {A : Type} (f : A -> Q) : sumQ f [] = 0.
Proof. reflexivity. Qed.

Lemma sumQ_cons {A : Type} (f : A -> Q) (a : A) (l : list A) :
  sumQ f (a :: l) = f a + sumQ f l.
Proof. reflexivity. Qed.

Lemma sumQ_app {A : Type} (f : A -> Q) (l1 l2 : list A) :
  sumQ f (l1 ++ l2) == sumQ f l1 + sumQ f l2.
Proof.
  induction l1 as [| a l1 IH]; cbn [app].
  - rewrite sumQ_nil. ring.
  - rewrite !sumQ_cons, IH. ring.
Qed.

Lemma sumQ_ext {A : Type} (f h : A -> Q) (l : list A) :
  (forall a, In a l -> f a == h a) -> sumQ f l == sumQ h l.
Proof.
  induction l as [| a l IH]; intros H.
  - reflexivity.
  - rewrite !sumQ_cons.
    rewrite IH by (intros b Hb; apply H; right; exact Hb).
    rewrite (H a) by (left; reflexivity). reflexivity.
Qed.

Lemma sumQ_map {A B : Type} (f : B -> Q) (m : A -> B) (l : list A) :
  sumQ f (map m l) = sumQ (fun a => f (m a)) l.
Proof.
  induction l as [| a l IH]; cbn [map]; [reflexivity |].
  rewrite !sumQ_cons, IH. reflexivity.
Qed.

Lemma sumQ_flat_map {A B : Type} (f : B -> Q) (h : A -> list B)
    (l : list A) :
  sumQ f (flat_map h l) == sumQ (fun a => sumQ f (h a)) l.
Proof.
  induction l as [| a l IH]; cbn [flat_map].
  - reflexivity.
  - rewrite sumQ_app, sumQ_cons, IH. reflexivity.
Qed.

Lemma sumQ_scale_l {A : Type} (s : Q) (f : A -> Q) (l : list A) :
  sumQ (fun a => s * f a) l == s * sumQ f l.
Proof.
  induction l as [| a l IH].
  - rewrite !sumQ_nil. ring.
  - rewrite !sumQ_cons, IH. ring.
Qed.

Lemma sumQ_scale_r {A : Type} (s : Q) (f : A -> Q) (l : list A) :
  sumQ (fun a => f a * s) l == sumQ f l * s.
Proof.
  induction l as [| a l IH].
  - rewrite !sumQ_nil. ring.
  - rewrite !sumQ_cons, IH. ring.
Qed.

Lemma sumQ_nonneg {A : Type} (f : A -> Q) (l : list A) :
  (forall a, In a l -> 0 <= f a) -> 0 <= sumQ f l.
Proof.
  induction l as [| a l IH]; intros H.
  - rewrite sumQ_nil. lra.
  - rewrite sumQ_cons.
    assert (0 <= f a) by (apply H; left; reflexivity).
    assert (0 <= sumQ f l) by (apply IH; intros b Hb; apply H; right; exact Hb).
    lra.
Qed.

End SumFacts.

(** ** The lattice of nodes *)

Module GridFacts.
Import Scalar Linear Grid SumFacts BoundaryFacts.

Lemma NoDup_map_injective {A B : Type} (f : A -> B) (l : list A) :
  (forall a b, f a = f b -> a = b) -> NoDup l -> NoDup (map f l).
Proof.
  intros Hinj Hnd. induction Hnd as [| a l Ha Hnd IH]; cbn; constructor.
  - intros Hin. apply in_map_iff in Hin. destruct Hin as (b & E & Hb).
    apply Hinj in E. subst. contradiction.
  - exact IH.
Qed.

Lemma in_zrange (lo : Z) (n : nat) (i : Z) :
  In i (zrange lo n) <-> (lo <= i < lo + Z.of_nat n)%Z.
Proof.
  unfold zrange. rewrite in_map_iff. split.
  - intros (k & <- & Hk). apply in_seq in Hk. lia.
  - intros H. exists (Z.to_nat (i - lo)). split; [lia |].
    apply in_seq. lia.
Qed.

Lemma NoDup_zrange (lo : Z) (n : nat) : NoDup (zrange lo n).
Proof.
  unfold zrange. apply NoDup_map_injective.
  - intros a b H. lia.
  - apply seq_NoDup.
Qed.

Lemma in_box (xs ys zs : list Z) (i j k : Z) :
  In (i, j, k) (box xs ys zs) <-> In i xs /\ In j ys /\ In k zs.
Proof.
  unfold box. rewrite in_flat_map. split.
  - intros (i' & Hi & H). apply in_flat_map in H. destruct H as (j' & Hj & H).
    apply in_map_iff in H. destruct H as (k' & E & Hk).
    inversion E; subst. auto.
  - intros (Hi & Hj & Hk). exists i. split; [exact Hi |].
    apply in_flat_map. exists j. split; [exact Hj |].
    apply in_map_iff. exists k. auto.
Qed.

Lemma NoDup_box (xs ys zs : list Z) :
  NoDup xs -> NoDup ys -> NoDup zs -> NoDup (box xs ys zs).
Proof.
  intros Hx Hy Hz. unfold box.
  induction Hx as [| i xs Hi Hx IHx]; cbn [flat_map]; [constructor |].
  apply NoDup_app.
  - clear Hi IHx. induction Hy as [| j ys Hj Hy IHy]; cbn [flat_map];
      [constructor |].
    apply NoDup_app.
    + apply NoDup_map_injective; [| exact Hz].
      intros a b E. inversion E. reflexivity.
    + exact IHy.
    + intros [[a b] c] Ha Hb.
      apply in_map_iff in Ha. destruct Ha as (k & E & _). inversion E; subst.
      apply in_flat_map in Hb. destruct Hb as (j' & Hj' & Hb).
      apply in_map_iff in Hb. destruct Hb as (k' & E' & _).
      inversion E'; subst. contradiction.
  - exact IHx.
  - intros [[a b] c] Ha Hb.
    apply in_flat_map in Ha. destruct Ha as (j & _ & Ha).
    apply in_map_iff in Ha. destruct Ha as (k & E & _). inversion E; subst.
    fold (box xs ys zs) in Hb. apply in_box in Hb. tauto.
Qed.

Lemma in_get_region (res : Index) (i j k : Z) :
  In (i, j, k) (get_region res) <->
  let '(rx, ry, rz) := res in
  (0 <= i <= rx /\ 0 <= j <= ry /\ 0 <= k <= rz)%Z.
Proof.
  destruct res as [[rx ry] rz]. unfold get_region.
  rewrite in_box, !in_zrange. lia.
Qed.

Lemma NoDup_get_region (res : Index) : NoDup (get_region res).
Proof.
  destruct res as [[rx ry] rz]. unfold get_region.
  apply NoDup_box; apply NoDup_zrange.
Qed.

(** Writing one node of an array changes its sum by the difference. *)
Lemma sum_over_upd_notin (a : Array3D Q) (ind : Index) (x : Q)
    (inds : list Index) :
  ~ In ind inds -> sum_over (upd a ind x) inds == sum_over a inds.
Proof.
  intros H. unfold sum_over. apply sumQ_ext. intros j Hj.
  rewrite upd_other; [reflexivity |]. intros ->. contradiction.
Qed.

Lemma sum_over_upd_in (a : Array3D Q) (ind : Index) (x : Q)
    (inds : list Index) :
  NoDup inds -> In ind inds ->
  sum_over (upd a ind x) inds == sum_over a inds + (x - a ind).
Proof.
  intros Hnd. induction Hnd as [| j inds Hj Hnd IH]; intros Hin.
  - destruct Hin.
  - unfold sum_over in *. rewrite !sumQ_cons.
    destruct (index_eq_dec j ind) as [-> | Hne].
    + rewrite upd_same.
      pose proof (sum_over_upd_notin a ind x inds Hj) as E.
      unfold sum_over in E. rewrite E. ring.
    + rewrite upd_other by exact Hne.
      rewrite IH by (destruct Hin; [contradiction | assumption]). ring.
Qed.

(** The sum of a product of per-axis factors over a box. *)
Lemma sumQ_box (F : Index -> Q) (fx fy fz : Z -> Q) (xs ys zs : list Z) :
  (forall i j k, F (i, j, k) == fx i * fy j * fz k) ->
  sumQ F (box xs ys zs) == sumQ fx xs * sumQ fy ys * sumQ fz zs.
Proof.
  intros HF. unfold box. rewrite sumQ_flat_map.
  rewrite (sumQ_ext _ (fun i => fx i * (sumQ fy ys * sumQ fz zs))).
  - rewrite sumQ_scale_r. ring.
  - intros i _. rewrite sumQ_flat_map.
    rewrite (sumQ_ext _ (fun j => fx i * fy j * sumQ fz zs)).
    + rewrite sumQ_scale_r.
      rewrite (sumQ_scale_l (fx i) fy ys). ring.
    + intros j _. rewrite sumQ_map.
      rewrite (sumQ_ext _ (fun k => fx i * fy j * fz k)) by (intros; apply HF).
      apply (sumQ_scale_l (fx i * fy j) fz zs).
Qed.

End GridFacts.

(** ** Rasterize *)

Module RasterizeFacts.
Import Scalar Linear Kernel Kernel3 Particles Grid Rasterize.
Import KernelFacts SumFacts BoundaryFacts GridFacts.

(** The integer part of a non-negative real is its floor. *)
Lemma to_int_floor (c : Q) :
  0 <= c -> of_int (to_int c) <= c /\ c < of_int (to_int c) + 1.
Proof.
  intros Hc. destruct c as [n d]. unfold to_int, of_int. cbn [Qnum Qden].
  assert (Hn : (0 <= n)%Z).
  { unfold Qle in Hc. cbn in Hc. lia. }
  rewrite Z.quot_div_nonneg by lia.
  change (n / Z.pos d)%Z with (Qfloor (n # d)). split.
  - apply Qfloor_le.
  - pose proof (Qlt_floor (n # d)) as H. rewrite inject_Z_plus in H. exact H.
Qed.

Lemma to_int_positive (c : Q) : (1 <= to_int c)%Z -> 0 <= c.
Proof.
  intros H. destruct c as [n d]. unfold to_int in H. cbn [Qnum Qden] in H.
  unfold Qle. cbn. destruct (Z.neg_nonneg_cases n) as [Hneg | Hpos].
  - exfalso. assert (Z.quot n (Z.pos d) <= 0)%Z; [| lia].
    apply Z.quot_le_upper_bound; lia.
  - lia.
Qed.

Lemma of_int_add (a b : Z) : of_int (a + b) == of_int a + of_int b.
Proof. unfold of_int. rewrite inject_Z_plus. reflexivity. Qed.

(** [w] respects the equality of reals. *)
Lemma w_ext (x y : Q) : x == y -> w x == w y.
Proof.
  intros E. assert (Ea : Qabs y == Qabs x) by (rewrite E; reflexivity).
  destruct (Qlt_le_dec (Qabs x) 1) as [Hlt | Hge].
  - rewrite (w_inner x (Qabs x)), (w_inner y (Qabs x));
      (reflexivity || assumption).
  - rewrite (w_outer x (Qabs x)), (w_outer y (Qabs x));
      (reflexivity || assumption).
Qed.

Lemma axis_nodes_inside (r : Z) (c : Q) :
  axis_inside r c = true ->
  axis_nodes r c
  = [(to_int c - 1)%Z; to_int c; (to_int c + 1)%Z; (to_int c + 2)%Z].
Proof.
  unfold axis_inside, axis_nodes. intros H.
  apply andb_true_iff in H. destruct H as [H1 H2].
  apply Z.leb_le in H1, H2. cbn [filter].
  repeat match goal with
         | |- context [(?a <=? ?b)%Z] =>
             replace (a <=? b)%Z with true by (symmetry; apply Z.leb_le; lia)
         end.
  reflexivity.
Qed.

Lemma in_axis_nodes (r : Z) (c : Q) (i : Z) :
  In i (axis_nodes r c) ->
  (0 <= i <= r)%Z /\ (to_int c - 1 <= i <= to_int c + 2)%Z.
Proof.
  unfold axis_nodes. intros H. apply filter_In in H. destruct H as [Hin Hb].
  apply andb_true_iff in Hb. destruct Hb as [H1 H2].
  apply Z.leb_le in H1, H2. cbn in Hin. lia.
Qed.

(** Along one axis, the weights of a full neighborhood sum to one. *)
Lemma axis_weights (r : Z) (c : Q) :
  axis_inside r c = true ->
  sumQ (fun i => w (of_int i - c)) (axis_nodes r c) == 1.
Proof.
  intros H. rewrite (axis_nodes_inside r c H).
  apply andb_true_iff in H. destruct H as [H1 _]. apply Z.leb_le in H1.
  destruct (to_int_floor c (to_int_positive c H1)) as [Hlo Hhi].
  set (x := to_int c) in *. set (f := c - of_int x).
  rewrite !sumQ_cons, sumQ_nil.
  rewrite (w_ext (of_int (x - 1) - c) (- (1) - f)).
  2:{ replace (x - 1)%Z with (x + -1)%Z by lia. rewrite of_int_add.
      unfold f. change (of_int (-1)) with (- (1)). ring. }
  rewrite (w_ext (of_int x - c) (0 - f)) by (unfold f; ring).
  rewrite (w_ext (of_int (x + 1) - c) (1 - f)).
  2:{ rewrite of_int_add. unfold f. change (of_int 1) with 1. ring. }
  rewrite (w_ext (of_int (x + 2) - c) (2 - f)).
  2:{ rewrite of_int_add. unfold f. change (of_int 2) with 2. ring. }
  transitivity (w (- (1) - f) + w (0 - f) + w (1 - f) + w (2 - f));
    [ring | apply four_weights; unfold f; lra].
Qed.

(** The weights of a full 4x4x4 neighborhood sum to one. *)
Lemma region_weights (res : Index) (x : Vector3) :
  neighborhood_inside res x = true ->
  sumQ (fun ind => w3 (vsub (node_pos ind) x))
       (get_bounded_rasterization_region res x) == 1.
Proof.
  destruct res as [[rx ry] rz]. unfold neighborhood_inside. intros H.
  apply andb_true_iff in H. destruct H as [H Hz].
  apply andb_true_iff in H. destruct H as [Hx Hy].
  unfold get_bounded_rasterization_region.
  rewrite (sumQ_box _ (fun i => w (of_int i - vx x))
                      (fun j => w (of_int j - vy x))
                      (fun k => w (of_int k - vz x))).
  - rewrite !axis_weights by assumption. ring.
  - intros i j k. reflexivity.
Qed.

(** The nodes of a particle's region are nodes of the lattice. *)
Lemma region_in_lattice (res : Index) (x : Vector3) (ind : Index) :
  In ind (get_bounded_rasterization_region res x) -> In ind (get_region res).
Proof.
  destruct res as [[rx ry] rz], ind as [[i j] k].
  unfold get_bounded_rasterization_region. rewrite in_box.
  intros (Hi & Hj & Hk).
  apply in_axis_nodes in Hi, Hj, Hk.
  apply (in_get_region (rx, ry, rz)). lia.
Qed.

(** The mass a particle adds to the lattice. *)
Lemma scatter_loop_mass (p : MPM3Particle) (lattice : list Index)
    (inds : list Index) (g : Grids) :
  NoDup lattice ->
  (forall ind, In ind inds -> In ind lattice) ->
  sum_over (grid_mass (fold_left (scatter p) inds g)) lattice
  == sum_over (grid_mass g) lattice
     + sumQ (fun ind => w3 (vsub (node_pos ind) (pos p))) inds * mass p.
Proof.
  intros Hnd. revert g. induction inds as [| ind rest IH]; intros g Hsub.
  - cbn [fold_left]. rewrite sumQ_nil. ring.
  - cbn [fold_left]. rewrite IH by (intros j Hj; apply Hsub; right; exact Hj).
    rewrite sumQ_cons. cbn [scatter grid_mass].
    rewrite sum_over_upd_in
      by (try exact Hnd; apply Hsub; left; reflexivity).
    ring.
Qed.

Lemma scatter_particle_mass (res : Index) (g : Grids) (p : MPM3Particle) :
  neighborhood_inside res (pos p) = true ->
  sum_over (grid_mass (scatter_particle res g p)) (get_region res)
  == sum_over (grid_mass g) (get_region res) + mass p.
Proof.
  intros H. unfold scatter_particle.
  rewrite scatter_loop_mass.
  - rewrite region_weights by exact H. ring.
  - apply NoDup_get_region.
  - intros ind. apply region_in_lattice.
Qed.

Lemma scatter_loop_all_mass (res : Index) (ps : list MPM3Particle)
    (g : Grids) :
  (forall p, In p ps -> neighborhood_inside res (pos p) = true) ->
  sum_over (grid_mass (fold_left (scatter_particle res) ps g))
           (get_region res)
  == sum_over (grid_mass g) (get_region res) + total_mass ps.
Proof.
  revert g. induction ps as [| p rest IH]; intros g H.
  - cbn [fold_left]. unfold total_mass. rewrite sumQ_nil. ring.
  - cbn [fold_left]. rewrite IH by (intros q Hq; apply H; right; exact Hq).
    rewrite scatter_particle_mass by (apply H; left; reflexivity).
    unfold total_mass. rewrite sumQ_cons. ring.
Qed.

Lemma sum_over_reset (g : Grids) (inds : list Index) :
  sum_over (grid_mass (reset g)) inds == 0.
Proof.
  unfold sum_over. induction inds as [| ind rest IH].
  - reflexivity.
  - rewrite sumQ_cons, IH. cbn. ring.
Qed.

(** The count of nodes of a region, and when it is 64. *)
Lemma length_box (xs ys zs : list Z) :
  length (box xs ys zs) = (length xs * length ys * length zs)%nat.
Proof.
  unfold box, Index. induction xs as [| i xs IH]; cbn [flat_map].
  - reflexivity.
  - rewrite length_app, IH.
    assert (E : length (flat_map (fun j => map (fun k => (i, j, k)) zs) ys)
                = (length ys * length zs)%nat).
    { clear IH. induction ys as [| j ys IHy]; cbn [flat_map].
      - reflexivity.
      - rewrite length_app, length_map, IHy. cbn [length]. lia. }
    rewrite E. cbn [length]. lia.
Qed.

Lemma filter_length_le {A : Type} (f : A -> bool) (l : list A) :
  (length (filter f l) <= length l)%nat.
Proof.
  induction l as [| a l IH]; cbn; [lia |]. destruct (f a); cbn; lia.
Qed.

Lemma filter_length_full {A : Type} (f : A -> bool) (l : list A) :
  length (filter f l) = length l <-> forallb f l = true.
Proof.
  induction l as [| a l IH]; cbn; [tauto |].
  pose proof (filter_length_le f l) as Hle.
  destruct (f a); cbn.
  - rewrite <- IH. lia.
  - split; [lia | discriminate].
Qed.

Lemma axis_nodes_count (r : Z) (c : Q) :
  (length (axis_nodes r c) <= 4)%nat /\
  (length (axis_nodes r c) = 4%nat <-> axis_inside r c = true).
Proof.
  unfold axis_nodes. split.
  - apply (filter_length_le _ [_; _; _; _]).
  - rewrite (filter_length_full _ [_; _; _; _]).
    unfold axis_inside. cbn [forallb].
    rewrite !andb_true_iff, !Z.leb_le. lia.
Qed.

Lemma neighborhood_inside_iff_64 (res : Index) (x : Vector3) :
  neighborhood_inside res x = true <->
  length (get_bounded_rasterization_region res x) = 64%nat.
Proof.
  destruct res as [[rx ry] rz].
  unfold neighborhood_inside, get_bounded_rasterization_region.
  rewrite length_box, !andb_true_iff.
  destruct (axis_nodes_count rx (vx x)) as [Hx Ex].
  destruct (axis_nodes_count ry (vy x)) as [Hy Ey].
  destruct (axis_nodes_count rz (vz x)) as [Hz Ez].
  rewrite <- Ex, <- Ey, <- Ez.
  set (a := length (axis_nodes rx (vx x))) in *.
  set (b := length (axis_nodes ry (vy x))) in *.
  set (d := length (axis_nodes rz (vz x))) in *.
  split.
  - intros [[-> ->] ->]. reflexivity.
  - clearbody a b d. intros H.
    destruct a as [| [| [| [| [| a]]]]]; try lia;
      destruct b as [| [| [| [| [| b]]]]]; try lia;
      destruct d as [| [| [| [| [| d]]]]]; try lia;
      cbn in H; try lia; auto.
Qed.

Lemma checked_div_nonzero (a m : Q) :
  ~ m == 0 -> checked_div a m = Some (a / m).
Proof.
  intros H. unfold checked_div. destruct (Qeq_bool m 0) eqn:E.
  - apply Qeq_bool_iff in E. contradiction.
  - reflexivity.
Qed.

(** The second loop of [rasterize] never fails; it rescales the velocity
    of the nodes of positive mass and nothing else. *)
Lemma normalize_total (inds : list Index) :
  NoDup inds ->
  forall g, exists g',
    normalize inds g = Some g' /\
    grid_mass g' = grid_mass g /\
    (forall ind, In ind inds -> 0 < grid_mass g ind ->
       grid_velocity g' ind
       = vscale_r (grid_velocity g ind) (1 / grid_mass g ind)) /\
    (forall ind, ~ 0 < grid_mass g ind ->
       grid_velocity g' ind = grid_velocity g ind) /\
    (forall ind, ~ In ind inds ->
       grid_velocity g' ind = grid_velocity g ind).
Proof.
  intros Hnd. induction Hnd as [| j rest Hj Hnd IH]; intros g.
  - exists g. cbn. repeat split; auto. intros ind [].
  - cbn [normalize]. unfold normalize_node.
    destruct (ltb 0 (grid_mass g j)) eqn:Epos.
    + apply ltb_spec in Epos.
      rewrite checked_div_nonzero by lra.
      set (g1 := mkGrids _ _ _).
      destruct (IH g1) as (g' & Hrun & Hm & Hpos & Hskip & Hout).
      exists g'. split; [exact Hrun |]. split; [exact Hm |].
      split; [| split].
      * intros ind [<- | Hin] Hmass.
        -- rewrite Hout by exact Hj. unfold g1. cbn [grid_velocity].
           apply upd_same.
        -- rewrite (Hpos ind Hin Hmass). unfold g1. cbn [grid_velocity grid_mass].
           rewrite upd_other; [reflexivity |]. intros ->. contradiction.
      * intros ind Hmass. rewrite (Hskip ind Hmass). unfold g1.
        cbn [grid_velocity]. apply upd_other. intros ->. contradiction.
      * intros ind Hnot. rewrite Hout by (intros Hin; apply Hnot; right; exact Hin).
        unfold g1. cbn [grid_velocity]. apply upd_other.
        intros ->. apply Hnot. left. reflexivity.
    + destruct (IH g) as (g' & Hrun & Hm & Hpos & Hskip & Hout).
      exists g'. split; [exact Hrun |]. split; [exact Hm |].
      split; [| split].
      * intros ind [<- | Hin] Hmass.
        -- apply ltb_true in Hmass. congruence.
        -- apply Hpos; assumption.
      * exact Hskip.
      * intros ind Hnot. apply Hout. intros Hin. apply Hnot. right. exact Hin.
Qed.

Lemma of_int_le (a b : Z) : (a <= b)%Z -> of_int a <= of_int b.
Proof. intros H. unfold of_int. rewrite <- Zle_Qle. exact H. Qed.

(** The offsets to the nodes of the region satisfy the assertion of the
    kernel when the coordinate is not negative. *)
Lemma axis_offset_bounded (r : Z) (c : Q) (i : Z) :
  0 <= c -> In i (axis_nodes r c) -> Qabs (of_int i - c) <= 2.
Proof.
  intros Hc Hin. apply in_axis_nodes in Hin. destruct Hin as [_ [Hlo Hhi]].
  destruct (to_int_floor c Hc) as [Hfl Hfu].
  apply of_int_le in Hlo, Hhi.
  replace (to_int c - 1)%Z with (to_int c + -1)%Z in Hlo by lia.
  rewrite of_int_add in Hlo, Hhi.
  change (of_int (-1)) with (- (1)) in Hlo. change (of_int 2) with 2 in Hhi.
  apply abs_le_2; lra.
Qed.

Lemma region_weight_nonneg (res : Index) (x : Vector3) (ind : Index) :
  0 <= vx x -> 0 <= vy x -> 0 <= vz x ->
  In ind (get_bounded_rasterization_region res x) ->
  w3_assert (vsub (node_pos ind) x) = true /\
  0 <= w3 (vsub (node_pos ind) x).
Proof.
  destruct res as [[rx ry] rz], ind as [[i j] k].
  unfold get_bounded_rasterization_region. rewrite in_box.
  intros Hx Hy Hz (Hi & Hj & Hk).
  apply (axis_offset_bounded rx _ _ Hx) in Hi.
  apply (axis_offset_bounded ry _ _ Hy) in Hj.
  apply (axis_offset_bounded rz _ _ Hz) in Hk.
  unfold w3_assert, w3, vsub, node_pos. cbn [vx vy vz]. split.
  - rewrite !w_assert_true by assumption. reflexivity.
  - apply Qmult_le_0_compat; [apply Qmult_le_0_compat |];
      apply w_nonneg; assumption.
Qed.

Lemma reset_at_rest (g : Grids) : massless_at_rest (reset g).
Proof.
  intros ind. cbn. split; [lra |]. intros _. unfold veq. cbn.
  repeat split; reflexivity.
Qed.

Lemma scatter_at_rest (p : MPM3Particle) (g : Grids) (ind : Index) :
  0 <= w3 (vsub (node_pos ind) (pos p)) * mass p ->
  massless_at_rest g -> massless_at_rest (scatter p g ind).
Proof.
  intros Hw Hg j. destruct (Hg j) as [Hm Hv].
  unfold scatter. cbn [grid_mass grid_velocity].
  destruct (index_eq_dec j ind) as [-> | Hne].
  - rewrite !upd_same. split; [lra |]. intros Hz.
    assert (Hm0 : grid_mass g ind == 0) by lra.
    assert (Hw0 : w3 (vsub (node_pos ind) (pos p)) * mass p == 0) by lra.
    destruct (Hv Hm0) as (Hx & Hy & Hzz). cbn [vconst vx vy vz] in Hx, Hy, Hzz.
    unfold veq, vadd, vscale. cbn [vx vy vz vconst].
    rewrite Hx, Hy, Hzz, Hw0. repeat split; ring.
  - rewrite !upd_other by exact Hne. split; assumption.
Qed.

Lemma scatter_particle_at_rest (res : Index) (g : Grids) (p : MPM3Particle) :
  physical p -> massless_at_rest g ->
  massless_at_rest (scatter_particle res g p).
Proof.
  intros (Hm & Hx & Hy & Hz). unfold scatter_particle.
  pose proof (region_weight_nonneg res (pos p)) as Hw.
  revert g Hw.
  induction (get_bounded_rasterization_region res (pos p)) as [| ind rest IH];
    intros g Hw Hg; cbn [fold_left].
  - exact Hg.
  - apply IH.
    + intros j Hx' Hy' Hz' Hin. apply Hw; auto. right. exact Hin.
    + apply scatter_at_rest; [| exact Hg].
      apply Qmult_le_0_compat; [| exact Hm].
      apply Hw; auto. left. reflexivity.
Qed.

Lemma scatter_all_at_rest (res : Index) (ps : list MPM3Particle)
    (g : Grids) :
  (forall p, In p ps -> physical p) ->
  massless_at_rest (scatter_all res ps g).
Proof.
  unfold scatter_all. generalize (reset_at_rest g).
  generalize (reset g). induction ps as [| p rest IH]; intros g0 Hg H;
    cbn [fold_left].
  - exact Hg.
  - apply IH.
    + apply scatter_particle_at_rest; [apply H; left; reflexivity | exact Hg].
    + intros q Hq. apply H. right. exact Hq.
Qed.

Lemma dw_assert_true (x : Q) : Qabs x <= 2 -> dw_assert x = true.
Proof.
  intros H. apply Qabs_Qle_condition in H. destruct H as [Hl Hu].
  unfold dw_assert. destruct (ltb x 0) eqn:E.
  - rewrite ltb_false by lra. reflexivity.
  - rewrite ltb_false by lra. reflexivity.
Qed.

(** The offsets of the loop of [resample], particle minus node, satisfy
    the assertions of [w] and [dw]. *)
Lemma region_asserts (res : Index) (x : Vector3) (ind : Index) :
  0 <= vx x -> 0 <= vy x -> 0 <= vz x ->
  In ind (get_bounded_rasterization_region res x) ->
  w3_assert (vsub x (node_pos ind)) = true /\
  dw3_assert (vsub x (node_pos ind)) = true.
Proof.
  destruct res as [[rx ry] rz], ind as [[i j] k].
  unfold get_bounded_rasterization_region. rewrite in_box.
  intros Hx Hy Hz (Hi & Hj & Hk).
  apply (axis_offset_bounded rx _ _ Hx) in Hi.
  apply (axis_offset_bounded ry _ _ Hy) in Hj.
  apply (axis_offset_bounded rz _ _ Hz) in Hk.
  assert (Ha : forall a b, Qabs (a - b) <= 2 -> Qabs (b - a) <= 2).
  { intros a b H. rewrite <- Qabs_opp.
    assert (E : - (b - a) == a - b) by ring. rewrite E. exact H. }
  apply Ha in Hi, Hj, Hk.
  unfold dw3_assert, w3_assert, vsub, node_pos. cbn [vx vy vz].
  rewrite !w_assert_true, !dw_assert_true by assumption. split; reflexivity.
Qed.

End RasterizeFacts.

(** ** Force projection *)

Module ForceFacts.
Import Scalar Linear Particles Grid Force RasterizeFacts.

(** The force projection never divides by zero and leaves the masses. *)
Lemma project_node_total (delta_t : Q) (p : MPM3Particle) (g : Grids)
    (ind : Index) :
  exists g', project_node delta_t p g ind = Some g' /\
             grid_mass g' = grid_mass g.
Proof.
  unfold project_node. destruct (Qeq_bool (grid_mass g ind) 0) eqn:E.
  - exists g. auto.
  - rewrite checked_div_nonzero.
    + eexists. split; reflexivity.
    + intros H. apply Qeq_bool_iff in H. congruence.
Qed.

Lemma project_nodes_total (delta_t : Q) (p : MPM3Particle)
    (inds : list Index) (g : Grids) :
  exists g', project_nodes delta_t p inds g = Some g' /\
             grid_mass g' = grid_mass g.
Proof.
  revert g. induction inds as [| ind rest IH]; intros g; cbn [project_nodes].
  - exists g. auto.
  - destruct (project_node_total delta_t p g ind) as (g1 & -> & Hm).
    destruct (IH g1) as (g' & Hrun & Hm'). exists g'.
    split; [exact Hrun | congruence].
Qed.

Lemma apply_deformation_force_total
    (calculate_force : MPM3Particle -> MPM3Particle) (res : Index)
    (delta_t : Q) (active : list nat) (st : Store) (g : Grids) :
  exists g',
    snd (apply_deformation_force calculate_force res delta_t active st g)
    = Some g' /\
    grid_mass g' = grid_mass g.
Proof.
  unfold apply_deformation_force. cbn [snd].
  generalize (active_particles active
                (for_each_active calculate_force active st)).
  intros ps. revert g.
  induction ps as [| p rest IH]; intros g; cbn [project_particles].
  - exists g. auto.
  - destruct (project_nodes_total delta_t p
                (get_bounded_rasterization_region res (pos p)) g)
      as (g1 & -> & Hm).
    destruct (IH g1) as (g' & Hrun & Hm'). exists g'.
    split; [exact Hrun | congruence].
Qed.

End ForceFacts.

(** * The properties of the specification *)

Import Scalar Float32 Linear Kernel Kernel3 Particles Grid Rasterize Config.
Import Resample Boundary Substep.
Import KernelFacts ClockFacts BoundaryFacts LinearFacts ResampleFacts.
Import StoreFacts SubstepFacts SumFacts GridFacts RasterizeFacts.

(** C1.  When the full 4x4x4 neighborhood of every active particle lies
    on the grid, [rasterize] succeeds and the mass summed over all grid
    nodes equals the total mass of the particles. *)
Theorem rasterize_conserves_mass (res : Index) (ps : list MPM3Particle)
    (g : Grids) :
  (forall p, In p ps -> neighborhood_inside res (pos p) = true) ->
  exists g',
    rasterize res ps g = Some g' /\
    sum_over (grid_mass g') (get_region res) == total_mass ps.
Proof.
  intros H. unfold rasterize.
  destruct (normalize_total (get_region res) (NoDup_get_region res)
              (scatter_all res ps g)) as (g' & Hrun & Hm & _).
  exists g'. split; [exact Hrun |].
  rewrite Hm. unfold scatter_all.
  rewrite scatter_loop_all_mass by exact H.
  rewrite sum_over_reset. ring.
Qed.

(** Two particles in the interior of an 8x8x8 grid. *)
Lemma rasterize_conserves_mass_witness :
  let ps := [Sample.particle_at Sample.interior UPDATING;
             Sample.particle_at (mkVector 2 3 (11 # 2)) BUFFER] in
  exists g',
    rasterize (8, 8, 8)%Z ps Sample.grids = Some g' /\
    sum_over (grid_mass g') (get_region (8, 8, 8)%Z) == total_mass ps.
Proof.
  intros ps.
  apply (rasterize_conserves_mass (8, 8, 8)%Z ps Sample.grids).
  intros p [<- | [<- | []]]; reflexivity.
Defined.

(** C2 as stated does not hold.  At the offset [f = 1/2] (which is in
    [[0, 1)]) the five-point sum over [i = -2 .. 2] is not one: the
    argument [-2 - 1/2] fails the assertion of [w], and with the assertion
    compiled out the five values sum to [47/48]. *)
Lemma five_point_stencil_at_half :
  0 <= 1 # 2 /\ (1 # 2) < 1 /\
  w_checked (of_int (-2) - (1 # 2)) = None /\
  sum_w_checked (stencil (-2) 5 (1 # 2)) = None /\
  sum_w (stencil (-2) 5 (1 # 2)) == 47 # 48 /\
  ~ sum_w (stencil (-2) 5 (1 # 2)) == 1.
Proof.
  repeat split; try reflexivity; try (vm_compute; discriminate).
Qed.

(** C2, amended.  Partition of unity on the support of the kernel: for
    every offset [f] in [[0, 1)] the weights [w(i - f)] of the four nodes
    [i = -1 .. 2] sum to one, and none of the four calls fails the
    assertion of [w]. *)
Theorem partition_of_unity (f : Q) :
  0 <= f -> f < 1 ->
  sum_w (stencil (-1) 4 f) == 1 /\
  exists s, sum_w_checked (stencil (-1) 4 f) = Some s /\ s == 1.
Proof.
  intros H0 H1.
  assert (E : sum_w (stencil (-1) 4 f) == 1).
  { unfold sum_w, sumQ, stencil. cbn [seq map fold_right].
    change (of_int (-1 + Z.of_nat 0)) with (- (1)).
    change (of_int (-1 + Z.of_nat 1)) with 0.
    change (of_int (-1 + Z.of_nat 2)) with 1.
    change (of_int (-1 + Z.of_nat 3)) with 2.
    transitivity (w (- (1) - f) + w (0 - f) + w (1 - f) + w (2 - f));
      [ring | exact (four_weights f H0 H1)]. }
  split; [exact E |].
  exists (sum_w (stencil (-1) 4 f)). split; [| exact E].
  unfold sum_w, sumQ, stencil. cbn [seq map fold_right sum_w_checked].
  change (of_int (-1 + Z.of_nat 0)) with (- (1)).
  change (of_int (-1 + Z.of_nat 1)) with 0.
  change (of_int (-1 + Z.of_nat 2)) with 1.
  change (of_int (-1 + Z.of_nat 3)) with 2.
  unfold w_checked.
  rewrite !w_assert_true by (apply abs_le_2; lra).
  reflexivity.
Qed.

(** The offset [f = 1/4]. *)
Lemma partition_of_unity_witness :
  sum_w (stencil (-1) 4 (1 # 4)) == 1 /\
  exists s, sum_w_checked (stencil (-1) 4 (1 # 4)) = Some s /\ s == 1.
Proof.
  apply (partition_of_unity (1 # 4)); [discriminate | reflexivity].
Defined.

(** C3.  In asynchronous mode, with [P] the chosen increment (positive; a
    power of two in the program) and a tick counter that does not leave
    the [int64] range, the tick increment is [P - current_tick mod P] and
    the advanced tick is a multiple of [P]. *)
Theorem async_tick_alignment (cfg : Config) (pot max_dt_int : Z) (c : Clock) :
  let P := Z.min pot max_dt_int in
  let c' := advance_async cfg pot max_dt_int c in
  (0 < P)%Z ->
  (0 <= current_t_int c)%Z ->
  (current_t_int c + P < 2 ^ 63)%Z ->
  original_t_int_increment c' = P /\
  t_int_increment c' = (P - current_t_int c mod P)%Z /\
  current_t_int c' = (current_t_int c + t_int_increment c')%Z /\
  (current_t_int c' mod P = 0)%Z.
Proof.
  intros P c' HP H0 Hmax. subst c'. unfold advance_async. cbn.
  fold P.
  pose proof (Z.mod_pos_bound (current_t_int c) P HP) as Hm.
  rewrite Z.rem_mod_nonneg by lia.
  assert (Hi : wrap64 (P - current_t_int c mod P)
               = (P - current_t_int c mod P)%Z)
    by (apply wrap64_small; lia).
  rewrite Hi.
  assert (Hc : wrap64 (current_t_int c + (P - current_t_int c mod P))
               = (current_t_int c + (P - current_t_int c mod P))%Z)
    by (apply wrap64_small; lia).
  rewrite Hc.
  repeat split. apply next_multiple. exact HP.
Qed.

(** The instance of the spec: [current_tick = 5] and [P = 4] give the
    increment [3] and the new tick [8]. *)
Lemma async_tick_alignment_witness :
  let cfg := mkConfig (8, 8, 8)%Z true true (1 # 1000000) 0 in
  let c' := advance_async cfg 4 16 (mkClock 5 4 1 1 (5 # 1000000)) in
  t_int_increment c' = 3%Z /\ current_t_int c' = 8%Z /\
  (current_t_int c' mod 4 = 0)%Z.
Proof.
  intros cfg c'.
  destruct (async_tick_alignment cfg 4 16 (mkClock 5 4 1 1 (5 # 1000000)))
    as (_ & Hi & Hc & Hm); [reflexivity | discriminate | reflexivity |].
  fold c' in Hi, Hc, Hm.
  split; [exact Hi |]. split; [rewrite Hc, Hi; reflexivity | exact Hm].
Defined.

(** C4.  For an active grid node whose signed distance [phi] is in
    [(0, 1]] and a negative friction coefficient (sticky), the grid
    velocity after [grid_apply_boundary_conditions] is the velocity of the
    boundary at that node. *)
Theorem sticky_node_takes_boundary_velocity
    (length : Vector3 -> Q) (normalize : Vector3 -> Vector3)
    (levelset : DynamicLevelSet3D) (t : Q)
    (active_grid_points : list Index) (gv : Array3D Vector3) (ind : Index) :
  In ind active_grid_points ->
  0 < sample levelset (sample_pos ind) t ->
  sample levelset (sample_pos ind) t <= 1 ->
  friction levelset < 0 ->
  grid_apply_boundary_conditions length normalize levelset t
    active_grid_points gv ind
  =v= boundary_velocity_at levelset t ind.
Proof.
  intros Hin Hpos Hle Hmu.
  apply boundary_loop_sticky; auto.
Qed.

(** The instance of the spec: [phi = 0.5], normal [(0, 1, 0)], boundary
    velocity [0] and grid velocity [(1, -2, 0)] give [(0, 0, 0)]. *)
Lemma sticky_node_takes_boundary_velocity_witness :
  let levelset :=
    mkLevelSet (fun _ _ => 1 # 2) (fun _ _ => mkVector 0 1 0)
               (fun _ _ => 0) (- (1)) in
  let gv : Array3D Vector3 := fun _ => mkVector 1 (- (2)) 0 in
  grid_apply_boundary_conditions (fun _ => 0) (fun a => a) levelset 0
    [(2, 3, 4)%Z] gv (2, 3, 4)%Z
  =v= mkVector 0 0 0.
Proof.
  intros levelset gv.
  destruct (sticky_node_takes_boundary_velocity (fun _ => 0) (fun a => a)
              levelset 0 [(2, 3, 4)%Z] gv (2, 3, 4)%Z)
    as (Hx & Hy & Hz);
    [left; reflexivity | reflexivity | discriminate | reflexivity |].
  split; [| split].
  - exact (Qeq_trans _ _ _ Hx eq_refl).
  - exact (Qeq_trans _ _ _ Hy eq_refl).
  - exact (Qeq_trans _ _ _ Hz eq_refl).
Defined.

(** C5.  For an [UPDATING] particle, with [apic] enabled the new velocity
    is the velocity gathered from the grid (the weighted sum of the grid
    velocities over the neighborhood); with [apic] disabled it is
    [v_old + (gathered grid velocity - gathered backup grid velocity)]. *)
Theorem resample_velocity (cfg : Config) (t : Z) (g : Grids)
    (p : MPM3Particle) :
  state p = UPDATING ->
  let region := get_bounded_rasterization_region (res cfg) (pos p) in
  let gathered := weighted_sum (grid_velocity g) (pos p) region in
  let gathered_backup := weighted_sum (grid_velocity_backup g) (pos p) region in
  (apic cfg = true -> v (resample_particle cfg t g p) =v= gathered) /\
  (apic cfg = false ->
   v (resample_particle cfg t g p)
   =v= vadd (v p) (vsub gathered gathered_backup)).
Proof.
  intros Hs region gathered gathered_backup.
  destruct (resample_particle_updating cfg t g p Hs) as (Hv & _).
  destruct (gather_velocity cfg g p) as (Hg & Hb & _).
  fold region in Hg, Hb. fold gathered in Hg. fold gathered_backup in Hb.
  rewrite Hv. unfold alpha_delta_t, blend.
  split; intros Ha; rewrite Ha, Hg, ?Hb; vec_ring.
Qed.

(** An interior particle, with and without [apic]. *)
Lemma resample_velocity_witness :
  let p := Sample.particle_at Sample.interior UPDATING in
  let region := get_bounded_rasterization_region (8, 8, 8)%Z (pos p) in
  let gathered := weighted_sum (grid_velocity Sample.grids) (pos p) region in
  let gathered_backup :=
    weighted_sum (grid_velocity_backup Sample.grids) (pos p) region in
  v (resample_particle Sample.cfg_apic 3 Sample.grids p) =v= gathered /\
  v (resample_particle Sample.cfg_flip 3 Sample.grids p)
  =v= vadd (v p) (vsub gathered gathered_backup).
Proof.
  intros p region gathered gathered_backup. split.
  - apply (resample_velocity Sample.cfg_apic 3 Sample.grids p); reflexivity.
  - apply (resample_velocity Sample.cfg_flip 3 Sample.grids p); reflexivity.
Defined.

(** C6.  When the neighborhood of an [UPDATING] particle has fewer than
    64 nodes, the matrix [b] is [Matrix(0)] before the damping, not the
    accumulated sum, and the particle's [apic_b] is zero after it.
    [resample_particle] has no failing case of its own, and for a particle
    at non-negative coordinates no call of the kernel in its loop fails an
    assertion. *)
Theorem affine_zero_near_boundary (cfg : Config) (t : Z) (g : Grids)
    (p : MPM3Particle) :
  state p = UPDATING ->
  (length (get_bounded_rasterization_region (res cfg) (pos p)) < 64)%nat ->
  select_affine (g_count (gather cfg g p)) (apic cfg) (g_b (gather cfg g p))
  = mdiag 0 /\
  apic_b (resample_particle cfg t g p) =m= mdiag 0 /\
  (0 <= vx (pos p) -> 0 <= vy (pos p) -> 0 <= vz (pos p) ->
   forall ind,
     In ind (get_bounded_rasterization_region (res cfg) (pos p)) ->
     w3_assert (vsub (pos p) (node_pos ind)) = true /\
     dw3_assert (vsub (pos p) (node_pos ind)) = true).
Proof.
  intros Hs Hlen.
  destruct (gather_velocity cfg g p) as (_ & _ & Hc).
  assert (Hsel : select_affine (g_count (gather cfg g p)) (apic cfg)
                               (g_b (gather cfg g p)) = mdiag 0).
  { unfold select_affine. rewrite Hc.
    replace (Z.of_nat _ =? 64)%Z with false; [reflexivity |].
    symmetry. apply Z.eqb_neq. lia. }
  split; [exact Hsel |]. split.
  - destruct (resample_particle_updating cfg t g p Hs) as (_ & Hb).
    rewrite Hb, Hsel. apply zero_matrix_scaled.
  - intros Hx Hy Hz ind Hin. apply (region_asserts (res cfg)); assumption.
Qed.

(** A particle half a cell from the wall [x = 0]: 48 nodes. *)
Lemma affine_zero_near_boundary_witness :
  let p := Sample.particle_at Sample.near_wall UPDATING in
  select_affine (g_count (gather Sample.cfg_apic Sample.grids p)) true
                (g_b (gather Sample.cfg_apic Sample.grids p))
  = mdiag 0 /\
  apic_b (resample_particle Sample.cfg_apic 3 Sample.grids p) =m= mdiag 0.
Proof.
  intros p.
  destruct (affine_zero_near_boundary Sample.cfg_apic 3 Sample.grids p)
    as (Hsel & Hb & _).
  - reflexivity.
  - vm_compute. lia.
  - split; [exact Hsel | exact Hb].
Defined.



(** C8.  The claim fails on the code for a resolution of 64 cells.  The
    upper bound of the clamp, [res[0] - eps] with [eps = 1e-6f], is
    computed in binary32, where it is 64 itself; an [UPDATING] particle
    integrated beyond the wall leaves the loop of [substep], and the end
    of [substep], with [pos.x = 64 = res[0]], which is not in
    [[0, res)].  (With a resolution of 32 the bound is below 32.) *)
Theorem position_reaches_resolution :
  let eps := round32 (1 # 1000000) in
  let cfg := mkConfig (64, 64, 64)%Z true false (1 # 8) 0 in
  let c := mkClock 1 0 1 1 (1 # 8) in
  let p := mkParticle (mkVector (127 # 2) 32 32) (mkVector 16 0 0) 1
                      (mdiag 0) (mdiag 1) (mdiag 1) (mdiag 1) (mdiag 0)
                      UPDATING 0 in
  let p' := integrate_particle eps Sample.plasticity cfg c p in
  let st' := finish_substep eps Sample.plasticity Sample.resolve_collision
               cfg c Sample.grids [0%nat] [p] in
  in_domain (res cfg) p /\
  fsub32 (int_to_float 64) eps == 64 /\
  vx (pos p') == 64 /\
  ~ in_domain (res cfg) p' /\
  Forall (fun q => vx (pos q) == 64 /\ ~ in_domain (res cfg) q) st' /\
  fsub32 (int_to_float 32) eps < 32.
Proof.
  intros eps cfg c p p' st'.
  assert (Hout : forall q, vx (pos q) == 64 -> ~ in_domain (res cfg) q).
  { intros q Hq ((_ & Hlt) & _). change (of_int 64) with 64 in Hlt.
    rewrite Hq in Hlt. discriminate Hlt. }
  assert (Hp' : vx (pos p') == 64) by (vm_compute; reflexivity).
  split; [vm_compute; intuition discriminate |].
  split; [vm_compute; reflexivity |].
  split; [exact Hp' |].
  split; [apply Hout; exact Hp' |].
  split; [| vm_compute; reflexivity].
  assert (Hst : exists q, st' = [q] /\ vx (pos q) == 64).
  { eexists. split; [vm_compute; reflexivity | vm_compute; reflexivity]. }
  destruct Hst as (q & -> & Hq).
  constructor; [| constructor]. split; [exact Hq | apply Hout; exact Hq].
Qed.

(** C9.  With [apic] disabled, the matrix [b] is [Matrix(0)] whatever the
    count of nodes, and [resample] leaves a zero [apic_b] in every active
    [UPDATING] particle. *)
Theorem affine_zero_without_apic (cfg : Config) (t : Z) (g : Grids)
    (active : list nat) (st : Store) (n : nat) (p : MPM3Particle) :
  apic cfg = false ->
  In n active -> nth_error st n = Some p -> state p = UPDATING ->
  (forall count b, select_affine count (apic cfg) b = mdiag 0) /\
  apic_b (resample_particle cfg t g p) =m= mdiag 0 /\
  exists p', nth_error (resample cfg t g active st) n = Some p' /\
             state p' = UPDATING /\ apic_b p' =m= mdiag 0.
Proof.
  intros Ha Hin Hn Hs.
  assert (Hsel : forall count b, select_affine count (apic cfg) b = mdiag 0).
  { intros count b. unfold select_affine. rewrite Ha.
    rewrite orb_true_r. reflexivity. }
  assert (Hone : forall q, state q = UPDATING ->
             state (resample_particle cfg t g q) = UPDATING /\
             apic_b (resample_particle cfg t g q) =m= mdiag 0).
  { intros q Hq. split.
    - unfold resample_particle. rewrite Hq. reflexivity.
    - destruct (resample_particle_updating cfg t g q Hq) as (_ & Hb).
      rewrite Hb, Hsel. apply zero_matrix_scaled. }
  split; [exact Hsel |]. split; [apply Hone; exact Hs |].
  unfold resample.
  apply (for_each_active_establishes (resample_particle cfg t g)
           (fun q => state q = UPDATING) (fun q => apic_b q =m= mdiag 0)
           Hone active st n p Hn Hs).
  left. exact Hin.
Qed.

(** An interior particle with all 64 nodes, [apic] disabled. *)
Lemma affine_zero_without_apic_witness :
  let p := Sample.particle_at Sample.interior UPDATING in
  (length (get_bounded_rasterization_region (8, 8, 8)%Z (pos p)) = 64)%nat /\
  apic_b (resample_particle Sample.cfg_flip 3 Sample.grids p) =m= mdiag 0.
Proof.
  intros p. split; [reflexivity |].
  apply (affine_zero_without_apic Sample.cfg_flip 3 Sample.grids [0%nat] [p]
           0%nat p); try reflexivity.
  left. reflexivity.
Defined.

(** C10.  [resample] and the position-integration loop change only
    [UPDATING] particles: a particle in state [INACTIVE] or [BUFFER] is
    the same record (position, velocity, affine matrix, deformation
    gradients, [last_update] and all) after each of the two stages. *)
Theorem idle_particles_unchanged (eps : Q)
    (plasticity : MPM3Particle -> MPM3Particle) (cfg : Config) (c : Clock)
    (g : Grids) (active : list nat) (st : Store) (n : nat)
    (p : MPM3Particle) :
  nth_error st n = Some p ->
  state p <> UPDATING ->
  nth_error (resample cfg (current_t_int c) g active st) n = Some p /\
  nth_error (resample_and_integrate eps plasticity cfg c g active st) n
  = Some p.
Proof.
  intros Hn Hs.
  assert (Hr : nth_error (resample cfg (current_t_int c) g active st) n
               = Some p).
  { unfold resample. apply for_each_active_fixed; [| exact Hn].
    apply resample_particle_idle. exact Hs. }
  split; [exact Hr |].
  unfold resample_and_integrate, integrate, for_each_particle.
  rewrite nth_error_map, Hr. cbn.
  rewrite integrate_particle_idle by exact Hs. reflexivity.
Qed.

(** A [BUFFER] particle next to an [UPDATING] one, both active. *)
Lemma idle_particles_unchanged_witness :
  let idle := Sample.particle_at Sample.interior BUFFER in
  let busy := Sample.particle_at Sample.interior UPDATING in
  nth_error (resample Sample.cfg_apic 3 Sample.grids [0; 1]%nat [idle; busy])
            0 = Some idle /\
  nth_error (resample_and_integrate (1 # 1000000) Sample.plasticity
               Sample.cfg_apic Sample.clock Sample.grids [0; 1]%nat
               [idle; busy]) 0
  = Some idle.
Proof.
  intros idle busy.
  apply (idle_particles_unchanged (1 # 1000000) Sample.plasticity
           Sample.cfg_apic Sample.clock Sample.grids [0; 1]%nat [idle; busy]
           0%nat idle).
  - reflexivity.
  - discriminate.
Defined.

(** * Further properties of the code *)

(** ** More on the kernel *)

Module KernelMoments.
Import Scalar Kernel KernelFacts RasterizeFacts.

(** [w] is even. *)
Lemma w_even (x : Q) : w (- x) == w x.
Proof.
  assert (Ea : Qabs (- x) == Qabs x) by apply Qabs_opp.
  destruct (Qlt_le_dec (Qabs x) 1) as [Hlt | Hge].
  - rewrite (w_inner (- x) (Qabs x)), (w_inner x (Qabs x));
      (reflexivity || assumption).
  - rewrite (w_outer (- x) (Qabs x)), (w_outer x (Qabs x));
      (reflexivity || assumption).
Qed.

(** [dw] on the four pieces of the spline. *)
Lemma dw_right_inner (x : Q) :
  0 <= x -> x < 1 -> dw x == (3 # 2) * x * x - 2 * x.
Proof.
  intros H0 H1. unfold dw.
  rewrite (ltb_false x 0) by exact H0.
  rewrite ltb_true by lra. ring.
Qed.

Lemma dw_right_outer (x : Q) :
  1 <= x -> dw x == - (1 # 2) * x * x + 2 * x - 2.
Proof.
  intros H1. unfold dw.
  rewrite (ltb_false x 0) by lra.
  rewrite ltb_false by lra. ring.
Qed.

Lemma dw_left_inner (x : Q) :
  x < 0 -> - (1) < x -> dw x == - ((3 # 2) * x * x + 2 * x).
Proof.
  intros H0 H1. unfold dw.
  rewrite (ltb_true x 0) by exact H0.
  rewrite ltb_true by lra. ring.
Qed.

Lemma dw_left_outer (x : Q) :
  x <= - (1) -> dw x == (1 # 2) * x * x + 2 * x + 2.
Proof.
  intros H1. unfold dw.
  rewrite (ltb_true x 0) by lra.
  rewrite ltb_false by lra. ring.
Qed.

(** [dw] is odd. *)
Lemma dw_odd (x : Q) : dw (- x) == - dw x.
Proof.
  destruct (Qlt_le_dec x 0) as [Hneg | Hpos].
  - destruct (Qlt_le_dec (- (1)) x) as [Hin | Hout].
    + rewrite (dw_left_inner x), (dw_right_inner (- x)) by lra. ring.
    + rewrite (dw_left_outer x), (dw_right_outer (- x)) by lra. ring.
  - destruct (Qlt_le_dec 0 x) as [Hp | Hz].
    + destruct (Qlt_le_dec x 1) as [Hin | Hout].
      * rewrite (dw_right_inner x), (dw_left_inner (- x)) by lra. ring.
      * rewrite (dw_right_outer x), (dw_left_outer (- x)) by lra. ring.
    + rewrite (dw_right_inner x), (dw_right_inner (- x)) by lra.
      assert (E : x == 0) by lra. rewrite E. reflexivity.
Qed.

(** The four weights around a point at offset [f] from the node below. *)
Lemma w_below (f : Q) :
  0 <= f -> f < 1 -> w (- (1) - f) == (1 # 6) * (1 - f) * (1 - f) * (1 - f).
Proof.
  intros H0 H1.
  rewrite (w_outer (- (1) - f) (1 + f)) by (try apply abs_of_neg; lra).
  field.
Qed.

Lemma w_at (f : Q) :
  0 <= f -> f < 1 -> w (0 - f) == (1 # 2) * f * f * f - f * f + (2 # 3).
Proof.
  intros H0 H1.
  rewrite (w_inner (0 - f) f) by (try apply abs_of_neg; lra).
  field.
Qed.

Lemma w_above (f : Q) :
  0 <= f -> f < 1 ->
  w (1 - f)
  == (1 # 2) * (1 - f) * (1 - f) * (1 - f) - (1 - f) * (1 - f) + (2 # 3).
Proof.
  intros H0 H1. destruct (Qlt_le_dec 0 f) as [Hpos | Hzero].
  - rewrite (w_inner (1 - f) (1 - f)) by (try apply abs_of_pos; lra).
    field.
  - assert (Hf : f == 0) by lra.
    rewrite (w_outer (1 - f) (1 - f)) by (try apply abs_of_pos; lra).
    rewrite Hf. reflexivity.
Qed.

Lemma w_far (f : Q) :
  0 <= f -> f < 1 -> w (2 - f) == (1 # 6) * f * f * f.
Proof.
  intros H0 H1.
  rewrite (w_outer (2 - f) (2 - f)) by (try apply abs_of_pos; lra).
  field.
Qed.

(** The four gradients around the same point. *)
Lemma dw_below (f : Q) :
  0 <= f -> f < 1 -> dw (- (1) - f) == (1 # 2) * (1 - f) * (1 - f).
Proof. intros H0 H1. rewrite dw_left_outer by lra. ring. Qed.

Lemma dw_at (f : Q) :
  0 <= f -> f < 1 -> dw (0 - f) == 2 * f - (3 # 2) * f * f.
Proof.
  intros H0 H1. destruct (Qlt_le_dec 0 f) as [Hpos | Hzero].
  - rewrite dw_left_inner by lra. ring.
  - assert (Hf : f == 0) by lra. rewrite dw_right_inner by lra.
    rewrite Hf. reflexivity.
Qed.

Lemma dw_above (f : Q) :
  0 <= f -> f < 1 -> dw (1 - f) == (3 # 2) * f * f - f - (1 # 2).
Proof.
  intros H0 H1. destruct (Qlt_le_dec 0 f) as [Hpos | Hzero].
  - rewrite dw_right_inner by lra. ring.
  - assert (Hf : f == 0) by lra. rewrite dw_right_outer by lra.
    rewrite Hf. reflexivity.
Qed.

Lemma dw_far (f : Q) :
  0 <= f -> f < 1 -> dw (2 - f) == - (1 # 2) * f * f.
Proof. intros H0 H1. rewrite dw_right_outer by lra. ring. Qed.

(** The sum of [g] over the four arguments of the support. *)
Lemma sum_stencil (g : Q -> Q) (f : Q) :
  sumQ g (stencil (-1) 4 f)
  == g (- (1) - f) + g (0 - f) + g (1 - f) + g (2 - f).
Proof.
  unfold sumQ, stencil. cbn [seq map fold_right].
  change (of_int (-1 + Z.of_nat 0)) with (- (1)).
  change (of_int (-1 + Z.of_nat 1)) with 0.
  change (of_int (-1 + Z.of_nat 2)) with 1.
  change (of_int (-1 + Z.of_nat 3)) with 2.
  ring.
Qed.

End KernelMoments.

Import Scalar Kernel KernelFacts KernelMoments.

(** X1.  The weight is even and its gradient is odd. *)
Theorem kernel_symmetry (x : Q) : w (- x) == w x /\ dw (- x) == - dw x.
Proof. split; [apply w_even | apply dw_odd]. Qed.

(** X2.  In exact arithmetic the weight lies between [0] and its value
    [2/3] at the centre, on the support [|x| <= 2].  The binary32
    evaluation of the same expressions leaves both bounds at the points
    where they are attained: [w(2.0f) = w(-2.0f) = -2^-23], below zero,
    and [w(0.0f) = 11184811 / 2^24], above [2/3]. *)
Theorem kernel_weight_bounds (x : Q) :
  Qabs x <= 2 ->
  (0 <= w x /\ w x <= 2 # 3) /\
  KernelBinary32.w_binary32 2 == - (1 # 8388608) /\
  KernelBinary32.w_binary32 (- (2)) == - (1 # 8388608) /\
  KernelBinary32.w_binary32 0 == 11184811 # 16777216 /\
  (2 # 3) < KernelBinary32.w_binary32 0.
Proof.
  intros H2.
  split; [| repeat split; vm_compute; reflexivity].
  split; [apply w_nonneg; exact H2 |].
  pose proof (Qabs_nonneg x) as H0.
  destruct (Qlt_le_dec (Qabs x) 1) as [Hlt | Hge].
  - rewrite (w_inner x (Qabs x)) by (reflexivity || exact Hlt).
    set (a := Qabs x) in *.
    assert (E : (1 # 2) * a * a * a - a * a + 2 / 3
                == (2 # 3) - (a * a) * (1 - (1 # 2) * a)) by field.
    rewrite E.
    assert (0 <= (a * a) * (1 - (1 # 2) * a)).
    { apply Qmult_le_0_compat; [apply Qmult_le_0_compat |]; lra. }
    lra.
  - rewrite (w_outer x (Qabs x)) by (reflexivity || exact Hge).
    set (a := Qabs x) in *.
    assert (E : - (1) / 6 * a * a * a + a * a - 2 * a + 4 / 3
                == (1 # 6) * ((2 - a) * ((2 - a) * (2 - a)))) by field.
    rewrite E.
    assert (Hb : (2 - a) * (2 - a) <= 1) by nra.
    assert (Hc : (2 - a) * ((2 - a) * (2 - a)) <= 1) by nra.
    lra.
Qed.

Lemma kernel_weight_bounds_witness :
  0 <= w (- (3 # 2)) /\ w (- (3 # 2)) <= 2 # 3.
Proof.
  apply (proj1 (kernel_weight_bounds (- (3 # 2)) ltac:(discriminate))).
Defined.

(** X3.  Over the four nodes of the support, for every offset [f] in
    [[0, 1)]: the gradients sum to zero, the first moment of the weights
    is zero and their second moment is [1/3]. *)
Theorem kernel_moments (f : Q) :
  0 <= f -> f < 1 ->
  sumQ dw (stencil (-1) 4 f) == 0 /\
  sumQ (fun x => w x * x) (stencil (-1) 4 f) == 0 /\
  sumQ (fun x => w x * (x * x)) (stencil (-1) 4 f) == 1 # 3.
Proof.
  intros H0 H1. rewrite !sum_stencil.
  rewrite (dw_below f H0 H1), (dw_at f H0 H1), (dw_above f H0 H1),
    (dw_far f H0 H1).
  rewrite (w_below f H0 H1), (w_at f H0 H1), (w_above f H0 H1),
    (w_far f H0 H1).
  repeat split; ring.
Qed.

Lemma kernel_moments_witness :
  sumQ dw (stencil (-1) 4 (1 # 3)) == 0 /\
  sumQ (fun x => w x * x) (stencil (-1) 4 (1 # 3)) == 0 /\
  sumQ (fun x => w x * (x * x)) (stencil (-1) 4 (1 # 3)) == 1 # 3.
Proof.
  apply (kernel_moments (1 # 3)); [discriminate | reflexivity].
Defined.

(** ** Moments of the weights over a neighborhood *)

Module MomentFacts.
Import Scalar Linear Kernel Kernel3 Particles Grid Rasterize Measures.
Import KernelFacts SumFacts BoundaryFacts GridFacts RasterizeFacts.
Import LinearFacts KernelMoments.

Lemma sumQ_plus {A : Type} (f h : A -> Q) (l : list A) :
  sumQ (fun a => f a + h a) l == sumQ f l + sumQ h l.
Proof.
  induction l as [| a l IH].
  - rewrite !sumQ_nil. ring.
  - rewrite !sumQ_cons, IH. ring.
Qed.

Lemma sumQ_zero {A : Type} (f : A -> Q) (l : list A) :
  (forall a, In a l -> f a == 0) -> sumQ f l == 0.
Proof.
  intros H. induction l as [| a l IH].
  - reflexivity.
  - rewrite sumQ_cons, IH by (intros b Hb; apply H; right; exact Hb).
    rewrite (H a) by (left; reflexivity). ring.
Qed.

(** [dw] respects the equality of reals. *)
Lemma dw_ext (x y : Q) : x == y -> dw x == dw y.
Proof.
  intros E. destruct (Qlt_le_dec x 0) as [Hneg | Hpos].
  - destruct (Qlt_le_dec (- (1)) x) as [Hin | Hout].
    + rewrite (dw_left_inner x), (dw_left_inner y) by lra. rewrite E.
      reflexivity.
    + rewrite (dw_left_outer x), (dw_left_outer y) by lra. rewrite E.
      reflexivity.
  - destruct (Qlt_le_dec x 1) as [Hin | Hout].
    + rewrite (dw_right_inner x), (dw_right_inner y) by lra. rewrite E.
      reflexivity.
    + rewrite (dw_right_outer x), (dw_right_outer y) by lra. rewrite E.
      reflexivity.
Qed.

Lemma frac_range (r : Z) (c : Q) :
  axis_inside r c = true -> 0 <= frac c /\ frac c < 1.
Proof.
  intros H. apply andb_true_iff in H. destruct H as [H1 _].
  apply Z.leb_le in H1.
  destruct (to_int_floor c (to_int_positive c H1)) as [Hlo Hhi].
  unfold frac. lra.
Qed.

(** Along one axis, a sum over the nodes of a full neighborhood is the
    sum over the stencil at the fractional part of the coordinate. *)
Lemma axis_sum (h : Q -> Q) (r : Z) (c : Q) :
  (forall x y, x == y -> h x == h y) ->
  axis_inside r c = true ->
  sumQ (fun i => h (of_int i - c)) (axis_nodes r c)
  == sumQ h (stencil (-1) 4 (frac c)).
Proof.
  intros Hh H. rewrite (axis_nodes_inside r c H), sum_stencil.
  unfold frac. set (x := to_int c).
  rewrite !sumQ_cons, sumQ_nil.
  rewrite (Hh (of_int (x - 1) - c) (- (1) - (c - of_int x))).
  2:{ replace (x - 1)%Z with (x + -1)%Z by lia. rewrite of_int_add.
      change (of_int (-1)) with (- (1)). ring. }
  rewrite (Hh (of_int x - c) (0 - (c - of_int x))) by ring.
  rewrite (Hh (of_int (x + 1) - c) (1 - (c - of_int x))).
  2:{ rewrite of_int_add. change (of_int 1) with 1. ring. }
  rewrite (Hh (of_int (x + 2) - c) (2 - (c - of_int x))).
  2:{ rewrite of_int_add. change (of_int 2) with 2. ring. }
  ring.
Qed.

(** The sum over a full neighborhood of a product of per-axis factors of
    the offsets node minus position. *)
Lemma region_product_sum (hx hy hz : Q -> Q) (F : Index -> Q)
    (res : Index) (x : Vector3) :
  (forall a b, a == b -> hx a == hx b) ->
  (forall a b, a == b -> hy a == hy b) ->
  (forall a b, a == b -> hz a == hz b) ->
  (forall i j k,
     F (i, j, k)
     == hx (of_int i - vx x) * hy (of_int j - vy x) * hz (of_int k - vz x)) ->
  neighborhood_inside res x = true ->
  sumQ F (get_bounded_rasterization_region res x)
  == sumQ hx (stencil (-1) 4 (frac (vx x)))
     * sumQ hy (stencil (-1) 4 (frac (vy x)))
     * sumQ hz (stencil (-1) 4 (frac (vz x))).
Proof.
  destruct res as [[rx ry] rz]. unfold neighborhood_inside.
  intros Hhx Hhy Hhz HF H.
  apply andb_true_iff in H. destruct H as [H Hz].
  apply andb_true_iff in H. destruct H as [Hx Hy].
  unfold get_bounded_rasterization_region.
  rewrite (sumQ_box F (fun i => hx (of_int i - vx x))
                      (fun j => hy (of_int j - vy x))
                      (fun k => hz (of_int k - vz x))) by exact HF.
  rewrite (axis_sum hx rx), (axis_sum hy ry), (axis_sum hz rz) by assumption.
  reflexivity.
Qed.

(** The one-dimensional sums, as functions of the offset node minus
    position. *)
Section Stencil.
Variable f : Q.
Hypothesis f_lo : 0 <= f.
Hypothesis f_hi : f < 1.

Lemma s_w : sumQ w (stencil (-1) 4 f) == 1.
Proof.
  rewrite sum_stencil. apply four_weights; assumption.
Qed.

Lemma s_wx : sumQ (fun x => w x * x) (stencil (-1) 4 f) == 0.
Proof.
  rewrite sum_stencil.
  rewrite (w_below f f_lo f_hi), (w_at f f_lo f_hi), (w_above f f_lo f_hi),
    (w_far f f_lo f_hi). ring.
Qed.

Lemma s_wxx : sumQ (fun x => w x * x * x) (stencil (-1) 4 f) == 1 # 3.
Proof.
  rewrite sum_stencil.
  rewrite (w_below f f_lo f_hi), (w_at f f_lo f_hi), (w_above f f_lo f_hi),
    (w_far f f_lo f_hi). ring.
Qed.

Lemma s_dw : sumQ dw (stencil (-1) 4 f) == 0.
Proof.
  rewrite sum_stencil.
  rewrite (dw_below f f_lo f_hi), (dw_at f f_lo f_hi), (dw_above f f_lo f_hi),
    (dw_far f f_lo f_hi). ring.
Qed.

Lemma s_dwx : sumQ (fun x => dw x * x) (stencil (-1) 4 f) == - (1).
Proof.
  rewrite sum_stencil.
  rewrite (dw_below f f_lo f_hi), (dw_at f f_lo f_hi), (dw_above f f_lo f_hi),
    (dw_far f f_lo f_hi). ring.
Qed.

End Stencil.

End MomentFacts.

(** ** The gradient as the derivative of the weight *)

Module KernelDerivative.
Import Scalar Kernel KernelFacts KernelMoments.

Lemma square_nonneg (h : Q) : 0 <= h * h.
Proof.
  destruct (Qlt_le_dec h 0) as [Hn | Hp].
  - assert (E : h * h == (- h) * (- h)) by ring. rewrite E.
    apply Qmult_le_0_compat; lra.
  - apply Qmult_le_0_compat; lra.
Qed.

Lemma product_le (a b c d : Q) :
  0 <= b -> b <= a -> 0 <= d -> d <= c -> b * d <= a * c.
Proof.
  intros Hb Hba Hd Hdc.
  assert (H1 : 0 <= a * (c - d)) by (apply Qmult_le_0_compat; lra).
  assert (H2 : 0 <= d * (a - b)) by (apply Qmult_le_0_compat; lra).
  assert (E : a * c - b * d == a * (c - d) + d * (a - b)) by ring.
  lra.
Qed.

(** A multiple of a square by a factor in [[-1, 1]]. *)
Lemma scaled_square (h c : Q) :
  - (1) <= c -> c <= 1 -> - (h * h) <= h * h * c /\ h * h * c <= h * h.
Proof.
  intros Hl Hu. pose proof (square_nonneg h) as Hs.
  assert (H1 : 0 <= h * h * (1 - c)) by (apply Qmult_le_0_compat; lra).
  assert (H2 : 0 <= h * h * (1 + c)) by (apply Qmult_le_0_compat; lra).
  assert (E1 : h * h * (1 - c) == h * h - h * h * c) by ring.
  assert (E2 : h * h * (1 + c) == h * h + h * h * c) by ring.
  lra.
Qed.

Lemma w_right_inner (x : Q) :
  0 <= x -> x < 1 -> w x == (1 # 2) * x * x * x - x * x + 2 / 3.
Proof.
  intros H0 H1. apply w_inner; [apply Qabs_pos; exact H0 | exact H1].
Qed.

Lemma w_right_outer (x : Q) :
  1 <= x -> w x == (1 # 6) * ((2 - x) * ((2 - x) * (2 - x))).
Proof.
  intros H1. rewrite (w_outer x x); [field | apply Qabs_pos; lra | exact H1].
Qed.

Lemma cube_nonneg (a : Q) : 0 <= a -> 0 <= a * (a * a).
Proof.
  intros H. apply Qmult_le_0_compat; [exact H | apply square_nonneg].
Qed.

(** The remainder of the first-order expansion of [w] around [x], on the
    right half of the support. *)
Lemma remainder_right (x y : Q) :
  0 <= x -> x <= 2 -> 0 <= y -> y <= 2 ->
  - ((y - x) * (y - x)) <= w y - w x - dw x * (y - x) /\
  w y - w x - dw x * (y - x) <= (y - x) * (y - x).
Proof.
  intros Hx0 Hx2 Hy0 Hy2.
  destruct (Qlt_le_dec x 1) as [Hxi | Hxo];
    destruct (Qlt_le_dec y 1) as [Hyi | Hyo].
  - rewrite (w_right_inner x), (w_right_inner y), (dw_right_inner x)
      by assumption.
    assert (E : (1 # 2) * y * y * y - y * y + 2 / 3
                - ((1 # 2) * x * x * x - x * x + 2 / 3)
                - ((3 # 2) * x * x - 2 * x) * (y - x)
                == (y - x) * (y - x) * ((1 # 2) * (y + 2 * x) - 1)) by field.
    rewrite E. apply scaled_square; lra.
  - rewrite (w_right_inner x), (w_right_outer y), (dw_right_inner x)
      by assumption.
    set (h := y - x).
    assert (E : (1 # 6) * ((2 - y) * ((2 - y) * (2 - y)))
                - ((1 # 2) * x * x * x - x * x + 2 / 3)
                - ((3 # 2) * x * x - 2 * x) * h
                == h * h * ((1 # 2) * (y + 2 * x) - 1)
                   - (2 # 3) * ((y - 1) * ((y - 1) * (y - 1))))
      by (unfold h; field).
    rewrite E.
    pose proof (cube_nonneg (y - 1)) as Hc.
    pose proof (square_nonneg h) as Hs.
    assert (H1 : 0 <= h * h * (1 - ((1 # 2) * (y + 2 * x) - 1)))
      by (apply Qmult_le_0_compat; lra).
    assert (H2 : (y - 1) * (y - 1) * ((2 # 3) * (y - 1))
                 <= h * h * ((1 # 2) * (y + 2 * x))).
    { apply product_le.
      - apply square_nonneg.
      - apply product_le; unfold h; lra.
      - lra.
      - lra. }
    assert (E1 : h * h * (1 - ((1 # 2) * (y + 2 * x) - 1))
                 == h * h - h * h * ((1 # 2) * (y + 2 * x) - 1)) by ring.
    assert (E2 : h * h * ((1 # 2) * (y + 2 * x))
                 == h * h + h * h * ((1 # 2) * (y + 2 * x) - 1)) by ring.
    assert (E3 : (y - 1) * (y - 1) * ((2 # 3) * (y - 1))
                 == (2 # 3) * ((y - 1) * ((y - 1) * (y - 1)))) by ring.
    split; lra.
  - rewrite (w_right_outer x), (w_right_inner y), (dw_right_outer x)
      by assumption.
    set (h := y - x).
    assert (E : (1 # 2) * y * y * y - y * y + 2 / 3
                - (1 # 6) * ((2 - x) * ((2 - x) * (2 - x)))
                - (- (1 # 2) * x * x + 2 * x - 2) * h
                == h * h * ((1 # 6) * (3 * (2 - x) - h))
                   - (2 # 3) * ((1 - y) * ((1 - y) * (1 - y))))
      by (unfold h; field).
    rewrite E.
    pose proof (cube_nonneg (1 - y)) as Hc.
    pose proof (square_nonneg h) as Hs.
    assert (H1 : 0 <= h * h * (1 - (1 # 6) * (3 * (2 - x) - h)))
      by (apply Qmult_le_0_compat; [exact Hs | unfold h; lra]).
    assert (H2 : (1 - y) * (1 - y) * ((2 # 3) * (1 - y))
                 <= (- h) * (- h) * (1 + (1 # 6) * (3 * (2 - x) - h))).
    { apply product_le.
      - apply square_nonneg.
      - apply product_le; unfold h; lra.
      - lra.
      - unfold h. lra. }
    assert (E1 : h * h * (1 - (1 # 6) * (3 * (2 - x) - h))
                 == h * h - h * h * ((1 # 6) * (3 * (2 - x) - h))) by ring.
    assert (E2 : (- h) * (- h) * (1 + (1 # 6) * (3 * (2 - x) - h))
                 == h * h + h * h * ((1 # 6) * (3 * (2 - x) - h))) by ring.
    assert (E3 : (1 - y) * (1 - y) * ((2 # 3) * (1 - y))
                 == (2 # 3) * ((1 - y) * ((1 - y) * (1 - y)))) by ring.
    split; lra.
  - rewrite (w_right_outer x), (w_right_outer y), (dw_right_outer x)
      by assumption.
    assert (E : (1 # 6) * ((2 - y) * ((2 - y) * (2 - y)))
                - (1 # 6) * ((2 - x) * ((2 - x) * (2 - x)))
                - (- (1 # 2) * x * x + 2 * x - 2) * (y - x)
                == (y - x) * (y - x) * ((1 # 6) * (3 * (2 - x) - (y - x))))
      by field.
    rewrite E. apply scaled_square; lra.
Qed.

(** On the right half the gradient lies between [- 2 x] and 0. *)
Lemma dw_right_range (x : Q) :
  0 <= x -> x <= 2 -> - (2 * x) <= dw x /\ dw x <= 0.
Proof.
  intros H0 H2. destruct (Qlt_le_dec x 1) as [Hi | Ho].
  - rewrite (dw_right_inner x) by assumption.
    assert (E : (3 # 2) * x * x - 2 * x == - (x * (2 - (3 # 2) * x))) by ring.
    assert (E' : (3 # 2) * x * x - 2 * x + 2 * x == x * ((3 # 2) * x))
      by ring.
    assert (0 <= x * (2 - (3 # 2) * x)) by (apply Qmult_le_0_compat; lra).
    assert (0 <= x * ((3 # 2) * x)) by (apply Qmult_le_0_compat; lra).
    split; lra.
  - rewrite (dw_right_outer x) by assumption.
    assert (E : - (1 # 2) * x * x + 2 * x - 2
                == - ((1 # 2) * ((2 - x) * (2 - x)))) by ring.
    pose proof (square_nonneg (2 - x)) as Hs.
    assert (Hq : (2 - x) * (2 - x) <= 1 * 1) by (apply product_le; lra).
    split; lra.
Qed.

(** The same on the left half, by symmetry. *)
Lemma remainder_left (x y : Q) :
  - (2) <= x -> x <= 0 -> - (2) <= y -> y <= 0 ->
  - ((y - x) * (y - x)) <= w y - w x - dw x * (y - x) /\
  w y - w x - dw x * (y - x) <= (y - x) * (y - x).
Proof.
  intros Hx2 Hx0 Hy2 Hy0.
  destruct (remainder_right (- x) (- y)) as [Hl Hu]; try lra.
  rewrite !w_even, dw_odd in Hl, Hu.
  assert (E1 : (- y - - x) * (- y - - x) == (y - x) * (y - x)) by ring.
  assert (E2 : - dw x * (- y - - x) == dw x * (y - x)) by ring.
  split; lra.
Qed.

Lemma dw_left_range (x : Q) :
  - (2) <= x -> x <= 0 -> 0 <= dw x /\ dw x <= - (2 * x).
Proof.
  intros H2 H0. destruct (dw_right_range (- x)) as [Hl Hu]; try lra.
  rewrite dw_odd in Hl, Hu. split; lra.
Qed.

Lemma dw_zero : dw 0 == 0.
Proof. reflexivity. Qed.

End KernelDerivative.

Import Scalar Kernel KernelFacts KernelMoments KernelDerivative.

(** X4.  [dw] is the derivative of [w]: for all [x] and [y] in the
    support [[-2, 2]], [w(y)] differs from the first-order expansion
    [w(x) + dw(x) * (y - x)] by at most [(y - x)^2]. *)
Theorem kernel_gradient_is_derivative (x y : Q) :
  Qabs x <= 2 -> Qabs y <= 2 ->
  Qabs (w y - w x - dw x * (y - x)) <= (y - x) * (y - x).
Proof.
  intros Hx Hy. apply Qabs_Qle_condition in Hx, Hy.
  destruct Hx as [Hx1 Hx2], Hy as [Hy1 Hy2].
  apply Qabs_Qle_condition.
  destruct (Qlt_le_dec x 0) as [Hxn | Hxp];
    destruct (Qlt_le_dec y 0) as [Hyn | Hyp].
  - apply remainder_left; lra.
  - destruct (remainder_left x 0) as [Al Au]; try lra.
    destruct (remainder_right 0 y) as [Bl Bu]; try lra.
    destruct (dw_left_range x) as [Dl Du]; try lra.
    rewrite dw_zero in Bl, Bu.
    assert (P1 : 0 <= dw x * y) by (apply Qmult_le_0_compat; lra).
    assert (P2 : dw x * y <= (- (2 * x)) * y).
    { apply product_le; lra. }
    assert (E : w y - w x - dw x * (y - x)
                == (w 0 - w x - dw x * (0 - x)) + (w y - w 0 - 0 * (y - 0))
                   - dw x * y) by ring.
    assert (Ex : (0 - x) * (0 - x) == x * x) by ring.
    assert (Ey : (y - 0) * (y - 0) == y * y) by ring.
    assert (Es : (y - x) * (y - x) == x * x + y * y + (- (2 * x)) * y)
      by ring.
    split; lra.
  - destruct (remainder_right x 0) as [Al Au]; try lra.
    destruct (remainder_left 0 y) as [Bl Bu]; try lra.
    destruct (dw_right_range x) as [Dl Du]; try lra.
    rewrite dw_zero in Bl, Bu.
    assert (P1 : 0 <= (- dw x) * (- y)) by (apply Qmult_le_0_compat; lra).
    assert (P2 : (- dw x) * (- y) <= (2 * x) * (- y)).
    { apply product_le; lra. }
    assert (E : w y - w x - dw x * (y - x)
                == (w 0 - w x - dw x * (0 - x)) + (w y - w 0 - 0 * (y - 0))
                   - (- dw x) * (- y)) by ring.
    assert (Ex : (0 - x) * (0 - x) == x * x) by ring.
    assert (Ey : (y - 0) * (y - 0) == y * y) by ring.
    assert (Es : (y - x) * (y - x) == x * x + y * y + (2 * x) * (- y))
      by ring.
    split; lra.
  - apply remainder_right; lra.
Qed.

(** Across the joint of the two pieces, from [x = 3/4] to
    [y = - 5/4]. *)
Lemma kernel_gradient_is_derivative_witness :
  Qabs (w (- (5 # 4)) - w (3 # 4) - dw (3 # 4) * (- (5 # 4) - (3 # 4)))
  <= (- (5 # 4) - (3 # 4)) * (- (5 # 4) - (3 # 4)).
Proof.
  apply (kernel_gradient_is_derivative (3 # 4) (- (5 # 4)));
    vm_compute; discriminate.
Defined.

(** ** Momentum in rasterize *)

Module MomentumFacts.
Import Scalar Linear Kernel Kernel3 Particles Grid Rasterize Measures.
Import KernelFacts SumFacts BoundaryFacts GridFacts RasterizeFacts.
Import LinearFacts KernelMoments MomentFacts.

Lemma vsum_cons {A : Type} (f : A -> Vector3) (a : A) (l : list A) :
  vsum f (a :: l) = vadd (f a) (vsum f l).
Proof. reflexivity. Qed.

(** The components of a sum of vectors. *)
Lemma vsum_components {A : Type} (f : A -> Vector3) (l : list A) :
  vx (vsum f l) = sumQ (fun a => vx (f a)) l /\
  vy (vsum f l) = sumQ (fun a => vy (f a)) l /\
  vz (vsum f l) = sumQ (fun a => vz (f a)) l.
Proof.
  induction l as [| a l (Hx & Hy & Hz)].
  - repeat split.
  - rewrite vsum_cons, !sumQ_cons. cbn [vadd vx vy vz].
    rewrite Hx, Hy, Hz. repeat split.
Qed.

Lemma vsum_ext {A : Type} (f h : A -> Vector3) (l : list A) :
  (forall a, In a l -> f a =v= h a) -> vsum f l =v= vsum h l.
Proof.
  intros H. induction l as [| a l IH].
  - reflexivity.
  - rewrite !vsum_cons.
    rewrite IH by (intros b Hb; apply H; right; exact Hb).
    rewrite (H a) by (left; reflexivity). reflexivity.
Qed.

Section Component.
(** One of the three components. *)
Variable pr : Vector3 -> Q.
Hypothesis pr_add : forall a b, pr (vadd a b) = pr a + pr b.

Lemma scatter_loop_component (p : MPM3Particle) (lattice : list Index)
    (inds : list Index) (g : Grids) :
  NoDup lattice ->
  (forall ind, In ind inds -> In ind lattice) ->
  sumQ (fun j => pr (grid_velocity (fold_left (scatter p) inds g) j)) lattice
  == sumQ (fun j => pr (grid_velocity g j)) lattice
     + sumQ (fun ind => pr (node_share p ind)) inds.
Proof.
  intros Hnd. revert g. induction inds as [| ind rest IH]; intros g Hsub.
  - cbn [fold_left]. rewrite sumQ_nil. ring.
  - cbn [fold_left]. rewrite IH by (intros j Hj; apply Hsub; right; exact Hj).
    rewrite sumQ_cons. cbn [scatter grid_velocity].
    rewrite (sumQ_ext _ (upd (fun j => pr (grid_velocity g j)) ind
                             (pr (grid_velocity g ind)
                              + pr (node_share p ind)))).
    + pose proof (sum_over_upd_in (fun j => pr (grid_velocity g j)) ind
                    (pr (grid_velocity g ind) + pr (node_share p ind))
                    lattice Hnd (Hsub ind (or_introl eq_refl))) as E.
      unfold sum_over in E. rewrite E. ring.
    + intros j _. unfold upd. destruct (index_eqb j ind); [| reflexivity].
      rewrite pr_add. reflexivity.
Qed.

Lemma scatter_all_component (res : Index) (ps : list MPM3Particle)
    (g : Grids) :
  sumQ (fun j => pr (grid_velocity (fold_left (scatter_particle res) ps g) j))
       (get_region res)
  == sumQ (fun j => pr (grid_velocity g j)) (get_region res)
     + sumQ (fun p =>
               sumQ (fun ind => pr (node_share p ind))
                    (get_bounded_rasterization_region res (pos p))) ps.
Proof.
  revert g. induction ps as [| p rest IH]; intros g.
  - cbn [fold_left]. rewrite sumQ_nil. ring.
  - cbn [fold_left]. rewrite IH, sumQ_cons. unfold scatter_particle.
    rewrite scatter_loop_component.
    + ring.
    + apply NoDup_get_region.
    + intros ind. apply region_in_lattice.
Qed.

End Component.

(** The first moments of the weights over a full neighborhood vanish. *)
Lemma region_first_moments (res : Index) (x : Vector3) :
  neighborhood_inside res x = true ->
  sumQ (fun ind => w3 (vsub (node_pos ind) x) * vx (vsub (node_pos ind) x))
       (get_bounded_rasterization_region res x) == 0 /\
  sumQ (fun ind => w3 (vsub (node_pos ind) x) * vy (vsub (node_pos ind) x))
       (get_bounded_rasterization_region res x) == 0 /\
  sumQ (fun ind => w3 (vsub (node_pos ind) x) * vz (vsub (node_pos ind) x))
       (get_bounded_rasterization_region res x) == 0.
Proof.
  intros H.
  assert (Hf : (0 <= frac (vx x) /\ frac (vx x) < 1) /\
               (0 <= frac (vy x) /\ frac (vy x) < 1) /\
               (0 <= frac (vz x) /\ frac (vz x) < 1)).
  { destruct res as [[rx ry] rz]. unfold neighborhood_inside in H.
    apply andb_true_iff in H. destruct H as [H Hz].
    apply andb_true_iff in H. destruct H as [Hx Hy].
    pose proof (frac_range rx _ Hx). pose proof (frac_range ry _ Hy).
    pose proof (frac_range rz _ Hz). tauto. }
  destruct Hf as ((Hx0 & Hx1) & (Hy0 & Hy1) & Hz0 & Hz1).
  assert (Ew : forall a b, a == b -> w a == w b) by apply w_ext.
  assert (Ewx : forall a b, a == b -> w a * a == w b * b).
  { intros a b E. rewrite (w_ext a b E), E. reflexivity. }
  split; [| split].
  - rewrite (region_product_sum (fun a => w a * a) w w _ res x Ewx Ew Ew);
      [| intros i j k; unfold w3, vsub, node_pos; cbn [vx vy vz]; ring
       | exact H].
    rewrite s_wx, !s_w by assumption. ring.
  - rewrite (region_product_sum w (fun a => w a * a) w _ res x Ew Ewx Ew);
      [| intros i j k; unfold w3, vsub, node_pos; cbn [vx vy vz]; ring
       | exact H].
    rewrite s_wx, !s_w by assumption. ring.
  - rewrite (region_product_sum w w (fun a => w a * a) _ res x Ew Ew Ewx);
      [| intros i j k; unfold w3, vsub, node_pos; cbn [vx vy vz]; ring
       | exact H].
    rewrite s_wx, !s_w by assumption. ring.
Qed.

Lemma inside_physical (res : Index) (p : MPM3Particle) :
  neighborhood_inside res (pos p) = true -> 0 <= mass p -> physical p.
Proof.
  destruct res as [[rx ry] rz]. unfold neighborhood_inside, axis_inside.
  intros H Hm. rewrite !andb_true_iff, !Z.leb_le in H.
  destruct H as (((Hx & _) & (Hy & _)) & (Hz & _)).
  unfold physical. auto using to_int_positive.
Qed.

(** What an interior particle adds to the grid in all is its momentum:
    the affine term [3 * apic_b * d_pos] cancels in the sum. *)
Lemma particle_share (res : Index) (p : MPM3Particle) :
  neighborhood_inside res (pos p) = true ->
  vsum (node_share p) (get_bounded_rasterization_region res (pos p))
  =v= vscale (mass p) (v p).
Proof.
  intros H.
  destruct (vsum_components (node_share p)
              (get_bounded_rasterization_region res (pos p)))
    as (Ex & Ey & Ez).
  pose (W := fun ind => w3 (vsub (node_pos ind) (pos p))).
  pose (Dx := fun ind => W ind * vx (vsub (node_pos ind) (pos p))).
  pose (Dy := fun ind => W ind * vy (vsub (node_pos ind) (pos p))).
  pose (Dz := fun ind => W ind * vz (vsub (node_pos ind) (pos p))).
  assert (H0 : sumQ W (get_bounded_rasterization_region res (pos p)) == 1)
    by (apply region_weights; exact H).
  assert (H1 : sumQ Dx (get_bounded_rasterization_region res (pos p)) == 0 /\
               sumQ Dy (get_bounded_rasterization_region res (pos p)) == 0 /\
               sumQ Dz (get_bounded_rasterization_region res (pos p)) == 0)
    by (apply region_first_moments; exact H).
  destruct H1 as (H1x & H1y & H1z).
  assert (Hlin : forall a b c d : Q,
            sumQ (fun ind => a * W ind + b * Dx ind + c * Dy ind + d * Dz ind)
                 (get_bounded_rasterization_region res (pos p)) == a).
  { intros a b c d.
    rewrite !sumQ_plus, !sumQ_scale_l, H0, H1x, H1y, H1z. ring. }
  unfold veq. rewrite Ex, Ey, Ez. cbn [vscale vx vy vz].
  split; [| split].
  - rewrite <- (Hlin (mass p * vx (v p))
                  (mass p * (3 * vx (col0 (apic_b p))))
                  (mass p * (3 * vx (col1 (apic_b p))))
                  (mass p * (3 * vx (col2 (apic_b p))))).
    apply sumQ_ext. intros ind _. unfold node_share, Dx, Dy, Dz, W, mat_vec,
      mscale, vscale, vscale_r, vadd. cbn [vx vy vz col0 col1 col2]. ring.
  - rewrite <- (Hlin (mass p * vy (v p))
                  (mass p * (3 * vy (col0 (apic_b p))))
                  (mass p * (3 * vy (col1 (apic_b p))))
                  (mass p * (3 * vy (col2 (apic_b p))))).
    apply sumQ_ext. intros ind _. unfold node_share, Dx, Dy, Dz, W, mat_vec,
      mscale, vscale, vscale_r, vadd. cbn [vx vy vz col0 col1 col2]. ring.
  - rewrite <- (Hlin (mass p * vz (v p))
                  (mass p * (3 * vz (col0 (apic_b p))))
                  (mass p * (3 * vz (col1 (apic_b p))))
                  (mass p * (3 * vz (col2 (apic_b p))))).
    apply sumQ_ext. intros ind _. unfold node_share, Dx, Dy, Dz, W, mat_vec,
      mscale, vscale, vscale_r, vadd. cbn [vx vy vz col0 col1 col2]. ring.
Qed.

(** The velocity array after the first loop holds the momentum of the
    particles. *)
Lemma scatter_all_momentum (res : Index) (ps : list MPM3Particle)
    (g : Grids) :
  (forall p, In p ps -> neighborhood_inside res (pos p) = true) ->
  vsum (grid_velocity (scatter_all res ps g)) (get_region res)
  =v= particle_momentum ps.
Proof.
  intros H. unfold scatter_all, particle_momentum.
  destruct (vsum_components
              (grid_velocity (fold_left (scatter_particle res) ps (reset g)))
              (get_region res)) as (Ex & Ey & Ez).
  destruct (vsum_components (fun p => vscale (mass p) (v p)) ps)
    as (Px & Py & Pz).
  assert (Hzero : forall pr : Vector3 -> Q, pr (vconst 0) == 0 ->
            sumQ (fun j => pr (grid_velocity (reset g) j)) (get_region res)
            == 0).
  { intros pr Hpr. apply sumQ_zero. intros j _. exact Hpr. }
  assert (Hshare : forall p, In p ps ->
            vsum (node_share p) (get_bounded_rasterization_region res (pos p))
            =v= vscale (mass p) (v p)).
  { intros p Hp. apply particle_share. apply H. exact Hp. }
  unfold veq. rewrite Ex, Ey, Ez, Px, Py, Pz.
  split; [| split].
  - rewrite (scatter_all_component vx (fun a b => eq_refl)).
    rewrite (Hzero vx) by reflexivity.
    rewrite (sumQ_ext _ (fun p => vx (vscale (mass p) (v p)))); [ring |].
    intros p Hp. destruct (Hshare p Hp) as (E & _ & _).
    destruct (vsum_components (node_share p)
                (get_bounded_rasterization_region res (pos p)))
      as (<- & _ & _). exact E.
  - rewrite (scatter_all_component vy (fun a b => eq_refl)).
    rewrite (Hzero vy) by reflexivity.
    rewrite (sumQ_ext _ (fun p => vy (vscale (mass p) (v p)))); [ring |].
    intros p Hp. destruct (Hshare p Hp) as (_ & E & _).
    destruct (vsum_components (node_share p)
                (get_bounded_rasterization_region res (pos p)))
      as (_ & <- & _). exact E.
  - rewrite (scatter_all_component vz (fun a b => eq_refl)).
    rewrite (Hzero vz) by reflexivity.
    rewrite (sumQ_ext _ (fun p => vz (vscale (mass p) (v p)))); [ring |].
    intros p Hp. destruct (Hshare p Hp) as (_ & _ & E).
    destruct (vsum_components (node_share p)
                (get_bounded_rasterization_region res (pos p)))
      as (_ & _ & <-). exact E.
Qed.

End MomentumFacts.

Import Scalar Linear Kernel Kernel3 Particles Grid Rasterize Measures.
Import KernelFacts SumFacts BoundaryFacts GridFacts RasterizeFacts.
Import LinearFacts KernelMoments MomentFacts MomentumFacts.

(** X5.  Momentum is conserved by [rasterize]: when every particle has a
    mass that is not negative and its full neighborhood on the grid, the
    sum of [mass * velocity] over the grid nodes after [rasterize] is the
    sum of [mass * v] over the particles, whatever their affine matrices
    [apic_b] are. *)
Theorem rasterize_conserves_momentum (res : Index)
    (ps : list MPM3Particle) (g : Grids) :
  (forall p, In p ps ->
     neighborhood_inside res (pos p) = true /\ 0 <= mass p) ->
  exists g',
    rasterize res ps g = Some g' /\
    grid_momentum g' (get_region res) =v= particle_momentum ps.
Proof.
  intros H. unfold rasterize.
  destruct (normalize_total (get_region res) (NoDup_get_region res)
              (scatter_all res ps g)) as (g' & Hrun & Hm & Hpos & Hskip & _).
  exists g'. split; [exact Hrun |].
  rewrite <- (scatter_all_momentum res ps g) by (intros p Hp; apply H, Hp).
  unfold grid_momentum. apply vsum_ext. intros ind Hin.
  assert (Hrest : massless_at_rest (scatter_all res ps g)).
  { apply scatter_all_at_rest. intros p Hp. destruct (H p Hp).
    apply (inside_physical res); assumption. }
  destruct (Hrest ind) as [Hge Hv0]. rewrite Hm.
  destruct (Qlt_le_dec 0 (grid_mass (scatter_all res ps g) ind)) as [Hp | Hz].
  - rewrite (Hpos ind Hin Hp).
    unfold veq, vscale, vscale_r. cbn [vx vy vz]. repeat split; field; lra.
  - assert (E0 : grid_mass (scatter_all res ps g) ind == 0) by lra.
    rewrite (Hskip ind) by lra. rewrite (Hv0 E0), E0. vec_ring.
Qed.

Lemma rasterize_conserves_momentum_witness :
  let ps := [Sample.particle_at Sample.interior UPDATING;
             Sample.particle_at (mkVector 2 3 (11 # 2)) BUFFER] in
  exists g',
    rasterize (8, 8, 8)%Z ps Sample.grids = Some g' /\
    grid_momentum g' (get_region (8, 8, 8)%Z) =v= particle_momentum ps.
Proof.
  intros ps.
  apply (rasterize_conserves_momentum (8, 8, 8)%Z ps Sample.grids).
  intros p [<- | [<- | []]]; split; reflexivity || discriminate.
Defined.

(** ** More on rasterize *)

Module RasterizeMore.
Import Scalar Linear Kernel Kernel3 Particles Grid Rasterize Measures.
Import KernelFacts SumFacts BoundaryFacts GridFacts RasterizeFacts.
Import LinearFacts KernelMoments MomentFacts MomentumFacts.

Lemma scatter_same (p : MPM3Particle) (g1 g2 : Grids) (ind : Index) :
  same_nodes g1 g2 -> same_nodes (scatter p g1 ind) (scatter p g2 ind).
Proof.
  intros H j. unfold scatter. cbn [grid_mass grid_velocity].
  destruct (H ind) as [Em Ev]. destruct (H j) as [Em' Ev'].
  unfold upd. destruct (index_eqb j ind); [| auto].
  rewrite Em, Ev. auto.
Qed.

Lemma scatter_all_same (res : Index) (ps : list MPM3Particle)
    (g1 g2 : Grids) :
  same_nodes (scatter_all res ps g1) (scatter_all res ps g2).
Proof.
  unfold scatter_all.
  assert (H0 : same_nodes (reset g1) (reset g2)) by (intros j; split; reflexivity).
  revert H0. generalize (reset g1) (reset g2).
  induction ps as [| p rest IH]; intros a b H; cbn [fold_left]; [exact H |].
  apply IH. unfold scatter_particle.
  revert a b H.
  induction (get_bounded_rasterization_region res (pos p)) as [| ind l IHl];
    intros a b H; cbn [fold_left]; [exact H |].
  apply IHl, scatter_same, H.
Qed.

Lemma scatter_backup (p : MPM3Particle) (inds : list Index) (g : Grids) :
  grid_velocity_backup (fold_left (scatter p) inds g)
  = grid_velocity_backup g.
Proof.
  revert g. induction inds as [| ind rest IH]; intros g; cbn [fold_left];
    [reflexivity |].
  rewrite IH. reflexivity.
Qed.

Lemma scatter_all_backup (res : Index) (ps : list MPM3Particle)
    (g : Grids) :
  grid_velocity_backup (scatter_all res ps g) = grid_velocity_backup g.
Proof.
  unfold scatter_all. change (grid_velocity_backup g)
    with (grid_velocity_backup (reset g)).
  generalize (reset g). induction ps as [| p rest IH]; intros a;
    cbn [fold_left]; [reflexivity |].
  rewrite IH. apply scatter_backup.
Qed.

Lemma normalize_backup (inds : list Index) (g g' : Grids) :
  normalize inds g = Some g' ->
  grid_velocity_backup g' = grid_velocity_backup g.
Proof.
  revert g. induction inds as [| ind rest IH]; intros g H; cbn [normalize] in H.
  - inversion H. reflexivity.
  - destruct (normalize_node g ind) as [g1 |] eqn:E; [| discriminate].
    rewrite (IH g1 H). unfold normalize_node in E.
    destruct (ltb 0 (grid_mass g ind)).
    + destruct (checked_div 1 (grid_mass g ind)); inversion E. reflexivity.
    + inversion E. reflexivity.
Qed.

(** A node in no particle's region is not written by the first loop. *)
Lemma scatter_all_untouched (res : Index) (ps : list MPM3Particle)
    (g : Grids) (ind : Index) :
  (forall p, In p ps ->
     ~ In ind (get_bounded_rasterization_region res (pos p))) ->
  grid_mass (scatter_all res ps g) ind = 0 /\
  grid_velocity (scatter_all res ps g) ind = vconst 0.
Proof.
  unfold scatter_all.
  assert (H0 : grid_mass (reset g) ind = 0 /\
               grid_velocity (reset g) ind = vconst 0) by (split; reflexivity).
  revert H0. generalize (reset g).
  induction ps as [| p rest IH]; intros a H0 H; cbn [fold_left]; [exact H0 |].
  apply IH; [| intros q Hq; apply H; right; exact Hq].
  unfold scatter_particle.
  pose proof (H p (or_introl eq_refl)) as Hp. revert a H0 Hp.
  induction (get_bounded_rasterization_region res (pos p)) as [| j l IHl];
    intros a H0 Hp; cbn [fold_left]; [exact H0 |].
  apply IHl; [| intros Hin; apply Hp; right; exact Hin].
  unfold scatter. cbn [grid_mass grid_velocity].
  rewrite !upd_other by (intros ->; apply Hp; left; reflexivity).
  exact H0.
Qed.

End RasterizeMore.

Import Scalar Linear Kernel Kernel3 Particles Grid Rasterize Measures.
Import KernelFacts SumFacts BoundaryFacts GridFacts RasterizeFacts.
Import LinearFacts RasterizeMore.

(** X6.  [rasterize] rebuilds the grid from the particles alone: the mass
    and velocity of every node after it do not depend on what the arrays
    held before, a node in no particle's region ends with mass [0] and
    velocity [0], and the backup of the velocities is not touched. *)
Theorem rasterize_rebuilds_grid (res : Index) (ps : list MPM3Particle)
    (g1 g2 : Grids) :
  exists g1' g2',
    rasterize res ps g1 = Some g1' /\
    rasterize res ps g2 = Some g2' /\
    same_nodes g1' g2' /\
    grid_velocity_backup g1' = grid_velocity_backup g1 /\
    (forall ind,
       (forall p, In p ps ->
          ~ In ind (get_bounded_rasterization_region res (pos p))) ->
       grid_mass g1' ind = 0 /\ grid_velocity g1' ind = vconst 0).
Proof.
  unfold rasterize.
  destruct (normalize_total (get_region res) (NoDup_get_region res)
              (scatter_all res ps g1))
    as (g1' & Hrun1 & Hm1 & Hpos1 & Hskip1 & Hout1).
  destruct (normalize_total (get_region res) (NoDup_get_region res)
              (scatter_all res ps g2))
    as (g2' & Hrun2 & Hm2 & Hpos2 & Hskip2 & Hout2).
  pose proof (scatter_all_same res ps g1 g2) as Hsame.
  exists g1', g2'. split; [exact Hrun1 |]. split; [exact Hrun2 |].
  split; [| split].
  - intros ind. destruct (Hsame ind) as [Em Ev]. rewrite Hm1, Hm2.
    split; [exact Em |].
    destruct (in_dec index_eq_dec ind (get_region res)) as [Hin | Hnot].
    + destruct (Qlt_le_dec 0 (grid_mass (scatter_all res ps g1) ind))
        as [Hp | Hz].
      * rewrite (Hpos1 ind Hin Hp).
        rewrite (Hpos2 ind Hin) by (rewrite <- Em; exact Hp).
        rewrite Em, Ev. reflexivity.
      * rewrite (Hskip1 ind) by lra.
        rewrite (Hskip2 ind) by (rewrite <- Em; lra). exact Ev.
    + rewrite (Hout1 ind Hnot), (Hout2 ind Hnot). exact Ev.
  - rewrite (normalize_backup _ _ _ Hrun1). apply scatter_all_backup.
  - intros ind Hfree.
    destruct (scatter_all_untouched res ps g1 ind Hfree) as [E0 Ev0].
    rewrite Hm1, E0. split; [reflexivity |].
    rewrite (Hskip1 ind) by (rewrite E0; lra). exact Ev0.
Qed.

(** ** A uniform velocity through rasterize and resample *)

Module UniformFacts.
Import Scalar Linear Kernel Kernel3 Particles Grid Rasterize Measures.
Import Config Resample.
Import KernelFacts SumFacts BoundaryFacts GridFacts RasterizeFacts.
Import LinearFacts ResampleFacts KernelMoments MomentFacts MomentumFacts.

(** The 3D weight does not depend on the direction of the offset. *)
Lemma w3_swap (a b : Vector3) : w3 (vsub a b) == w3 (vsub b a).
Proof.
  unfold w3, vsub. cbn [vx vy vz].
  rewrite <- (w_even (vx b - vx a)), <- (w_even (vy b - vy a)),
    <- (w_even (vz b - vz a)).
  rewrite (w_ext (- (vx b - vx a)) (vx a - vx b)) by ring.
  rewrite (w_ext (- (vy b - vy a)) (vy a - vy b)) by ring.
  rewrite (w_ext (- (vz b - vz a)) (vz a - vz b)) by ring.
  reflexivity.
Qed.

(** With particles of one velocity [u] and no affine part, the velocity
    array holds [mass * u] at every node during the first loop. *)
Lemma scatter_uniform (u : Vector3) (p : MPM3Particle) (g : Grids)
    (ind : Index) :
  v p =v= u -> apic_b p =m= mdiag 0 ->
  (forall j, grid_velocity g j =v= vscale (grid_mass g j) u) ->
  forall j, grid_velocity (scatter p g ind) j
            =v= vscale (grid_mass (scatter p g ind) j) u.
Proof.
  intros (Hx & Hy & Hz) ((B0x & B0y & B0z) & (B1x & B1y & B1z) & B2x & B2y & B2z)
    Hg j.
  cbn [mdiag col0 col1 col2 vx vy vz] in B0x, B0y, B0z, B1x, B1y, B1z,
    B2x, B2y, B2z.
  unfold scatter. cbn [grid_mass grid_velocity].
  destruct (index_eq_dec j ind) as [-> | Hne].
  - rewrite !upd_same. destruct (Hg ind) as (Gx & Gy & Gz).
    unfold veq, mat_vec, mscale, vadd, vscale, vscale_r in *.
    cbn [vx vy vz col0 col1 col2] in *.
    rewrite Gx, Gy, Gz, Hx, Hy, Hz, B0x, B0y, B0z, B1x, B1y, B1z,
      B2x, B2y, B2z.
    repeat split; ring.
  - rewrite !upd_other by exact Hne. apply Hg.
Qed.

Lemma scatter_all_uniform (u : Vector3) (res : Index)
    (ps : list MPM3Particle) (g : Grids) :
  (forall q, In q ps -> v q =v= u /\ apic_b q =m= mdiag 0) ->
  forall j, grid_velocity (scatter_all res ps g) j
            =v= vscale (grid_mass (scatter_all res ps g) j) u.
Proof.
  unfold scatter_all.
  assert (H0 : forall j, grid_velocity (reset g) j
                         =v= vscale (grid_mass (reset g) j) u).
  { intros j. cbn. vec_ring. }
  revert H0. generalize (reset g).
  induction ps as [| p rest IH]; intros a H0 H; cbn [fold_left]; [exact H0 |].
  apply IH; [| intros q Hq; apply H; right; exact Hq].
  destruct (H p (or_introl eq_refl)) as [Hv Hb].
  unfold scatter_particle. revert a H0.
  induction (get_bounded_rasterization_region res (pos p)) as [| ind l IHl];
    intros a H0; cbn [fold_left]; [exact H0 |].
  apply IHl. apply scatter_uniform; assumption.
Qed.

(** The first loop only adds mass when the shares are not negative. *)
Lemma scatter_loop_mass_grows (p : MPM3Particle) (inds : list Index)
    (g : Grids) :
  (forall ind, In ind inds ->
     0 <= w3 (vsub (node_pos ind) (pos p)) * mass p) ->
  (forall j, grid_mass g j <= grid_mass (fold_left (scatter p) inds g) j) /\
  (forall ind, In ind inds ->
     grid_mass g ind + w3 (vsub (node_pos ind) (pos p)) * mass p
     <= grid_mass (fold_left (scatter p) inds g) ind).
Proof.
  revert g. induction inds as [| k rest IH]; intros g Hw; cbn [fold_left].
  - split; [intros j; lra | intros ind []].
  - destruct (IH (scatter p g k)) as [Hmono Hadd];
      [intros ind Hin; apply Hw; right; exact Hin |].
    assert (Hk : 0 <= w3 (vsub (node_pos k) (pos p)) * mass p)
      by (apply Hw; left; reflexivity).
    assert (Hstep : forall j, grid_mass g j <= grid_mass (scatter p g k) j).
    { intros j. unfold scatter. cbn [grid_mass].
      destruct (index_eq_dec j k) as [-> | Hne].
      - rewrite upd_same. lra.
      - rewrite upd_other by exact Hne. lra. }
    split.
    + intros j. specialize (Hmono j). specialize (Hstep j). lra.
    + intros ind [<- | Hin].
      * specialize (Hmono k). unfold scatter in Hmono at 1.
        cbn [grid_mass] in Hmono. rewrite upd_same in Hmono. exact Hmono.
      * specialize (Hadd ind Hin). specialize (Hstep ind). lra.
Qed.

Lemma scatter_particle_mass_grows (res : Index) (g : Grids)
    (p : MPM3Particle) :
  physical p ->
  (forall j, grid_mass g j <= grid_mass (scatter_particle res g p) j) /\
  (forall ind, In ind (get_bounded_rasterization_region res (pos p)) ->
     grid_mass g ind + w3 (vsub (node_pos ind) (pos p)) * mass p
     <= grid_mass (scatter_particle res g p) ind).
Proof.
  intros (Hm & Hx & Hy & Hz). unfold scatter_particle.
  apply scatter_loop_mass_grows. intros ind Hin.
  apply Qmult_le_0_compat; [| exact Hm].
  apply (region_weight_nonneg res (pos p)); assumption.
Qed.

(** After the first loop a node holds at least the share of each particle
    that reaches it. *)
Lemma scatter_all_mass_lower (res : Index) (ps : list MPM3Particle)
    (g : Grids) (p : MPM3Particle) (ind : Index) :
  (forall q, In q ps -> physical q) ->
  In p ps ->
  In ind (get_bounded_rasterization_region res (pos p)) ->
  w3 (vsub (node_pos ind) (pos p)) * mass p
  <= grid_mass (scatter_all res ps g) ind.
Proof.
  intros Hphys Hp Hin. unfold scatter_all.
  assert (H0 : forall j, 0 <= grid_mass (reset g) j) by (intros j; cbn; lra).
  revert H0. generalize (reset g).
  induction ps as [| q rest IH]; intros a H0; [destruct Hp |].
  cbn [fold_left].
  destruct (scatter_particle_mass_grows res a q (Hphys q (or_introl eq_refl)))
    as [Hmono Hadd].
  destruct Hp as [-> | Hp].
  - clear IH.
    assert (Hrest : forall (l : list MPM3Particle) b,
              (forall q, In q l -> physical q) ->
              grid_mass b ind
              <= grid_mass (fold_left (scatter_particle res) l b) ind).
    { induction l as [| r l IHl]; intros b Hl; cbn [fold_left]; [lra |].
      destruct (scatter_particle_mass_grows res b r (Hl r (or_introl eq_refl)))
        as [Hm' _].
      specialize (IHl (scatter_particle res b r)
                      (fun q Hq => Hl q (or_intror Hq))).
      specialize (Hm' ind). lra. }
    specialize (Hrest rest (scatter_particle res a p)
                      (fun q Hq => Hphys q (or_intror Hq))).
    specialize (Hadd ind Hin). specialize (H0 ind). lra.
  - apply IH.
    + intros r Hr. apply Hphys. right. exact Hr.
    + exact Hp.
    + intros j. specialize (Hmono j). specialize (H0 j). lra.
Qed.

(** Gathering a velocity that is [u] wherever the weight is not zero. *)
Lemma weighted_sum_uniform (a : Array3D Vector3) (x u : Vector3)
    (inds : list Index) :
  (forall ind, In ind inds ->
     vscale (w3 (vsub x (node_pos ind))) (a ind)
     =v= vscale (w3 (vsub x (node_pos ind))) u) ->
  weighted_sum a x inds
  =v= vscale (sumQ (fun ind => w3 (vsub x (node_pos ind))) inds) u.
Proof.
  induction inds as [| ind rest IH]; intros H.
  - cbn. vec_ring.
  - cbn [weighted_sum]. rewrite sumQ_cons.
    rewrite IH by (intros j Hj; apply H; right; exact Hj).
    rewrite (H ind) by (left; reflexivity). vec_ring.
Qed.

Lemma region_weights_swapped (res : Index) (x : Vector3) :
  neighborhood_inside res x = true ->
  sumQ (fun ind => w3 (vsub x (node_pos ind)))
       (get_bounded_rasterization_region res x) == 1.
Proof.
  intros H. rewrite <- (region_weights res x H).
  apply sumQ_ext. intros ind _. apply w3_swap.
Qed.

End UniformFacts.

Import Scalar Linear Kernel Kernel3 Particles Grid Rasterize Measures.
Import Config Resample.
Import KernelFacts SumFacts BoundaryFacts GridFacts RasterizeFacts.
Import LinearFacts ResampleFacts UniformFacts.



(** ** The regimes of the boundary conditions *)

Module BoundaryRegimes.
Import Scalar Linear Grid Boundary KernelFacts LinearFacts BoundaryFacts.

Section Regimes.
Variable length : Vector3 -> Q.
Variable normalize : Vector3 -> Vector3.
Variable levelset : DynamicLevelSet3D.
Variable t : Q.

(** A visit of another node does not change this one. *)
Lemma boundary_node_elsewhere (gv : Array3D Vector3) (j ind : Index) :
  ind <> j -> boundary_node length normalize levelset t gv j ind = gv ind.
Proof.
  intros Hne. unfold boundary_node.
  destruct (ltb 1 _ || ltb _ (- (3))); [reflexivity |].
  apply upd_other. exact Hne.
Qed.

(** The visit of a node reads the velocity of that node only. *)
Lemma boundary_node_local (gv gv' : Array3D Vector3) (ind : Index) :
  gv ind = gv' ind ->
  boundary_node length normalize levelset t gv ind ind
  = boundary_node length normalize levelset t gv' ind ind.
Proof.
  intros E. unfold boundary_node.
  destruct (ltb 1 _ || ltb _ (- (3))); [exact E |].
  rewrite !upd_same, E. reflexivity.
Qed.

(** In a list without repetition the visit of a node decides its
    velocity. *)
Lemma boundary_loop_at (points : list Index) (gv : Array3D Vector3)
    (ind : Index) :
  NoDup points -> In ind points ->
  grid_apply_boundary_conditions length normalize levelset t points gv ind
  = boundary_node length normalize levelset t gv ind ind.
Proof.
  unfold grid_apply_boundary_conditions.
  intros Hnd. revert gv. induction Hnd as [| j rest Hj Hnd IH]; intros gv Hin.
  - destruct Hin.
  - cbn [fold_left]. destruct Hin as [-> | Hin].
    + clear IH. 
      assert (Hkeep : forall gv0,
                fold_left (boundary_node length normalize levelset t) rest gv0
                          ind = gv0 ind).
      { clear gv. induction rest as [| k rest IHr]; intros gv0; cbn [fold_left].
        - reflexivity.
        - inversion Hnd; subst.
          rewrite IHr.
          + apply boundary_node_elsewhere. intros ->. apply Hj. left.
            reflexivity.
          + intros H. apply Hj. right. exact H.
          + assumption. }
      apply Hkeep.
    + rewrite (IH _ Hin). apply boundary_node_local.
      apply boundary_node_elsewhere. intros ->. contradiction.
Qed.

Lemma boundary_loop_untouched (points : list Index) (gv : Array3D Vector3)
    (ind : Index) :
  ~ In ind points \/
  1 < sample levelset (sample_pos ind) t \/
  sample levelset (sample_pos ind) t < - (3) ->
  grid_apply_boundary_conditions length normalize levelset t points gv ind
  = gv ind.
Proof.
  unfold grid_apply_boundary_conditions.
  revert gv. induction points as [| j rest IH]; intros gv H; cbn [fold_left].
  - reflexivity.
  - rewrite IH.
    + destruct (index_eq_dec ind j) as [<- | Hne].
      * destruct H as [H | H]; [exfalso; apply H; left; reflexivity |].
        unfold boundary_node.
        replace (ltb 1 _ || ltb _ (- (3))) with true; [reflexivity |].
        symmetry. apply orb_true_iff.
        destruct H as [H | H]; [left | right]; apply ltb_true; exact H.
      * apply boundary_node_elsewhere. exact Hne.
    + destruct H as [H | H]; [left | right; exact H].
      intros Hin. apply H. right. exact Hin.
Qed.

Lemma fmax_nonneg_r (a : Q) : 0 <= fmax 0 a.
Proof.
  unfold fmax. destruct (ltb 0 a) eqn:E; [| lra].
  apply ltb_spec in E. lra.
Qed.

Lemma fmax_zero_l (a : Q) : a <= 0 -> fmax a 0 == 0 \/ fmax a 0 = 0.
Proof.
  intros H. unfold fmax. destruct (ltb a 0) eqn:E; [right; reflexivity |].
  left. unfold ltb in E. destruct (Qlt_le_dec a 0); [discriminate | lra].
Qed.

Lemma clamp_between_zero (a lo hi : Q) :
  lo == 0 -> hi == 0 -> clamp a lo hi == 0.
Proof.
  intros Hl Hh. unfold clamp.
  destruct (ltb a lo) eqn:E1; [exact Hl |].
  destruct (ltb hi a) eqn:E2; [exact Hh |].
  unfold ltb in E1, E2.
  destruct (Qlt_le_dec a lo); [discriminate |].
  destruct (Qlt_le_dec hi a); [discriminate |]. lra.
Qed.

(** The relative velocity a visit reads, and the velocity it writes when
    the node is in the band. *)
Lemma boundary_node_in_band (gv : Array3D Vector3) (ind : Index) :
  sample levelset (sample_pos ind) t <= 1 ->
  - (3) <= sample levelset (sample_pos ind) t ->
  exists v',
    boundary_node length normalize levelset t gv ind ind
    = vadd v' (boundary_velocity_at levelset t ind) /\
    let phi := sample levelset (sample_pos ind) t in
    let n := get_spatial_gradient levelset (sample_pos ind) t in
    let v := vsub (gv ind) (boundary_velocity_at levelset t ind) in
    v' =
    if ltb 0 phi then
      let pressure := fmax (- dot v n) 0 in
      let mu := friction levelset in
      if ltb mu 0 then vconst 0
      else
        let t0 := vsub v (vscale_r n (dot v n)) in
        let t1 := if ltb (1 # 1000000) (length t0) then normalize t0 else t0 in
        let friction :=
          - clamp (dot t1 v) (- mu * pressure) (mu * pressure) in
        vadd (vadd v (vscale_r n pressure)) (vscale_r t1 friction)
    else if ltb phi 0 then vscale_r n (fmax 0 (dot v n))
    else v.
Proof.
  intros H1 H3. unfold boundary_node.
  rewrite (ltb_false 1) by exact H1.
  rewrite (ltb_false _ (- (3))) by exact H3.
  cbn [orb]. rewrite upd_same. eexists. split; reflexivity.
Qed.

End Regimes.

#[export] Instance dot_Proper : Proper (veq ==> veq ==> Qeq) dot.
Proof.
  intros a a' (Hx & Hy & Hz) b b' (Hx' & Hy' & Hz'). unfold dot.
  rewrite Hx, Hy, Hz, Hx', Hy', Hz'. reflexivity.
Qed.

#[export] Instance vscale_r_Proper : Proper (veq ==> Qeq ==> veq) vscale_r.
Proof.
  intros a a' (Hx & Hy & Hz) s s' Hs. unfold veq, vscale_r; cbn.
  rewrite Hs, Hx, Hy, Hz. repeat split; reflexivity.
Qed.

End BoundaryRegimes.

Import Scalar Linear Grid Boundary KernelFacts LinearFacts BoundaryFacts.
Import BoundaryRegimes.

(** X8.  The boundary conditions change only active nodes inside the band
    [-3 <= phi <= 1]: any other node keeps its velocity. *)
Theorem boundary_conditions_leave_other_nodes
    (length : Vector3 -> Q) (normalize : Vector3 -> Vector3)
    (levelset : DynamicLevelSet3D) (t : Q)
    (active_grid_points : list Index) (gv : Array3D Vector3) (ind : Index) :
  ~ In ind active_grid_points \/
  1 < sample levelset (sample_pos ind) t \/
  sample levelset (sample_pos ind) t < - (3) ->
  grid_apply_boundary_conditions length normalize levelset t
    active_grid_points gv ind
  = gv ind.
Proof. apply boundary_loop_untouched. Qed.

Lemma boundary_conditions_leave_other_nodes_witness :
  let levelset :=
    mkLevelSet (fun _ _ => 5) (fun _ _ => mkVector 0 1 0)
               (fun _ _ => 0) (- (1)) in
  let gv : Array3D Vector3 := fun _ => mkVector 1 (- (2)) 0 in
  grid_apply_boundary_conditions (fun _ => 0) (fun a => a) levelset 0
    [(2, 3, 4)%Z] gv (2, 3, 4)%Z
  = mkVector 1 (- (2)) 0.
Proof.
  intros levelset gv.
  apply (boundary_conditions_leave_other_nodes (fun _ => 0) (fun a => a)
           levelset 0 [(2, 3, 4)%Z] gv (2, 3, 4)%Z).
  right. left. reflexivity.
Defined.

(** X9.  A penetrating node ([-3 <= phi < 0]) leaves the loop with a
    velocity relative to the boundary that is a non-negative multiple of
    the normal: nothing of it points into the surface or along it. *)
Theorem penetrating_node_keeps_outward_normal_part
    (length : Vector3 -> Q) (normalize : Vector3 -> Vector3)
    (levelset : DynamicLevelSet3D) (t : Q)
    (active_grid_points : list Index) (gv : Array3D Vector3) (ind : Index) :
  In ind active_grid_points ->
  - (3) <= sample levelset (sample_pos ind) t ->
  sample levelset (sample_pos ind) t < 0 ->
  exists s,
    0 <= s /\
    grid_apply_boundary_conditions length normalize levelset t
      active_grid_points gv ind
    =v= vadd (vscale_r (get_spatial_gradient levelset (sample_pos ind) t) s)
             (boundary_velocity_at levelset t ind).
Proof.
  intros Hin H3 H0.
  set (n := get_spatial_gradient levelset (sample_pos ind) t).
  set (bv := boundary_velocity_at levelset t ind).
  set (good := fun x : Vector3 =>
                 exists s, 0 <= s /\ x =v= vadd (vscale_r n s) bv).
  assert (Hvisit : forall gv0,
            good (boundary_node length normalize levelset t gv0 ind ind)).
  { intros gv0.
    destruct (boundary_node_in_band length normalize levelset t gv0 ind)
      as (v' & -> & Hv'); [lra | exact H3 |].
    cbn zeta in Hv'. rewrite (ltb_false 0) in Hv' by lra.
    rewrite (ltb_true _ 0) in Hv' by exact H0. subst v'.
    eexists. split; [apply fmax_nonneg_r | reflexivity]. }
  assert (Hloop : forall points gv0,
            In ind points \/ good (gv0 ind) ->
            good (grid_apply_boundary_conditions length normalize levelset t
                    points gv0 ind)).
  { unfold grid_apply_boundary_conditions.
    induction points as [| j rest IH]; intros gv0 H; cbn [fold_left].
    - destruct H as [[] | H]. exact H.
    - apply IH. destruct (index_eq_dec ind j) as [<- | Hne].
      + right. apply Hvisit.
      + rewrite boundary_node_elsewhere by exact Hne.
        destruct H as [[-> | H] | H]; [contradiction | left | right]; exact H. }
  apply Hloop. left. exact Hin.
Qed.

Lemma penetrating_node_keeps_outward_normal_part_witness :
  let levelset :=
    mkLevelSet (fun _ _ => - (1 # 2)) (fun _ _ => mkVector 0 1 0)
               (fun _ _ => 0) (1 # 2) in
  let gv : Array3D Vector3 := fun _ => mkVector 1 (- (2)) 0 in
  exists s,
    0 <= s /\
    grid_apply_boundary_conditions (fun _ => 0) (fun a => a) levelset 0
      [(2, 3, 4)%Z] gv (2, 3, 4)%Z
    =v= vadd (vscale_r (mkVector 0 1 0) s)
             (boundary_velocity_at levelset 0 (2, 3, 4)%Z).
Proof.
  intros levelset gv.
  apply (penetrating_node_keeps_outward_normal_part (fun _ => 0)
           (fun a => a) levelset 0 [(2, 3, 4)%Z] gv (2, 3, 4)%Z).
  - left. reflexivity.
  - discriminate.
  - reflexivity.
Defined.

(** X10.  Nodes the band leaves alone.  With the active grid points listed
    once, a node exactly on the surface ([phi = 0]), and a node outside it
    ([0 < phi <= 1]) with a friction coefficient that is not negative
    whose velocity relative to the boundary does not point into the
    surface, keep their velocity. *)
Theorem separating_node_keeps_velocity
    (length : Vector3 -> Q) (normalize : Vector3 -> Vector3)
    (levelset : DynamicLevelSet3D) (t : Q)
    (active_grid_points : list Index) (gv : Array3D Vector3) (ind : Index) :
  let phi := sample levelset (sample_pos ind) t in
  let n := get_spatial_gradient levelset (sample_pos ind) t in
  let v := vsub (gv ind) (boundary_velocity_at levelset t ind) in
  NoDup active_grid_points ->
  In ind active_grid_points ->
  phi == 0 \/
  (0 < phi /\ phi <= 1 /\ 0 <= friction levelset /\ 0 <= dot v n) ->
  grid_apply_boundary_conditions length normalize levelset t
    active_grid_points gv ind
  =v= gv ind.
Proof.
  intros phi n v Hnd Hin Hcase.
  rewrite (boundary_loop_at length normalize levelset t _ _ _ Hnd Hin).
  destruct (boundary_node_in_band length normalize levelset t gv ind)
    as (v' & -> & Hv'); [fold phi; destruct Hcase; lra ..|].
  cbn zeta in Hv'. fold phi n v in Hv'.
  destruct Hcase as [Hz | (Hpos & Hle & Hmu & Hsep)].
  - rewrite (ltb_false 0), (ltb_false phi 0) in Hv' by lra. subst v'.
    unfold v. vec_ring.
  - rewrite (ltb_true 0) in Hv' by exact Hpos.
    rewrite (ltb_false _ 0) in Hv' by exact Hmu.
    assert (Hp : fmax (- dot v n) 0 == 0).
    { unfold fmax. destruct (ltb (- dot v n) 0) eqn:E; [reflexivity |].
      unfold ltb in E. destruct (Qlt_le_dec (- dot v n) 0); [discriminate |].
      lra. }
    set (p := fmax (- dot v n) 0) in *.
    match type of Hv' with
    | context [clamp ?a ?lo ?hi] =>
        assert (Hf : clamp a lo hi == 0)
          by (apply clamp_between_zero; rewrite Hp; ring);
        set (f := clamp a lo hi) in *
    end.
    match type of Hv' with
    | context [vscale_r ?t1 (- f)] => set (tangent := t1) in *
    end.
    subst v'. unfold veq, vadd, vscale_r. cbn [vx vy vz].
    rewrite Hp, Hf. unfold v, vsub. cbn [vx vy vz]. repeat split; ring.
Qed.

Lemma separating_node_keeps_velocity_witness :
  let levelset :=
    mkLevelSet (fun _ _ => 1 # 2) (fun _ _ => mkVector 0 1 0)
               (fun _ _ => 0) (1 # 2) in
  let gv : Array3D Vector3 := fun _ => mkVector 1 2 0 in
  grid_apply_boundary_conditions (fun _ => 0) (fun a => a) levelset 0
    [(2, 3, 4)%Z] gv (2, 3, 4)%Z
  =v= mkVector 1 2 0.
Proof.
  intros levelset gv.
  apply (separating_node_keeps_velocity (fun _ => 0) (fun a => a)
           levelset 0 [(2, 3, 4)%Z] gv (2, 3, 4)%Z).
  - repeat constructor. intros [].
  - left. reflexivity.
  - right. cbn. repeat split; discriminate || reflexivity.
Defined.

(** X11.  Frictionless contact.  With the active grid points listed once,
    a node outside the surface ([0 < phi <= 1]) and a friction coefficient
    of zero, the loop adds [pressure = max(-v.n, 0)] times the normal to
    the velocity and nothing else; for a unit normal the velocity relative
    to the boundary then has no component into the surface. *)
Theorem frictionless_contact_is_free_slip
    (length : Vector3 -> Q) (normalize : Vector3 -> Vector3)
    (levelset : DynamicLevelSet3D) (t : Q)
    (active_grid_points : list Index) (gv : Array3D Vector3) (ind : Index) :
  let phi := sample levelset (sample_pos ind) t in
  let n := get_spatial_gradient levelset (sample_pos ind) t in
  let bv := boundary_velocity_at levelset t ind in
  let v := vsub (gv ind) bv in
  let out :=
    grid_apply_boundary_conditions length normalize levelset t
      active_grid_points gv ind in
  NoDup active_grid_points ->
  In ind active_grid_points ->
  0 < phi -> phi <= 1 -> friction levelset == 0 ->
  out =v= vadd (gv ind) (vscale_r n (fmax (- dot v n) 0)) /\
  (dot n n == 1 ->
   0 <= dot (vsub out bv) n /\
   (dot v n <= 0 -> dot (vsub out bv) n == 0)).
Proof.
  intros phi n bv v out Hnd Hin Hpos Hle Hmu. subst out.
  rewrite (boundary_loop_at length normalize levelset t _ _ _ Hnd Hin).
  destruct (boundary_node_in_band length normalize levelset t gv ind)
    as (v' & -> & Hv'); [fold phi; lra ..|].
  cbn zeta in Hv'. fold phi n bv v in Hv'.
  rewrite (ltb_true 0) in Hv' by exact Hpos.
  rewrite (ltb_false _ 0) in Hv' by lra.
  set (p := fmax (- dot v n) 0) in *.
  match type of Hv' with
  | context [clamp ?a ?lo ?hi] =>
      assert (Hf : clamp a lo hi == 0)
        by (apply clamp_between_zero; rewrite Hmu; ring);
      set (f := clamp a lo hi) in *
  end.
  match type of Hv' with
  | context [vscale_r ?t1 (- f)] => set (tangent := t1) in *
  end.
  assert (Hrel : v' =v= vadd v (vscale_r n p)).
  { subst v'. unfold veq, vadd, vscale_r. cbn [vx vy vz].
    rewrite Hf. repeat split; ring. }
  fold bv. split.
  - rewrite Hrel. unfold v. vec_ring.
  - intros Hunit.
    assert (Hd : dot (vsub (vadd v' bv) bv) n == dot v n + p).
    { assert (E : vsub (vadd v' bv) bv =v= vadd v (vscale_r n p))
        by (rewrite Hrel; vec_ring).
      rewrite E.
      transitivity (dot v n + p * dot n n).
      - unfold dot, vadd, vscale_r. cbn [vx vy vz]. ring.
      - rewrite Hunit. ring. }
    rewrite Hd. unfold p, fmax.
    destruct (ltb (- dot v n) 0) eqn:E.
    + apply ltb_spec in E. split; [lra |]. intros H. lra.
    + split; [lra |]. intros _. ring.
Qed.

Lemma frictionless_contact_is_free_slip_witness :
  let levelset :=
    mkLevelSet (fun _ _ => 1 # 2) (fun _ _ => mkVector 0 1 0)
               (fun _ _ => 0) 0 in
  let gv : Array3D Vector3 := fun _ => mkVector 1 (- (2)) 0 in
  grid_apply_boundary_conditions (fun _ => 0) (fun a => a) levelset 0
    [(2, 3, 4)%Z] gv (2, 3, 4)%Z
  =v= mkVector 1 0 0.
Proof.
  intros levelset gv.
  destruct (frictionless_contact_is_free_slip (fun _ => 0) (fun a => a)
              levelset 0 [(2, 3, 4)%Z] gv (2, 3, 4)%Z)
    as ((Hx & Hy & Hz) & _).
  - repeat constructor. intros [].
  - left. reflexivity.
  - reflexivity.
  - discriminate.
  - reflexivity.
  - split; [| split].
    + exact (Qeq_trans _ _ _ Hx eq_refl).
    + exact (Qeq_trans _ _ _ Hy eq_refl).
    + exact (Qeq_trans _ _ _ Hz eq_refl).
Defined.

(** ** Resample on an affine velocity field *)

Module AffineFacts.
Import Scalar Linear Kernel Kernel3 Particles Grid Rasterize Measures.
Import Config Resample.
Import KernelFacts SumFacts BoundaryFacts GridFacts RasterizeFacts.
Import LinearFacts ResampleFacts KernelMoments MomentFacts MomentumFacts.
Import BoundaryRegimes UniformFacts.

#[export] Instance madd_Proper : Proper (meq ==> meq ==> meq) madd.
Proof.
  intros a a' (H0 & H1 & H2) b b' (H0' & H1' & H2'). unfold meq, madd; cbn.
  rewrite H0, H1, H2, H0', H1', H2'. repeat split; reflexivity.
Qed.

#[export] Instance mscale_Proper : Proper (Qeq ==> meq ==> meq) mscale.
Proof.
  intros s s' Hs a a' (H0 & H1 & H2). unfold meq, mscale; cbn.
  rewrite Hs, H0, H1, H2. repeat split; reflexivity.
Qed.

#[export] Instance mscale_r_Proper : Proper (meq ==> Qeq ==> meq) mscale_r.
Proof.
  intros a a' (H0 & H1 & H2) s s' Hs. unfold meq, mscale_r; cbn.
  rewrite Hs, H0, H1, H2. repeat split; reflexivity.
Qed.

#[export] Instance mat_vec_Proper : Proper (meq ==> veq ==> veq) mat_vec.
Proof.
  intros a a' (H0 & H1 & H2) b b' (Hx & Hy & Hz). unfold mat_vec.
  rewrite H0, H1, H2, Hx, Hy, Hz. reflexivity.
Qed.

#[export] Instance mat_mul_Proper : Proper (meq ==> meq ==> meq) mat_mul.
Proof.
  intros a a' Ha b b' (H0 & H1 & H2). unfold meq, mat_mul; cbn.
  rewrite Ha, H0, H1, H2. repeat split; reflexivity.
Qed.

(** Entry-by-entry equations of polynomials in the entries. *)
Ltac mat_ring :=
  unfold meq, madd, mscale, mscale_r, mdiag, outerProduct, mat_mul, mat_vec;
  cbn [col0 col1 col2];
  unfold veq, vadd, vsub, vneg, vscale, vscale_r, vconst;
  cbn [vx vy vz col0 col1 col2];
  repeat split; ring.

Lemma vsum_nil {A : Type} (f : A -> Vector3) : vsum f [] = vconst 0.
Proof. reflexivity. Qed.

Lemma vsum_plus {A : Type} (f h : A -> Vector3) (l : list A) :
  vsum (fun a => vadd (f a) (h a)) l =v= vadd (vsum f l) (vsum h l).
Proof.
  induction l as [| a l IH].
  - rewrite !vsum_nil. vec_ring.
  - rewrite !vsum_cons, IH. vec_ring.
Qed.

Lemma vsum_scale_const {A : Type} (f : A -> Q) (V : Vector3) (l : list A) :
  vsum (fun a => vscale (f a) V) l =v= vscale (sumQ f l) V.
Proof.
  induction l as [| a l IH].
  - rewrite vsum_nil, sumQ_nil. vec_ring.
  - rewrite vsum_cons, sumQ_cons, IH. vec_ring.
Qed.

Lemma msum_cons {A : Type} (f : A -> Matrix) (a : A) (l : list A) :
  msum f (a :: l) = madd (f a) (msum f l).
Proof. reflexivity. Qed.

(** The columns of a sum of matrices. *)
Lemma msum_columns {A : Type} (f : A -> Matrix) (l : list A) :
  col0 (msum f l) = vsum (fun a => col0 (f a)) l /\
  col1 (msum f l) = vsum (fun a => col1 (f a)) l /\
  col2 (msum f l) = vsum (fun a => col2 (f a)) l.
Proof.
  induction l as [| a l (H0 & H1 & H2)].
  - repeat split.
  - rewrite msum_cons, !vsum_cons. cbn [madd col0 col1 col2].
    rewrite H0, H1, H2. repeat split.
Qed.

Lemma madd_assoc (a b c : Matrix) : madd (madd a b) c =m= madd a (madd b c).
Proof. mat_ring. Qed.

Lemma madd_zero_l (a : Matrix) : madd (mdiag 0) a =m= a.
Proof. mat_ring. Qed.

(** The two matrices the loop of [resample] builds. *)
Lemma gather_loop_matrices (g : Grids) (p : MPM3Particle)
    (inds : list Index) (acc : Gather) :
  let acc' := fold_left (gather_step g p) inds acc in
  g_b acc'
  =m= madd (g_b acc)
        (msum (fun ind =>
                 mscale (w3 (vsub (pos p) (node_pos ind)))
                        (outerProduct (grid_velocity g ind)
                                      (vneg (vsub (pos p) (node_pos ind)))))
              inds) /\
  g_cdg acc'
  =m= madd (g_cdg acc)
        (msum (fun ind =>
                 outerProduct (grid_velocity g ind)
                              (dw3 (vsub (pos p) (node_pos ind))))
              inds).
Proof.
  revert acc. induction inds as [| ind rest IH]; intros acc; cbn zeta.
  - cbn [fold_left msum fold_right]. split; mat_ring.
  - cbn [fold_left]. destruct (IH (gather_step g p acc ind)) as (Hb & Hc).
    split.
    + rewrite Hb, msum_cons. cbn [gather_step g_b]. apply madd_assoc.
    + rewrite Hc, msum_cons. cbn [gather_step g_cdg]. apply madd_assoc.
Qed.

Lemma gather_matrices (cfg : Config) (g : Grids) (p : MPM3Particle) :
  let region := get_bounded_rasterization_region (res cfg) (pos p) in
  g_b (gather cfg g p)
  =m= msum (fun ind =>
              mscale (w3 (vsub (pos p) (node_pos ind)))
                     (outerProduct (grid_velocity g ind)
                                   (vneg (vsub (pos p) (node_pos ind)))))
           region /\
  g_cdg (gather cfg g p)
  =m= msum (fun ind =>
              outerProduct (grid_velocity g ind)
                           (dw3 (vsub (pos p) (node_pos ind))))
           region.
Proof.
  intros region. unfold gather. fold region.
  destruct (gather_loop_matrices g p region gather_init) as (Hb & Hc).
  split.
  - rewrite Hb. apply madd_zero_l.
  - rewrite Hc. apply madd_zero_l.
Qed.

Lemma wm0_ext (a b : Q) : a == b -> wm0 a == wm0 b.
Proof. intros E. unfold wm0. apply w_ext. rewrite E. reflexivity. Qed.

Lemma wm1_ext (a b : Q) : a == b -> wm1 a == wm1 b.
Proof.
  intros E. unfold wm1. rewrite (w_ext (- a) (- b)) by (rewrite E; reflexivity).
  rewrite E. reflexivity.
Qed.

Lemma wm2_ext (a b : Q) : a == b -> wm2 a == wm2 b.
Proof.
  intros E. unfold wm2. rewrite (w_ext (- a) (- b)) by (rewrite E; reflexivity).
  rewrite E. reflexivity.
Qed.

Lemma gm0_ext (a b : Q) : a == b -> gm0 a == gm0 b.
Proof. intros E. unfold gm0. apply dw_ext. rewrite E. reflexivity. Qed.

Lemma gm1_ext (a b : Q) : a == b -> gm1 a == gm1 b.
Proof.
  intros E. unfold gm1.
  rewrite (dw_ext (- a) (- b)) by (rewrite E; reflexivity).
  rewrite E. reflexivity.
Qed.

(** Their sums over the stencil. *)
Lemma stencil_moments (f : Q) :
  0 <= f -> f < 1 ->
  sumQ wm0 (stencil (-1) 4 f) == 1 /\
  sumQ wm1 (stencil (-1) 4 f) == 0 /\
  sumQ wm2 (stencil (-1) 4 f) == 1 # 3 /\
  sumQ gm0 (stencil (-1) 4 f) == 0 /\
  sumQ gm1 (stencil (-1) 4 f) == 1.
Proof.
  intros H0 H1.
  split; [| split; [| split; [| split]]].
  - rewrite <- (s_w f H0 H1). apply sumQ_ext. intros t _. apply w_even.
  - rewrite <- (s_wx f H0 H1). apply sumQ_ext. intros t _. unfold wm1.
    rewrite w_even. reflexivity.
  - rewrite <- (s_wxx f H0 H1). apply sumQ_ext. intros t _. unfold wm2.
    rewrite w_even. reflexivity.
  - transitivity (- (1) * sumQ dw (stencil (-1) 4 f)).
    + rewrite <- sumQ_scale_l. apply sumQ_ext. intros t _. unfold gm0.
      rewrite dw_odd. ring.
    + rewrite (s_dw f H0 H1). ring.
  - transitivity (- (1) * sumQ (fun x => dw x * x) (stencil (-1) 4 f)).
    + rewrite <- sumQ_scale_l. apply sumQ_ext. intros t _. unfold gm1.
      rewrite dw_odd. ring.
    + rewrite (s_dwx f H0 H1). ring.
Qed.

Lemma inside_fracs (res : Index) (x : Vector3) :
  neighborhood_inside res x = true ->
  (0 <= frac (vx x) /\ frac (vx x) < 1) /\
  (0 <= frac (vy x) /\ frac (vy x) < 1) /\
  (0 <= frac (vz x) /\ frac (vz x) < 1).
Proof.
  destruct res as [[rx ry] rz]. unfold neighborhood_inside. intros H.
  apply andb_true_iff in H. destruct H as [H Hz].
  apply andb_true_iff in H. destruct H as [Hx Hy].
  pose proof (frac_range rx _ Hx). pose proof (frac_range ry _ Hy).
  pose proof (frac_range rz _ Hz). tauto.
Qed.

(** The sum over a full neighborhood of a product of such factors of the
    offsets of [resample]. *)
Lemma region_moment (hx hy hz : Q -> Q) (F : Index -> Q) (res : Index)
    (x : Vector3) (sx sy sz : Q) :
  (forall a b, a == b -> hx a == hx b) ->
  (forall a b, a == b -> hy a == hy b) ->
  (forall a b, a == b -> hz a == hz b) ->
  neighborhood_inside res x = true ->
  sumQ hx (stencil (-1) 4 (frac (vx x))) == sx ->
  sumQ hy (stencil (-1) 4 (frac (vy x))) == sy ->
  sumQ hz (stencil (-1) 4 (frac (vz x))) == sz ->
  (forall i j k,
     F (i, j, k)
     == hx (of_int i - vx x) * hy (of_int j - vy x) * hz (of_int k - vz x)) ->
  sumQ F (get_bounded_rasterization_region res x) == sx * sy * sz.
Proof.
  intros Hx Hy Hz Hin Sx Sy Sz HF.
  rewrite (region_product_sum hx hy hz F res x Hx Hy Hz HF Hin).
  rewrite Sx, Sy, Sz. reflexivity.
Qed.

(** The offsets of [resample] in the arguments of [w] and [dw], turned
    to node minus particle. *)
Ltac pointwise' :=
  intros ? ? ?;
  unfold node_weight, node_offset, node_gradient, w3, dw3, vneg, vsub,
    node_pos;
  cbn [vx vy vz];
  repeat match goal with
    | |- context [w (?c - of_int ?i)] =>
        rewrite (w_ext (c - of_int i) (- (of_int i - c))) by ring
    | |- context [dw (?c - of_int ?i)] =>
        rewrite (dw_ext (c - of_int i) (- (of_int i - c))) by ring
    end;
  unfold wm0, wm1, wm2, gm0, gm1; ring.

Section Moments.
Variable res : Index.
Variable x : Vector3.
Hypothesis inside : neighborhood_inside res x = true.

Ltac moment hx hy hz sx sy sz :=
  rewrite (region_moment hx hy hz _ res x sx sy sz);
  auto using wm0_ext, wm1_ext, wm2_ext, gm0_ext, gm1_ext;
  [ring | pointwise'].

Ltac stencils :=
  destruct (inside_fracs res x inside) as ((X0 & X1) & (Y0 & Y1) & Z0 & Z1);
  destruct (stencil_moments _ X0 X1) as (Xa & Xb & Xc & Xd & Xe);
  destruct (stencil_moments _ Y0 Y1) as (Ya & Yb & Yc & Yd & Ye);
  destruct (stencil_moments _ Z0 Z1) as (Za & Zb & Zc & Zd & Ze).

Lemma moments_of_weight :
  sumQ (node_weight x) (get_bounded_rasterization_region res x)
  == 1 /\
  sumQ (fun ind => node_weight x ind * vx (node_offset x ind)) (get_bounded_rasterization_region res x)
  == 0 /\
  sumQ (fun ind => node_weight x ind * vy (node_offset x ind)) (get_bounded_rasterization_region res x)
  == 0 /\
  sumQ (fun ind => node_weight x ind * vz (node_offset x ind)) (get_bounded_rasterization_region res x)
  == 0.
Proof.
  stencils. split; [| split; [| split]].
  - moment wm0 wm0 wm0 1 1 1.
  - moment wm1 wm0 wm0 0 1 1.
  - moment wm0 wm1 wm0 1 0 1.
  - moment wm0 wm0 wm1 1 1 0.
Qed.

Lemma second_moments_x :
  sumQ (fun ind => node_weight x ind * vx (node_offset x ind) * vx (node_offset x ind)) (get_bounded_rasterization_region res x)
  == 1 # 3 /\
  sumQ (fun ind => node_weight x ind * vx (node_offset x ind) * vy (node_offset x ind)) (get_bounded_rasterization_region res x)
  == 0 /\
  sumQ (fun ind => node_weight x ind * vx (node_offset x ind) * vz (node_offset x ind)) (get_bounded_rasterization_region res x)
  == 0.
Proof.
  stencils. split; [| split].
  - moment wm2 wm0 wm0 (1 # 3) 1 1.
  - moment wm1 wm1 wm0 0 0 1.
  - moment wm1 wm0 wm1 0 1 0.
Qed.

Lemma second_moments_y :
  sumQ (fun ind => node_weight x ind * vy (node_offset x ind) * vx (node_offset x ind)) (get_bounded_rasterization_region res x)
  == 0 /\
  sumQ (fun ind => node_weight x ind * vy (node_offset x ind) * vy (node_offset x ind)) (get_bounded_rasterization_region res x)
  == 1 # 3 /\
  sumQ (fun ind => node_weight x ind * vy (node_offset x ind) * vz (node_offset x ind)) (get_bounded_rasterization_region res x)
  == 0.
Proof.
  stencils. split; [| split].
  - moment wm1 wm1 wm0 0 0 1.
  - moment wm0 wm2 wm0 1 (1 # 3) 1.
  - moment wm0 wm1 wm1 1 0 0.
Qed.

Lemma second_moments_z :
  sumQ (fun ind => node_weight x ind * vz (node_offset x ind) * vx (node_offset x ind)) (get_bounded_rasterization_region res x)
  == 0 /\
  sumQ (fun ind => node_weight x ind * vz (node_offset x ind) * vy (node_offset x ind)) (get_bounded_rasterization_region res x)
  == 0 /\
  sumQ (fun ind => node_weight x ind * vz (node_offset x ind) * vz (node_offset x ind)) (get_bounded_rasterization_region res x)
  == 1 # 3.
Proof.
  stencils. split; [| split].
  - moment wm1 wm0 wm1 0 1 0.
  - moment wm0 wm1 wm1 1 0 0.
  - moment wm0 wm0 wm2 1 1 (1 # 3).
Qed.

Lemma gradient_moments_x :
  sumQ (fun ind => vx (node_gradient x ind)) (get_bounded_rasterization_region res x)
  == 0 /\
  sumQ (fun ind => vx (node_gradient x ind) * vx (node_offset x ind)) (get_bounded_rasterization_region res x)
  == 1 /\
  sumQ (fun ind => vx (node_gradient x ind) * vy (node_offset x ind)) (get_bounded_rasterization_region res x)
  == 0 /\
  sumQ (fun ind => vx (node_gradient x ind) * vz (node_offset x ind)) (get_bounded_rasterization_region res x)
  == 0.
Proof.
  stencils. split; [| split; [| split]].
  - moment gm0 wm0 wm0 0 1 1.
  - moment gm1 wm0 wm0 1 1 1.
  - moment gm0 wm1 wm0 0 0 1.
  - moment gm0 wm0 wm1 0 1 0.
Qed.

Lemma gradient_moments_y :
  sumQ (fun ind => vy (node_gradient x ind)) (get_bounded_rasterization_region res x)
  == 0 /\
  sumQ (fun ind => vy (node_gradient x ind) * vx (node_offset x ind)) (get_bounded_rasterization_region res x)
  == 0 /\
  sumQ (fun ind => vy (node_gradient x ind) * vy (node_offset x ind)) (get_bounded_rasterization_region res x)
  == 1 /\
  sumQ (fun ind => vy (node_gradient x ind) * vz (node_offset x ind)) (get_bounded_rasterization_region res x)
  == 0.
Proof.
  stencils. split; [| split; [| split]].
  - moment wm0 gm0 wm0 1 0 1.
  - moment wm1 gm0 wm0 0 0 1.
  - moment wm0 gm1 wm0 1 1 1.
  - moment wm0 gm0 wm1 1 0 0.
Qed.

Lemma gradient_moments_z :
  sumQ (fun ind => vz (node_gradient x ind)) (get_bounded_rasterization_region res x)
  == 0 /\
  sumQ (fun ind => vz (node_gradient x ind) * vx (node_offset x ind)) (get_bounded_rasterization_region res x)
  == 0 /\
  sumQ (fun ind => vz (node_gradient x ind) * vy (node_offset x ind)) (get_bounded_rasterization_region res x)
  == 0 /\
  sumQ (fun ind => vz (node_gradient x ind) * vz (node_offset x ind)) (get_bounded_rasterization_region res x)
  == 1.
Proof.
  stencils. split; [| split; [| split]].
  - moment wm0 wm0 gm0 1 1 0.
  - moment wm1 wm0 gm0 0 1 0.
  - moment wm0 wm1 gm0 1 0 0.
  - moment wm0 wm0 gm1 1 1 1.
Qed.

End Moments.

(** A weighted sum of an affine field over the nodes, from the moments
    of the weights. *)
Lemma affine_weighted_sum (omega : Index -> Q) (e vel : Index -> Vector3)
    (V : Vector3) (A : Matrix) (l : list Index) (m0 mx my mz : Q) :
  (forall ind, In ind l -> vel ind =v= vadd V (mat_vec A (e ind))) ->
  sumQ omega l == m0 ->
  sumQ (fun ind => omega ind * vx (e ind)) l == mx ->
  sumQ (fun ind => omega ind * vy (e ind)) l == my ->
  sumQ (fun ind => omega ind * vz (e ind)) l == mz ->
  vsum (fun ind => vscale (omega ind) (vel ind)) l
  =v= vadd (vscale m0 V) (mat_vec A (mkVector mx my mz)).
Proof.
  intros Hvel H0 Hx Hy Hz.
  rewrite (vsum_ext _ (fun ind =>
             vscale (omega ind) (vadd V (mat_vec A (e ind))))).
  2:{ intros ind Hin. rewrite (Hvel ind Hin). reflexivity. }
  destruct (vsum_components
              (fun ind => vscale (omega ind) (vadd V (mat_vec A (e ind)))) l)
    as (Ex & Ey & Ez).
  assert (Hlin : forall a b c d : Q,
            sumQ (fun ind => a * omega ind + b * (omega ind * vx (e ind))
                             + c * (omega ind * vy (e ind))
                             + d * (omega ind * vz (e ind))) l
            == a * m0 + b * mx + c * my + d * mz).
  { intros a b c d.
    rewrite !sumQ_plus, !sumQ_scale_l, H0, Hx, Hy, Hz. ring. }
  unfold veq. rewrite Ex, Ey, Ez.
  unfold mat_vec, vadd, vscale, vscale_r. cbn [vx vy vz].
  split; [| split].
  - transitivity
      (sumQ (fun ind => vx V * omega ind
                        + vx (col0 A) * (omega ind * vx (e ind))
                        + vx (col1 A) * (omega ind * vy (e ind))
                        + vx (col2 A) * (omega ind * vz (e ind))) l);
      [apply sumQ_ext; intros ind _; ring | rewrite Hlin; ring].
  - transitivity
      (sumQ (fun ind => vy V * omega ind
                        + vy (col0 A) * (omega ind * vx (e ind))
                        + vy (col1 A) * (omega ind * vy (e ind))
                        + vy (col2 A) * (omega ind * vz (e ind))) l);
      [apply sumQ_ext; intros ind _; ring | rewrite Hlin; ring].
  - transitivity
      (sumQ (fun ind => vz V * omega ind
                        + vz (col0 A) * (omega ind * vx (e ind))
                        + vz (col1 A) * (omega ind * vy (e ind))
                        + vz (col2 A) * (omega ind * vz (e ind))) l);
      [apply sumQ_ext; intros ind _; ring | rewrite Hlin; ring].
Qed.

Lemma weighted_sum_vsum (a : Array3D Vector3) (x : Vector3)
    (inds : list Index) :
  weighted_sum a x inds
  = vsum (fun ind => vscale (node_weight x ind) (a ind)) inds.
Proof.
  induction inds as [| ind rest IH]; [reflexivity |].
  cbn [weighted_sum]. rewrite vsum_cons, IH. reflexivity.
Qed.

(** An affine field seen from the particle. *)
Lemma affine_field_offset (c : Vector3) (A : Matrix) (x : Vector3)
    (ind : Index) :
  affine_field c A (node_pos ind)
  =v= vadd (affine_field c A x) (mat_vec A (node_offset x ind)).
Proof.
  unfold affine_field, node_offset, mat_vec, vneg, vsub, vadd, vscale_r.
  cbn [vx vy vz]. unfold veq. cbn [vx vy vz]. repeat split; ring.
Qed.

(** What the loop of [resample] gathers from an affine field. *)
Lemma gather_affine (cfg : Config) (g : Grids) (p : MPM3Particle)
    (c : Vector3) (A : Matrix) :
  neighborhood_inside (res cfg) (pos p) = true ->
  (forall ind,
     In ind (get_bounded_rasterization_region (res cfg) (pos p)) ->
     grid_velocity g ind =v= affine_field c A (node_pos ind)) ->
  g_v (gather cfg g p) =v= affine_field c A (pos p) /\
  g_b (gather cfg g p) =m= mscale (1 # 3) A /\
  g_cdg (gather cfg g p) =m= A.
Proof.
  intros Hin Hfield.
  set (R := get_bounded_rasterization_region (res cfg) (pos p)) in *.
  set (V := affine_field c A (pos p)).
  assert (Hvel : forall ind, In ind R ->
            grid_velocity g ind
            =v= vadd V (mat_vec A (node_offset (pos p) ind))).
  { intros ind Hr. rewrite (Hfield ind Hr). apply affine_field_offset. }
  destruct (moments_of_weight (res cfg) (pos p) Hin) as (M0 & M1x & M1y & M1z).
  destruct (second_moments_x (res cfg) (pos p) Hin) as (Mxx & Mxy & Mxz).
  destruct (second_moments_y (res cfg) (pos p) Hin) as (Myx & Myy & Myz).
  destruct (second_moments_z (res cfg) (pos p) Hin) as (Mzx & Mzy & Mzz).
  destruct (gradient_moments_x (res cfg) (pos p) Hin)
    as (Gx & Gxx & Gxy & Gxz).
  destruct (gradient_moments_y (res cfg) (pos p) Hin)
    as (Gy & Gyx & Gyy & Gyz).
  destruct (gradient_moments_z (res cfg) (pos p) Hin)
    as (Gz & Gzx & Gzy & Gzz).
  fold R in M0, M1x, M1y, M1z, Mxx, Mxy, Mxz, Myx, Myy, Myz, Mzx, Mzy, Mzz,
    Gx, Gxx, Gxy, Gxz, Gy, Gyx, Gyy, Gyz, Gz, Gzx, Gzy, Gzz.
  destruct (gather_velocity cfg g p) as (Hv & _ & _).
  destruct (gather_matrices cfg g p) as (Hb & Hc).
  fold R in Hv, Hb, Hc.
  split; [| split].
  - rewrite Hv, weighted_sum_vsum.
    rewrite (affine_weighted_sum (node_weight (pos p)) (node_offset (pos p))
               (grid_velocity g) V A R 1 0 0 0 Hvel M0 M1x M1y M1z).
    unfold mat_vec, vadd, vscale, vscale_r, veq. cbn [vx vy vz].
    repeat split; ring.
  - rewrite Hb.
    destruct (msum_columns
                (fun ind =>
                   mscale (w3 (vsub (pos p) (node_pos ind)))
                          (outerProduct (grid_velocity g ind)
                             (vneg (vsub (pos p) (node_pos ind))))) R)
      as (C0 & C1 & C2).
    unfold meq. rewrite C0, C1, C2. cbn [mscale col0 col1 col2].
    split; [| split].
    + rewrite (vsum_ext _ (fun ind =>
                 vscale (node_weight (pos p) ind
                         * vx (node_offset (pos p) ind))
                        (grid_velocity g ind)))
        by (intros ind _; unfold node_weight, node_offset, outerProduct;
            cbn [col0]; vec_ring).
      rewrite (affine_weighted_sum _ (node_offset (pos p)) (grid_velocity g)
                 V A R 0 (1 # 3) 0 0 Hvel M1x Mxx Mxy Mxz).
      unfold mat_vec, vadd, vscale, vscale_r, veq. cbn [vx vy vz].
      repeat split; ring.
    + rewrite (vsum_ext _ (fun ind =>
                 vscale (node_weight (pos p) ind
                         * vy (node_offset (pos p) ind))
                        (grid_velocity g ind)))
        by (intros ind _; unfold node_weight, node_offset, outerProduct;
            cbn [col1]; vec_ring).
      rewrite (affine_weighted_sum _ (node_offset (pos p)) (grid_velocity g)
                 V A R 0 0 (1 # 3) 0 Hvel M1y Myx Myy Myz).
      unfold mat_vec, vadd, vscale, vscale_r, veq. cbn [vx vy vz].
      repeat split; ring.
    + rewrite (vsum_ext _ (fun ind =>
                 vscale (node_weight (pos p) ind
                         * vz (node_offset (pos p) ind))
                        (grid_velocity g ind)))
        by (intros ind _; unfold node_weight, node_offset, outerProduct;
            cbn [col2]; vec_ring).
      rewrite (affine_weighted_sum _ (node_offset (pos p)) (grid_velocity g)
                 V A R 0 0 0 (1 # 3) Hvel M1z Mzx Mzy Mzz).
      unfold mat_vec, vadd, vscale, vscale_r, veq. cbn [vx vy vz].
      repeat split; ring.
  - rewrite Hc.
    destruct (msum_columns
                (fun ind =>
                   outerProduct (grid_velocity g ind)
                                (dw3 (vsub (pos p) (node_pos ind)))) R)
      as (C0 & C1 & C2).
    unfold meq. rewrite C0, C1, C2.
    split; [| split].
    + rewrite (vsum_ext _ (fun ind =>
                 vscale (vx (node_gradient (pos p) ind))
                        (grid_velocity g ind)))
        by (intros ind _; unfold node_gradient, outerProduct;
            cbn [col0]; vec_ring).
      rewrite (affine_weighted_sum _ (node_offset (pos p)) (grid_velocity g)
                 V A R 0 1 0 0 Hvel Gx Gxx Gxy Gxz).
      unfold mat_vec, vadd, vscale, vscale_r, veq. cbn [vx vy vz].
      repeat split; ring.
    + rewrite (vsum_ext _ (fun ind =>
                 vscale (vy (node_gradient (pos p) ind))
                        (grid_velocity g ind)))
        by (intros ind _; unfold node_gradient, outerProduct;
            cbn [col1]; vec_ring).
      rewrite (affine_weighted_sum _ (node_offset (pos p)) (grid_velocity g)
                 V A R 0 0 1 0 Hvel Gy Gyx Gyy Gyz).
      unfold mat_vec, vadd, vscale, vscale_r, veq. cbn [vx vy vz].
      repeat split; ring.
    + rewrite (vsum_ext _ (fun ind =>
                 vscale (vz (node_gradient (pos p) ind))
                        (grid_velocity g ind)))
        by (intros ind _; unfold node_gradient, outerProduct;
            cbn [col2]; vec_ring).
      rewrite (affine_weighted_sum _ (node_offset (pos p)) (grid_velocity g)
                 V A R 0 0 0 1 Hvel Gz Gzx Gzy Gzz).
      unfold mat_vec, vadd, vscale, vscale_r, veq. cbn [vx vy vz].
      repeat split; ring.
Qed.

(** The deformation gradients [resample] assigns. *)
Lemma resample_particle_gradients (cfg : Config) (t : Z) (g : Grids)
    (p : MPM3Particle) :
  state p = UPDATING ->
  let delta_t := base_delta_t cfg * of_int (wrap64 (t - last_update p)) in
  let cdg := madd (mdiag 1) (mscale delta_t (g_cdg (gather cfg g p))) in
  dg_e (resample_particle cfg t g p) = mat_mul cdg (dg_e p) /\
  dg_cache (resample_particle cfg t g p)
  = mat_mul (dg_e (resample_particle cfg t g p)) (dg_p p) /\
  dg_p (resample_particle cfg t g p) = dg_p p.
Proof.
  intros Hs. unfold resample_particle. rewrite Hs. cbn.
  repeat split; reflexivity.
Qed.

End AffineFacts.

Import Measures AffineFacts.

(** X12.  On a grid whose velocities are an affine function [c + A * node]
    of the node, [resample] with [apic] gives an [UPDATING] particle with
    all 64 nodes of its neighbourhood in the grid exactly the field's
    velocity at its position; [apic_b] becomes [A / 3] times the damping,
    and the elastic deformation gradient is multiplied on the left by
    [1 + delta_t * A], the field's velocity gradient being recovered
    exactly by the sum of [outerProduct(grid_velocity, dw)]. *)
Theorem resample_reproduces_affine_field (cfg : Config) (t : Z) (g : Grids)
    (p : MPM3Particle) (c : Vector3) (A : Matrix) :
  apic cfg = true ->
  state p = UPDATING ->
  neighborhood_inside (res cfg) (pos p) = true ->
  (forall ind,
     In ind (get_bounded_rasterization_region (res cfg) (pos p)) ->
     grid_velocity g ind =v= affine_field c A (node_pos ind)) ->
  let p' := resample_particle cfg t g p in
  let delta_t := base_delta_t cfg * of_int (wrap64 (t - last_update p)) in
  let damping := fmax 0 (1 - delta_t * affine_damping cfg) in
  v p' =v= affine_field c A (pos p) /\
  apic_b p' =m= mscale_r (mscale (1 # 3) A) damping /\
  dg_e p' =m= mat_mul (madd (mdiag 1) (mscale delta_t A)) (dg_e p) /\
  dg_cache p' = mat_mul (dg_e p') (dg_p p).
Proof.
  intros Ha Hs Hin Hfield p' delta_t damping.
  destruct (AffineFacts.gather_affine cfg g p c A Hin Hfield)
    as (Gv & Gb & Gc).
  destruct (ResampleFacts.resample_particle_updating cfg t g p Hs)
    as (Hv & Hb).
  destruct (AffineFacts.resample_particle_gradients cfg t g p Hs)
    as (He & Hc & _).
  destruct (ResampleFacts.gather_velocity cfg g p) as (_ & _ & Hcount).
  apply RasterizeFacts.neighborhood_inside_iff_64 in Hin.
  split; [| split; [| split]].
  - unfold p'. rewrite Hv. unfold alpha_delta_t, blend. rewrite Ha, Gv.
    LinearFacts.vec_ring.
  - assert (Hsel : select_affine (g_count (gather cfg g p)) (apic cfg)
                                 (g_b (gather cfg g p))
                   = g_b (gather cfg g p)).
    { unfold select_affine. rewrite Hcount, Hin, Ha. reflexivity. }
    unfold p'. rewrite Hb, Hsel. fold delta_t. fold damping.
    rewrite Gb. reflexivity.
  - unfold p'. rewrite He. fold delta_t. rewrite Gc. reflexivity.
  - exact Hc.
Qed.

(** The interior particle on the sample grid, whose velocity at node
    [(i, j, k)] is [(i, j, i + k)]. *)
Lemma resample_reproduces_affine_field_witness :
  let p := Sample.particle_at Sample.interior UPDATING in
  let A := mkMatrix (mkVector 1 0 1) (mkVector 0 1 0) (mkVector 0 0 1) in
  let p' := resample_particle Sample.cfg_apic 3 Sample.grids p in
  v p' =v= mkVector (9 # 2) (17 # 4) (17 # 2) /\
  apic_b p' =m= mscale (1 # 3) A /\
  dg_e p' =m= madd (mdiag 1) (mscale (3 # 1000000) A).
Proof.
  intros p A p'.
  destruct (resample_reproduces_affine_field Sample.cfg_apic 3 Sample.grids
              p (vconst 0) A) as (Hv & Hb & He & _).
  - reflexivity.
  - reflexivity.
  - reflexivity.
  - intros [[i j] k] _. unfold affine_field, mat_vec, vadd, vscale_r, veq.
    cbn. unfold of_int. rewrite inject_Z_plus. repeat split; ring.
  - fold p' in Hv, Hb, He. split; [| split].
    + rewrite Hv. vm_compute. repeat split; reflexivity.
    + rewrite Hb. vm_compute. repeat split; reflexivity.
    + rewrite He. vm_compute. repeat split; reflexivity.
Defined.

(** ** Momentum in the force projection *)

Module ForceMore.
Import Scalar Linear Kernel Kernel3 Particles Grid Rasterize Force Measures.
Import KernelFacts SumFacts BoundaryFacts GridFacts RasterizeFacts.
Import LinearFacts ForceFacts KernelMoments MomentFacts MomentumFacts.
Import BoundaryRegimes UniformFacts AffineFacts.

(** Inside its support the weight vanishes only at the ends, where its
    gradient vanishes too. *)
Lemma w_zero_dw_zero (x : Q) : Qabs x <= 2 -> w x == 0 -> dw x == 0.
Proof.
  intros H2 H0. pose proof (Qabs_nonneg x) as Hn.
  destruct (Qlt_le_dec (Qabs x) 1) as [Hlt | Hge].
  - exfalso. rewrite (w_inner x (Qabs x)) in H0 by (reflexivity || exact Hlt).
    set (a := Qabs x) in *.
    assert (E : (1 # 2) * a * a * a - a * a + 2 / 3
                == (1 # 6) + (1 # 2) * ((1 - a) * (1 + a * (1 - a)))) by field.
    rewrite E in H0.
    assert (0 <= a * (1 - a)) by (apply Qmult_le_0_compat; lra).
    assert (0 <= (1 - a) * (1 + a * (1 - a)))
      by (apply Qmult_le_0_compat; lra).
    lra.
  - rewrite (w_outer x (Qabs x)) in H0 by (reflexivity || exact Hge).
    assert (Ea : Qabs x == 2).
    { set (a := Qabs x) in *.
      assert (E : - (1) / 6 * a * a * a + a * a - 2 * a + 4 / 3
                  == (1 # 6) * ((2 - a) * ((2 - a) * (2 - a)))) by field.
      rewrite E in H0.
      destruct (Qlt_le_dec a 2) as [Hlt | Hle]; [exfalso | lra].
      assert (0 < (2 - a) * (2 - a)) by (apply Qmult_lt_0_compat; lra).
      assert (0 < (2 - a) * ((2 - a) * (2 - a)))
        by (apply Qmult_lt_0_compat; lra).
      lra. }
    destruct (Qlt_le_dec x 0) as [Hneg | Hpos].
    + rewrite Qabs_neg in Ea by lra.
      rewrite dw_left_outer by lra.
      assert (Ex : x == - (2)) by lra. rewrite Ex. reflexivity.
    + rewrite Qabs_pos in Ea by lra.
      rewrite dw_right_outer by lra. rewrite Ea. reflexivity.
Qed.

Lemma w_assert_bound (x : Q) : w_assert x = true -> Qabs x <= 2.
Proof.
  unfold w_assert, fabs. intros H. apply negb_true_iff in H.
  destruct (Qlt_le_dec 2 (Qabs x)) as [Hlt | Hle]; [| exact Hle].
  rewrite ltb_true in H by exact Hlt. discriminate.
Qed.

(** A node of the region on which the weight of the particle vanishes
    receives no force from it. *)
Lemma weight_zero_gradient_zero (res : Index) (x : Vector3) (ind : Index) :
  neighborhood_inside res x = true ->
  In ind (get_bounded_rasterization_region res x) ->
  node_weight x ind == 0 ->
  node_gradient x ind =v= vconst 0.
Proof.
  intros Hin Hreg Hw.
  assert (Hc : 0 <= vx x /\ 0 <= vy x /\ 0 <= vz x).
  { destruct res as [[rx ry] rz]. unfold neighborhood_inside, axis_inside in Hin.
    rewrite !andb_true_iff, !Z.leb_le in Hin.
    destruct Hin as (((Hx & _) & (Hy & _)) & (Hz & _)).
    auto using to_int_positive. }
  destruct Hc as (Hx & Hy & Hz).
  destruct (region_asserts res x ind Hx Hy Hz Hreg) as [Ha _].
  unfold w3_assert in Ha. rewrite !andb_true_iff in Ha.
  destruct Ha as ((Ax & Ay) & Az).
  apply w_assert_bound in Ax, Ay, Az.
  unfold node_weight, w3 in Hw. unfold node_gradient, dw3, veq, vconst.
  cbn [vx vy vz].
  set (d := vsub x (node_pos ind)) in *.
  apply Qmult_integral in Hw. destruct Hw as [Hw | Hw].
  - apply Qmult_integral in Hw. destruct Hw as [Hw | Hw].
    + rewrite (w_zero_dw_zero _ Ax Hw), Hw. repeat split; ring.
    + rewrite (w_zero_dw_zero _ Ay Hw), Hw. repeat split; ring.
  - rewrite (w_zero_dw_zero _ Az Hw), Hw. repeat split; ring.
Qed.

(** Writing one node of an array of vectors changes its sum by the
    difference. *)
Lemma vsum_upd_notin (a : Array3D Vector3) (ind : Index) (x : Vector3)
    (inds : list Index) :
  ~ In ind inds -> vsum (upd a ind x) inds =v= vsum a inds.
Proof.
  intros H. apply vsum_ext. intros j Hj.
  rewrite upd_other; [reflexivity |]. intros ->. contradiction.
Qed.

Lemma vsum_upd_in (a : Array3D Vector3) (ind : Index) (x : Vector3)
    (inds : list Index) :
  NoDup inds -> In ind inds ->
  vsum (upd a ind x) inds =v= vadd (vsum a inds) (vsub x (a ind)).
Proof.
  intros Hnd. induction Hnd as [| j inds Hj Hnd IH]; intros Hin.
  - destruct Hin.
  - rewrite !vsum_cons.
    destruct (index_eq_dec j ind) as [-> | Hne].
    + rewrite upd_same, (vsum_upd_notin a ind x inds Hj). vec_ring.
    + rewrite upd_other by exact Hne.
      rewrite IH by (destruct Hin; [contradiction | assumption]). vec_ring.
Qed.

(** A sum of impulses is the impulse of the sum of the gradients. *)
Lemma vsum_linear {A : Type} (s : Q) (F : Matrix) (h : A -> Vector3)
    (l : list A) :
  vsum (fun a => vscale s (mat_vec F (h a))) l
  =v= vscale s (mat_vec F (vsum h l)).
Proof.
  induction l as [| a l IH].
  - unfold vsum, fold_right, mat_vec. vec_ring.
  - rewrite !vsum_cons, IH. unfold mat_vec. vec_ring.
Qed.

(** Over a full neighborhood the gradients of the weights cancel. *)
Lemma region_gradients_cancel (res : Index) (x : Vector3) :
  neighborhood_inside res x = true ->
  vsum (node_gradient x) (get_bounded_rasterization_region res x)
  =v= vconst 0.
Proof.
  intros Hin.
  destruct (vsum_components (node_gradient x)
              (get_bounded_rasterization_region res x)) as (Ex & Ey & Ez).
  destruct (gradient_moments_x res x Hin) as (Gx & _).
  destruct (gradient_moments_y res x Hin) as (Gy & _).
  destruct (gradient_moments_z res x Hin) as (Gz & _).
  unfold veq. rewrite Ex, Ey, Ez. cbn [vconst vx vy vz].
  split; [exact Gx | split; [exact Gy | exact Gz]].
Qed.

(** One step of the second loop: what it writes. *)
Lemma project_node_frame (delta_t : Q) (p : MPM3Particle) (g : Grids)
    (ind : Index) :
  exists g',
    project_node delta_t p g ind = Some g' /\
    grid_mass g' = grid_mass g /\
    grid_velocity_backup g' = grid_velocity_backup g /\
    (forall j, j <> ind -> grid_velocity g' j = grid_velocity g j) /\
    (grid_mass g ind == 0 -> grid_velocity g' = grid_velocity g).
Proof.
  unfold project_node. destruct (Qeq_bool (grid_mass g ind) 0) eqn:E.
  - exists g. repeat split; auto.
  - assert (Hm : ~ grid_mass g ind == 0).
    { intros H. apply Qeq_bool_iff in H. congruence. }
    rewrite checked_div_nonzero by exact Hm.
    eexists. split; [reflexivity |]. cbn [grid_mass grid_velocity_backup
      grid_velocity]. repeat split; try reflexivity.
    + intros j Hj. apply upd_other. exact Hj.
    + intros H. contradiction.
Qed.

(** One step of the second loop: the momentum of a lattice that holds
    the node. *)
Lemma project_node_momentum (delta_t : Q) (p : MPM3Particle) (g : Grids)
    (ind : Index) (lattice : list Index) :
  NoDup lattice -> In ind lattice ->
  (grid_mass g ind == 0 -> node_gradient (pos p) ind =v= vconst 0) ->
  exists g',
    project_node delta_t p g ind = Some g' /\
    grid_mass g' = grid_mass g /\
    grid_velocity_backup g' = grid_velocity_backup g /\
    grid_momentum g' lattice
    =v= vadd (grid_momentum g lattice) (node_impulse delta_t p ind).
Proof.
  intros Hnd Hin Hzero. unfold project_node.
  destruct (Qeq_bool (grid_mass g ind) 0) eqn:E.
  - exists g. split; [reflexivity |]. split; [reflexivity |].
    split; [reflexivity |].
    apply Qeq_bool_iff in E. unfold node_impulse.
    rewrite (Hzero E). unfold mat_vec. vec_ring.
  - assert (Hm : ~ grid_mass g ind == 0).
    { intros H. apply Qeq_bool_iff in H. congruence. }
    rewrite checked_div_nonzero by exact Hm.
    eexists. split; [reflexivity |].
    cbn [grid_mass grid_velocity_backup]. split; [reflexivity |].
    split; [reflexivity |].
    unfold grid_momentum. cbn [grid_mass grid_velocity].
    set (nv := vadd (grid_velocity g ind)
                 (vscale (delta_t / grid_mass g ind)
                    (mat_vec (tmp_force p)
                       (dw3 (vsub (pos p) (node_pos ind)))))).
    rewrite (vsum_ext _
               (upd (fun j => vscale (grid_mass g j) (grid_velocity g j))
                    ind (vscale (grid_mass g ind) nv))).
    + rewrite (vsum_upd_in _ ind _ lattice Hnd Hin).
      apply vadd_Proper; [reflexivity |].
      unfold nv, node_impulse, node_gradient, mat_vec, veq, vadd, vsub,
        vscale, vscale_r.
      cbn [vx vy vz]. repeat split; field; exact Hm.
    + intros j _. unfold upd. destruct (index_eqb j ind) eqn:Ej.
      * apply index_eqb_eq in Ej. subst j. reflexivity.
      * reflexivity.
Qed.

(** The loop over the nodes of one particle. *)
Lemma project_nodes_momentum (delta_t : Q) (p : MPM3Particle)
    (lattice : list Index) (inds : list Index) (g : Grids) :
  NoDup lattice ->
  (forall ind, In ind inds -> In ind lattice) ->
  (forall ind, In ind inds -> grid_mass g ind == 0 ->
     node_gradient (pos p) ind =v= vconst 0) ->
  exists g',
    project_nodes delta_t p inds g = Some g' /\
    grid_mass g' = grid_mass g /\
    grid_velocity_backup g' = grid_velocity_backup g /\
    grid_momentum g' lattice
    =v= vadd (grid_momentum g lattice) (vsum (node_impulse delta_t p) inds).
Proof.
  intros Hnd. revert g.
  induction inds as [| ind rest IH]; intros g Hsub Hzero;
    cbn [project_nodes].
  - exists g. split; [reflexivity |]. split; [reflexivity |].
    split; [reflexivity |]. unfold vsum, fold_right. vec_ring.
  - destruct (project_node_momentum delta_t p g ind lattice Hnd
                (Hsub ind (or_introl eq_refl))
                (Hzero ind (or_introl eq_refl)))
      as (g1 & -> & Hm & Hb & Hmom).
    destruct (IH g1) as (g' & Hrun & Hm' & Hb' & Hmom').
    + intros j Hj. apply Hsub. right. exact Hj.
    + intros j Hj. rewrite Hm. apply Hzero. right. exact Hj.
    + exists g'. split; [exact Hrun |].
      split; [congruence |]. split; [congruence |].
      rewrite Hmom', Hmom, vsum_cons. vec_ring.
Qed.

(** Both loops over all the particles. *)
Lemma project_particles_momentum (res : Index) (delta_t : Q)
    (ps : list MPM3Particle) (g : Grids) :
  (forall p, In p ps ->
     neighborhood_inside res (pos p) = true /\
     forall ind,
       In ind (get_bounded_rasterization_region res (pos p)) ->
       grid_mass g ind == 0 -> node_weight (pos p) ind == 0) ->
  exists g',
    project_particles res delta_t ps g = Some g' /\
    grid_mass g' = grid_mass g /\
    grid_velocity_backup g' = grid_velocity_backup g /\
    grid_momentum g' (get_region res) =v= grid_momentum g (get_region res).
Proof.
  revert g. induction ps as [| p rest IH]; intros g H;
    cbn [project_particles].
  - exists g. split; [reflexivity |]. split; [reflexivity |].
    split; reflexivity.
  - destruct (H p (or_introl eq_refl)) as [Hin Hw].
    destruct (project_nodes_momentum delta_t p (get_region res)
                (get_bounded_rasterization_region res (pos p)) g
                (NoDup_get_region res))
      as (g1 & -> & Hm & Hb & Hmom).
    + intros ind. apply region_in_lattice.
    + intros ind Hreg H0.
      apply (weight_zero_gradient_zero res); auto.
    + destruct (IH g1) as (g' & Hrun & Hm' & Hb' & Hmom').
      * intros q Hq. destruct (H q (or_intror Hq)) as [Hq1 Hq2].
        split; [exact Hq1 |]. intros ind Hreg. rewrite Hm. auto.
      * exists g'. split; [exact Hrun |].
        split; [congruence |]. split; [congruence |].
        rewrite Hmom', Hmom.
        unfold node_impulse. rewrite vsum_linear.
        rewrite (region_gradients_cancel res (pos p) Hin).
        unfold mat_vec. vec_ring.
Qed.

End ForceMore.

Import Scalar Linear Kernel Kernel3 Particles Grid Rasterize Force Measures.
Import ForceMore.

(** X13.  The projection of the deformation force on the grid conserves
    the momentum of the grid: when every active particle has its full
    neighbourhood on the grid, and a node of it without mass has weight
    zero for the particle, [apply_deformation_force] divides by no zero,
    leaves [grid_mass] and [grid_velocity_backup] as they are, and the
    sum of [grid_mass * grid_velocity] over the nodes is the same before
    and after, whatever forces [calculate_force] has stored in the
    particles and whatever [delta_t] is. *)
Theorem deformation_force_conserves_momentum
    (calculate_force : MPM3Particle -> MPM3Particle) (res : Index)
    (delta_t : Q) (active : list nat) (st : Store) (g : Grids) :
  let run := apply_deformation_force calculate_force res delta_t active st g in
  (forall p, In p (active_particles active (fst run)) ->
     neighborhood_inside res (pos p) = true /\
     forall ind,
       In ind (get_bounded_rasterization_region res (pos p)) ->
       grid_mass g ind == 0 -> node_weight (pos p) ind == 0) ->
  exists g',
    snd run = Some g' /\
    grid_mass g' = grid_mass g /\
    grid_velocity_backup g' = grid_velocity_backup g /\
    grid_momentum g' (get_region res) =v= grid_momentum g (get_region res).
Proof.
  intros run H. unfold run, apply_deformation_force in *. cbn [fst snd] in *.
  apply project_particles_momentum. exact H.
Qed.

(** One active particle with a stored force, on the sample grid, whose
    nodes all have mass. *)
Lemma deformation_force_conserves_momentum_witness :
  let run :=
    apply_deformation_force sample_calculate_force (8, 8, 8)%Z (3 # 1000)
      [0%nat] [Sample.particle_at Sample.interior UPDATING] Sample.grids in
  exists g',
    snd run = Some g' /\
    grid_mass g' = grid_mass Sample.grids /\
    grid_velocity_backup g' = grid_velocity_backup Sample.grids /\
    grid_momentum g' (get_region (8, 8, 8)%Z)
    =v= grid_momentum Sample.grids (get_region (8, 8, 8)%Z).
Proof.
  intros run.
  apply (deformation_force_conserves_momentum sample_calculate_force
           (8, 8, 8)%Z (3 # 1000) [0%nat]
           [Sample.particle_at Sample.interior UPDATING] Sample.grids).
  intros p [<- | []]. split; [reflexivity |].
  intros ind _ H. vm_compute in H. discriminate H.
Defined.

(** ** More on the substep *)

Module SubstepMore.
Import Scalar Linear Particles Grid Config Resample Substep.
Import KernelFacts ClockFacts ResampleFacts StoreFacts SubstepFacts.

Lemma store_set_length (st : Store) (n : nat) (p : MPM3Particle) :
  length (store_set st n p) = length st.
Proof.
  revert n. induction st as [| a rest IH]; intros [| n]; cbn; auto.
Qed.

Lemma for_each_active_length (f : MPM3Particle -> MPM3Particle)
    (active : list nat) (st : Store) :
  length (for_each_active f active st) = length st.
Proof.
  unfold for_each_active. revert st.
  induction active as [| m rest IH]; intros st; cbn [fold_left].
  - reflexivity.
  - rewrite IH. unfold visit. destruct (nth_error st m); [| reflexivity].
    apply store_set_length.
Qed.

(** [clamp] keeps a value that is between the bounds. *)
Lemma clamp_inside (a lo hi : Q) : lo <= a -> a <= hi -> clamp a lo hi = a.
Proof.
  intros Hl Hh. unfold clamp.
  rewrite (ltb_false a lo) by exact Hl.
  rewrite (ltb_false hi a) by exact Hh. reflexivity.
Qed.

End SubstepMore.

Import Scalar Float32 Linear Particles Grid Config Resample Substep.
Import Render.
Import KernelFacts ClockFacts ResampleFacts StoreFacts SubstepFacts.
Import LinearFacts SubstepMore.

(** X15.  In asynchronous mode the tick advances to the least multiple of
    the chosen increment [P] above the current tick: the increment is
    between [1] and [P], it is [P] when the tick is already a multiple of
    [P], no multiple of [P] lies strictly between the old and the new
    tick, and [old_t_int] and [current_t] follow. *)
Theorem async_tick_is_next_multiple (cfg : Config) (pot max_dt_int : Z)
    (c : Clock) :
  let P := Z.min pot max_dt_int in
  let c' := advance_async cfg pot max_dt_int c in
  (0 < P)%Z ->
  (0 <= current_t_int c)%Z ->
  (current_t_int c + P < 2 ^ 63)%Z ->
  old_t_int c' = current_t_int c /\
  (1 <= t_int_increment c' <= P)%Z /\
  (current_t_int c mod P = 0 -> t_int_increment c' = P)%Z /\
  (current_t_int c < current_t_int c')%Z /\
  (forall t', (current_t_int c < t')%Z -> (t' mod P = 0)%Z ->
              (current_t_int c' <= t')%Z) /\
  current_t c' == of_int (current_t_int c') * base_delta_t cfg.
Proof.
  intros P c' HP H0 Hmax. subst c'. unfold advance_async. cbn.
  fold P.
  pose proof (Z.mod_pos_bound (current_t_int c) P HP) as Hm.
  rewrite Z.rem_mod_nonneg by lia.
  assert (Hi : wrap64 (P - current_t_int c mod P)
               = (P - current_t_int c mod P)%Z)
    by (apply wrap64_small; lia).
  rewrite Hi.
  assert (Hc : wrap64 (current_t_int c + (P - current_t_int c mod P))
               = (current_t_int c + (P - current_t_int c mod P))%Z)
    by (apply wrap64_small; lia).
  rewrite Hc.
  split; [reflexivity |]. split; [lia |]. split; [lia |]. split; [lia |].
  split; [| reflexivity].
  intros t' Hlt Hmul.
  pose proof (Z.div_mod (current_t_int c) P ltac:(lia)) as Ec.
  pose proof (Z.div_mod t' P ltac:(lia)) as Et. rewrite Hmul in Et.
  assert (Hq : (current_t_int c / P < t' / P)%Z) by nia.
  nia.
Qed.

Lemma async_tick_is_next_multiple_witness :
  let cfg := mkConfig (8, 8, 8)%Z true true (1 # 1000000) 0 in
  let c' := advance_async cfg 4 16 (mkClock 8 5 3 4 (8 # 1000000)) in
  t_int_increment c' = 4%Z /\ current_t_int c' = 12%Z /\ old_t_int c' = 8%Z.
Proof.
  intros cfg c'.
  destruct (async_tick_is_next_multiple cfg 4 16
              (mkClock 8 5 3 4 (8 # 1000000)))
    as (Hold & _ & Hfull & _ & _ & _);
    [reflexivity | discriminate | reflexivity |].
  fold c' in Hold, Hfull.
  split; [apply Hfull; reflexivity |]. split; [reflexivity | exact Hold].
Defined.

(** X16.  From [resample] to the end of [substep], a particle that is not
    [UPDATING] stays the same record whatever the particle methods do,
    and the store keeps its size. *)
Theorem substep_tail_leaves_idle_particles (eps : Q)
    (plasticity : MPM3Particle -> MPM3Particle)
    (resolve_collision : Q -> MPM3Particle -> MPM3Particle)
    (cfg : Config) (c : Clock) (g : Grids) (active : list nat) (st : Store) :
  length (finish_substep eps plasticity resolve_collision cfg c g active st)
  = length st /\
  forall n p,
    nth_error st n = Some p -> state p <> UPDATING ->
    nth_error
      (finish_substep eps plasticity resolve_collision cfg c g active st) n
    = Some p.
Proof.
  unfold finish_substep, particle_collision_resolution,
    resample_and_integrate, integrate, for_each_particle, resample.
  split.
  - rewrite for_each_active_length, length_map, for_each_active_length.
    reflexivity.
  - intros n p Hn Hs. apply for_each_active_fixed.
    + destruct (state p); try reflexivity. contradiction.
    + rewrite nth_error_map.
      rewrite (for_each_active_fixed _ active st n p);
        [| apply resample_particle_idle; exact Hs | exact Hn].
      cbn. rewrite integrate_particle_idle by exact Hs. reflexivity.
Qed.

(** X17.  An [UPDATING] particle whose integrated position needs no
    clamping is moved by [elapsed ticks * base_delta_t * v], its
    [last_update] becomes the current tick, and it is drawn by
    [get_render_particles] where it was drawn before the integration.
    [plasticity] is assumed to change the deformation gradients only. *)
Theorem integration_keeps_rendered_position (eps : Q)
    (plasticity : MPM3Particle -> MPM3Particle) (cfg : Config) (c : Clock)
    (p : MPM3Particle) :
  let moved :=
    vadd (pos p)
         (vscale (of_int (current_t_int c - last_update p)
                  * base_delta_t cfg) (v p)) in
  let p' := integrate_particle eps plasticity cfg c p in
  (forall q, pos (plasticity q) = pos q /\ v (plasticity q) = v q /\
             state (plasticity q) = state q /\
             last_update (plasticity q) = last_update q) ->
  state p = UPDATING ->
  (- 2 ^ 63 <= current_t_int c - last_update p < 2 ^ 63)%Z ->
  clamped eps (res cfg) (mkParticle moved (v p) (mass p) (apic_b p) (dg_e p)
                           (dg_p p) (dg_cache p) (tmp_force p) (state p)
                           (last_update p)) ->
  pos p' = moved /\
  last_update p' = current_t_int c /\
  position (render_particle cfg (current_t_int c) p')
  =v= position (render_particle cfg (current_t_int c) p) /\
  color (render_particle cfg (current_t_int c) p')
  = color (render_particle cfg (current_t_int c) p).
Proof.
  intros moved p' Hpl Hs Hrange Hin.
  assert (Hw : wrap64 (current_t_int c - last_update p)
               = (current_t_int c - last_update p)%Z)
    by (apply wrap64_small; exact Hrange).
  assert (Hp' : pos p' = moved /\ v p' = v p /\ state p' = state p /\
                last_update p' = current_t_int c).
  { subst p'. unfold integrate_particle. rewrite Hs. cbn [state_eqb].
    unfold clamped in Hin. destruct (res cfg) as [[rx ry] rz].
    cbn [pos] in Hin. destruct Hin as ((Hx0 & Hx1) & (Hy0 & Hy1) & Hz0 & Hz1).
    destruct (Hpl (mkParticle
                     (mkVector
                        (clamp (vx (vadd (pos p)
                           (vscale (of_int (wrap64 (current_t_int c
                                                     - last_update p))
                                    * base_delta_t cfg) (v p))))
                           0 (fsub32 (int_to_float rx) eps))
                        (clamp (vy (vadd (pos p)
                           (vscale (of_int (wrap64 (current_t_int c
                                                     - last_update p))
                                    * base_delta_t cfg) (v p))))
                           0 (fsub32 (int_to_float ry) eps))
                        (clamp (vz (vadd (pos p)
                           (vscale (of_int (wrap64 (current_t_int c
                                                     - last_update p))
                                    * base_delta_t cfg) (v p))))
                           0 (fsub32 (int_to_float rz) eps)))
                     (v p) (mass p) (apic_b p) (dg_e p) (dg_p p)
                     (dg_cache p) (tmp_force p) UPDATING (current_t_int c)))
      as (H1 & H2 & H3 & H4).
    rewrite H1, H2, H3, H4. cbn [pos v state last_update].
    rewrite Hw. fold moved.
    rewrite !clamp_inside by assumption.
    repeat split; reflexivity. }
  destruct Hp' as (Hpos & Hv & Hst & Hlu).
  split; [exact Hpos |]. split; [exact Hlu |].
  unfold render_particle. rewrite Hpos, Hv, Hst, Hlu, Z.sub_diag, Hw, Hs.
  cbn [position color]. split; [| reflexivity].
  change (of_int (wrap64 0)) with 0. unfold moved. vec_ring.
Qed.

Lemma integration_keeps_rendered_position_witness :
  let p := Sample.particle_at Sample.interior UPDATING in
  let p' := integrate_particle (1 # 1000000) Sample.plasticity
              Sample.cfg_apic Sample.clock p in
  last_update p' = 3%Z /\
  position (render_particle Sample.cfg_apic 3 p')
  =v= position (render_particle Sample.cfg_apic 3 p).
Proof.
  intros p p'.
  destruct (integration_keeps_rendered_position (1 # 1000000)
              Sample.plasticity Sample.cfg_apic Sample.clock p)
    as (_ & Hlu & Hpos & _).
  - intros q. repeat split.
  - reflexivity.
  - cbn. lia.
  - vm_compute. intuition discriminate.
  - split; [exact Hlu | exact Hpos].
Defined.

(** X18.  [get_render_particles] draws every particle of the store once, in
    order; a particle updated at the current tick is drawn at its
    position relative to the centre of the grid, and two particles get the
    same colour exactly when they are in the same state. *)
Theorem render_particles_mirror_store (cfg : Config) (t : Z) (st : Store) :
  length (get_render_particles cfg t st) = length st /\
  (forall n p,
     nth_error st n = Some p ->
     exists r,
       nth_error (get_render_particles cfg t st) n = Some r /\
       r = render_particle cfg t p /\
       (last_update p = t -> position r =v= vsub (pos p) (center cfg))) /\
  (forall p q,
     color (render_particle cfg t p) = color (render_particle cfg t q) <->
     state p = state q).
Proof.
  unfold get_render_particles. split; [apply length_map |]. split.
  - intros n p Hn. exists (render_particle cfg t p).
    rewrite nth_error_map, Hn. split; [reflexivity |].
    split; [reflexivity |].
    intros Hl. unfold render_particle. rewrite Hl, Z.sub_diag.
    change (of_int (wrap64 0)) with 0.
    destruct (state p); cbn [position]; vec_ring.
  - intros p q. unfold render_particle.
    destruct (state p), (state q); cbn [color]; split; intros H;
      try reflexivity; discriminate.
Qed.

(** ** Seeding *)

Module SeedingFacts.
Import Scalar Float32 Linear Particles Grid Substep Assets Seeding.
Import KernelFacts SumFacts GridFacts RasterizeFacts Float32Facts.

Lemma of_int_lt_inv (a b : Z) : of_int a < of_int b -> (a < b)%Z.
Proof. unfold of_int. rewrite <- Zlt_Qlt. auto. Qed.

Lemma of_int_le_inv (a b : Z) : of_int a <= of_int b -> (a <= b)%Z.
Proof. unfold of_int. rewrite <- Zle_Qle. auto. Qed.

(** The number of particles of a cell lies between integer bounds of the
    density. *)
Lemma cell_count_bounds (num r : Q) (lo hi : Z) :
  0 <= r -> (0 <= lo)%Z -> of_int lo <= num -> num <= of_int hi ->
  (lo <= cell_count num r <= hi)%Z.
Proof.
  intros Hr Hlo Hl Hh.
  assert (H0 : 0 <= num).
  { apply of_int_le in Hlo. change (of_int 0) with 0 in Hlo. lra. }
  destruct (to_int_floor num H0) as [Hfl Hfu].
  assert (Hge : (lo <= to_int num)%Z).
  { assert (of_int lo < of_int (to_int num + 1)).
    { rewrite of_int_add. change (of_int 1) with 1. lra. }
    apply of_int_lt_inv in H. lia. }
  unfold cell_count.
  destruct (ltb r (num - of_int (to_int num))) eqn:E.
  - apply ltb_spec in E.
    assert (of_int (to_int num) < of_int hi) by lra.
    apply of_int_lt_inv in H. lia.
  - assert (of_int (to_int num) <= of_int hi) by lra.
    apply of_int_le_inv in H. lia.
Qed.

(** The indices of a cell. *)
Lemma in_cells (res : Index) (i j k : Z) :
  In (i, j, k) (cells res) ->
  let '(rx, ry, rz) := res in
  (0 <= i /\ i + 1 <= rx)%Z /\ (0 <= j /\ j + 1 <= ry)%Z /\
  (0 <= k /\ k + 1 <= rz)%Z.
Proof.
  destruct res as [[rx ry] rz]. unfold cells. rewrite in_box, !in_zrange.
  lia.
Qed.

(** A particle seeded in a cell of the grid is in the closed box. *)
Lemma seeded_in_closed_domain (cfg : SeedConfig) (t : Z) (res : Index)
    (ep_particle dp_particle : MPM3Particle) (cell : Index)
    (p : MPM3Particle) :
  In cell (cells res) ->
  seeded cfg t ep_particle dp_particle cell p -> in_closed_domain res p.
Proof.
  destruct cell as [[i j] k]. intros Hc. apply in_cells in Hc.
  destruct res as [[rx ry] rz].
  destruct Hc as ((Hi0 & Hi1) & (Hj0 & Hj1) & Hk0 & Hk1).
  unfold seeded, in_closed_domain.
  intros (_ & _ & (Hx0 & Hx1) & (Hy0 & Hy1) & (Hz0 & Hz1) & _).
  assert (Hb : forall a r : Z, (0 <= a)%Z -> (a + 1 <= r)%Z ->
            0 <= of_int a /\ of_int a + 1 <= of_int r).
  { intros a r H0 H1. split.
    - change 0 with (of_int 0). apply of_int_le. exact H0.
    - change 1 with (of_int 1). rewrite <- of_int_add. apply of_int_le.
      exact H1. }
  destruct (Hb i rx Hi0 Hi1), (Hb j ry Hj0 Hj1), (Hb k rz Hk0 Hk1).
  repeat split; lra.
Qed.

Section WithExternals.
Variable block_expired : Z -> bool.
Variable sample : shared_ptr -> Vector3 -> Q.
Variable rand : nat -> Q.
Variable order : DrawOrder.
Variable ep_particle : MPM3Particle.
Variable dp_particle : MPM3Particle.
Hypothesis rand_range : forall n, 0 <= rand n /\ rand n < 1.

Lemma new_particle_seeded (cfg : SeedConfig) (t : Z) (res : Index)
    (i j k : Z) (n : nat) :
  fits_float res ->
  In (i, j, k) (cells res) ->
  seeded cfg t ep_particle dp_particle (i, j, k)
         (new_particle rand order ep_particle dp_particle cfg t i j k n).
Proof.
  intros Hfit Hc. apply in_cells in Hc.
  destruct res as [[rx ry] rz]. unfold fits_float in Hfit.
  destruct Hfit as (Fx & Fy & Fz).
  destruct Hc as ((Hi0 & Hi1) & (Hj0 & Hj1) & Hk0 & Hk1).
  unfold seeded, new_particle.
  cbn [mass last_update pos v vx vy vz].
  assert (Hu : forall (a r : Z) (d : nat),
            (0 <= a)%Z -> (a + 1 <= r)%Z -> (r <= 2 ^ 24)%Z ->
            of_int a <= fadd32 (int_to_float a) (rand d) /\
            fadd32 (int_to_float a) (rand d) <= of_int a + 1).
  { intros a r d H0 H1 H2. destruct (rand_range d) as [R0 R1].
    destruct (fadd32_unit a (rand d)) as [L U]; try assumption; [lia |].
    rewrite inject_Z_plus in U. change (inject_Z 1) with 1 in U.
    split; assumption. }
  split; [reflexivity |]. split; [reflexivity |].
  split; [apply (Hu i rx); assumption |].
  split; [apply (Hu j ry); assumption |].
  split; [apply (Hu k rz); assumption | reflexivity].
Qed.

(** The loop over [l] appends [todo] particles of the cell. *)
Lemma spawn_appends (cfg : SeedConfig) (t : Z) (res : Index) (i j k : Z)
    (todo : nat) (s : Seeder) :
  fits_float res ->
  In (i, j, k) (cells res) ->
  exists news,
    particles (spawn rand order ep_particle dp_particle cfg t i j k todo s)
    = particles s ++ news /\
    length news = todo /\
    Forall (seeded cfg t ep_particle dp_particle (i, j, k)) news.
Proof.
  intros Hfit Hc. revert s.
  induction todo as [| todo IH]; intros s; cbn [spawn].
  - exists []. rewrite app_nil_r. auto.
  - destruct (IH (mkSeeder
                    (particles s
                     ++ [new_particle rand order ep_particle dp_particle
                           cfg t i j k (draws s)])
                    (draws s + 3))) as (news & Hp & Hl & Hall).
    cbn [particles] in Hp.
    exists (new_particle rand order ep_particle dp_particle cfg t i j k
              (draws s) :: news).
    split; [| split].
    + rewrite Hp, <- app_assoc. reflexivity.
    + cbn [length]. rewrite Hl. reflexivity.
    + constructor; [| exact Hall].
      apply (new_particle_seeded cfg t res); assumption.
Qed.

(** The three loops over the cells: one group of particles per cell, in
    the order of the loops. *)
Lemma seed_cells_append (cfg : SeedConfig) (t : Z) (res : Index)
    (tex : shared_ptr) (lo hi : Z) (l : list Index) (s : Seeder) :
  fits_float res ->
  (0 <= lo)%Z ->
  (forall i j k, In (i, j, k) (cells res) ->
     of_int lo <= sample tex (cell_coord res i j k) /\
     sample tex (cell_coord res i j k) <= of_int hi) ->
  (forall ind, In ind l -> In ind (cells res)) ->
  exists groups,
    particles
      (fold_left
         (seed_cell sample rand order ep_particle dp_particle cfg t res tex)
         l s)
    = particles s ++ concat groups /\
    Forall2 (cell_group cfg t ep_particle dp_particle lo hi) l groups /\
    Forall (in_closed_domain res) (concat groups).
Proof.
  intros Hfit Hlo Hden. revert s.
  induction l as [| ind rest IH]; intros s Hsub; cbn [fold_left].
  - exists []. cbn [concat]. rewrite app_nil_r.
    split; [reflexivity |]. split; constructor.
  - destruct ind as [[i j] k].
    assert (Hc : In (i, j, k) (cells res)) by (apply Hsub; left; reflexivity).
    unfold seed_cell at 2.
    set (num := sample tex (cell_coord res i j k)).
    set (n := Z.to_nat (cell_count num (rand (draws s)))).
    destruct (spawn_appends cfg t res i j k n
                (mkSeeder (particles s) (S (draws s))) Hfit Hc)
      as (first & Hp & Hl & Hall).
    cbn [particles] in Hp.
    destruct (IH (spawn rand order ep_particle dp_particle cfg t i j k n
                    (mkSeeder (particles s) (S (draws s)))))
      as (groups & Hp' & Hgroups & Hdom).
    { intros c Hin. apply Hsub. right. exact Hin. }
    exists (first :: groups). cbn [concat]. split; [| split].
    + rewrite Hp', Hp, <- app_assoc. reflexivity.
    + constructor; [| exact Hgroups]. split; [| exact Hall].
      destruct (Hden i j k Hc) as [H1 H2]. fold num in H1, H2.
      destruct (rand_range (draws s)) as [Hr _].
      pose proof (cell_count_bounds num (rand (draws s)) lo hi Hr Hlo H1 H2)
        as Hb.
      rewrite Hl. unfold n. lia.
    + apply Forall_app. split; [| exact Hdom].
      apply Forall_forall. intros p Hin.
      apply (seeded_in_closed_domain cfg t res ep_particle dp_particle
               (i, j, k)); [exact Hc |].
      revert p Hin. apply Forall_forall. exact Hall.
Qed.

End WithExternals.

End SeedingFacts.

Import Scalar Float32 Linear Particles Grid Substep Assets Seeding.
Import SeedingFacts.



(** ** The asset manager *)

Module AssetFacts.
Import Assets.
Local Open Scope Z_scope.

Lemma zset_same {V : Type} (m : ZMap V) (k : Z) (x : V) :
  zset m k x k = Some x.
Proof. unfold zset. rewrite Z.eqb_refl. reflexivity. Qed.

Lemma zset_other {V : Type} (m : ZMap V) (k j : Z) (x : V) :
  j <> k -> zset m k x j = m j.
Proof.
  intros H. unfold zset. destruct (Z.eqb_spec j k); [contradiction | reflexivity].
Qed.

Lemma zerase_same {V : Type} (m : ZMap V) (k : Z) : zerase m k k = None.
Proof. unfold zerase. rewrite Z.eqb_refl. reflexivity. Qed.

Lemma zerase_other {V : Type} (m : ZMap V) (k j : Z) :
  j <> k -> zerase m k j = m j.
Proof.
  intros H. unfold zerase. destruct (Z.eqb_spec j k); [contradiction | reflexivity].
Qed.

Lemma wrap32_small (z : Z) : - 2 ^ 31 <= z < 2 ^ 31 -> wrap32 z = z.
Proof.
  intros H. unfold wrap32.
  change (2 ^ 32) with (2 ^ 31 + 2 ^ 31).
  rewrite Z.mod_small; lia.
Qed.

(** The shape of a successful [insert_asset_]: the maps that remain
    after the stale entry, if any, is erased, extended by the new pair. *)
Lemma insert_asset_ok (heap : Z -> bool) (m : AssetManager)
    (ptr : shared_ptr) (id : Z) (m' : AssetManager) :
  insert_asset_ heap m ptr = inr (id, m') ->
  id = counter m /\
  counter m' = wrap32 (counter m + 1) /\
  exists a2i i2a,
    asset_to_id m' = zset a2i (s_addr ptr) id /\
    id_to_asset m' = zset i2a id (weak_to (s_addr ptr) (s_block ptr)) /\
    ((asset_to_id m (s_addr ptr) = None /\
      a2i = asset_to_id m /\ i2a = id_to_asset m) \/
     (exists old,
        asset_to_id m (s_addr ptr) = Some old /\
        a2i = zerase (asset_to_id m) (s_addr ptr) /\
        i2a = zerase (id_to_asset m) old)).
Proof.
  unfold insert_asset_. intros H.
  destruct (asset_to_id m (s_addr ptr)) as [old |] eqn:Ea.
  - destruct (expired heap _); [| discriminate].
    inversion H; subst; clear H. cbn.
    split; [reflexivity |]. split; [reflexivity |].
    eexists _, _. split; [reflexivity |]. split; [reflexivity |].
    right. exists old. auto.
  - inversion H; subst; clear H. cbn.
    split; [reflexivity |]. split; [reflexivity |].
    eexists _, _. split; [reflexivity |]. split; [reflexivity |].
    left. auto.
Qed.

Lemma consistent_get_instance : consistent get_instance.
Proof. split; intros; discriminate. Qed.

End AssetFacts.

Import Assets AssetFacts.

Module AssetProperties.
Local Open Scope Z_scope.

(** X20.  Insert and look up: the id [insert_asset_] returns is the old
    counter, and while the object is alive [get_asset_] of that id gives
    back the pointer that was inserted. *)
Theorem asset_insert_get_round_trip (heap heap' : Z -> bool)
    (m : AssetManager) (ptr : shared_ptr) (id : Z) (m' : AssetManager) :
  insert_asset_ heap m ptr = inr (id, m') ->
  heap' (s_block ptr) = false ->
  id = counter m /\ get_asset_ heap' m' id = inr ptr.
Proof.
  intros H Halive.
  destruct (insert_asset_ok heap m ptr id m' H)
    as (Hid & _ & a2i & i2a & _ & Hi & _).
  split; [exact Hid |].
  unfold get_asset_. rewrite Hi, zset_same, Halive.
  destruct ptr; reflexivity.
Qed.

Lemma asset_insert_get_round_trip_witness :
  let ptr := mkShared 4096 7 in
  get_asset_ (fun _ => false)
    (mkManager 1 (zset zempty 4096 0) (zset zempty 0 (weak_to 4096 7))) 0
  = inr ptr.
Proof.
  intros ptr.
  apply (asset_insert_get_round_trip (fun b => false) (fun _ => false)
           get_instance ptr 0
           (mkManager 1 (zset zempty 4096 0)
                      (zset zempty 0 (weak_to 4096 7)))).
  - reflexivity.
  - reflexivity.
Defined.

(** X21.  An asset that is registered and still alive cannot be inserted
    again: the second [insert_asset_] fails with "Asset already
    exists". *)
Theorem asset_double_insert_rejected (heap heap' : Z -> bool)
    (m : AssetManager) (ptr : shared_ptr) (id : Z) (m' : AssetManager) :
  insert_asset_ heap m ptr = inr (id, m') ->
  heap' (s_block ptr) = false ->
  insert_asset_ heap' m' ptr = inl AssetAlreadyExists.
Proof.
  intros H Halive.
  destruct (insert_asset_ok heap m ptr id m' H)
    as (_ & _ & a2i & i2a & Ha & Hi & _).
  unfold insert_asset_. rewrite Ha, zset_same, Hi, zset_same.
  cbn [expired]. rewrite Halive. reflexivity.
Qed.

Lemma asset_double_insert_rejected_witness :
  insert_asset_ (fun _ => false)
    (mkManager 1 (zset zempty 4096 0) (zset zempty 0 (weak_to 4096 7)))
    (mkShared 4096 7)
  = inl AssetAlreadyExists.
Proof.
  apply (asset_double_insert_rejected (fun _ => false) (fun _ => false)
           get_instance (mkShared 4096 7) 0); reflexivity.
Defined.

(** X22.  Look-ups that fail.  With consistent maps an id outside
    [[0, counter)] was never issued and [get_asset_] fails with "Asset not
    found"; an id whose object has died fails with "Asset has been
    expired". *)
Theorem asset_lookup_failures (heap heap' : Z -> bool) (m : AssetManager) :
  consistent m ->
  (forall id, id < 0 \/ counter m <= id ->
     get_asset_ heap m id = inl AssetNotFound) /\
  (forall ptr id m',
     insert_asset_ heap m ptr = inr (id, m') ->
     heap' (s_block ptr) = true ->
     get_asset_ heap' m' id = inl AssetExpired).
Proof.
  intros [Hids _]. split.
  - intros id Hout. unfold get_asset_.
    destruct (id_to_asset m id) as [w |] eqn:E; [| reflexivity].
    destruct (Hids id w E) as [Hin _]. lia.
  - intros ptr id m' H Hdead.
    destruct (insert_asset_ok heap m ptr id m' H)
      as (_ & _ & a2i & i2a & _ & Hi & _).
    unfold get_asset_. rewrite Hi, zset_same, Hdead. reflexivity.
Qed.

Lemma asset_lookup_failures_witness :
  get_asset_ (fun _ => false) get_instance 0 = inl AssetNotFound /\
  get_asset_ (fun _ => true)
    (mkManager 1 (zset zempty 4096 0) (zset zempty 0 (weak_to 4096 7))) 0
  = inl AssetExpired.
Proof.
  destruct (asset_lookup_failures (fun _ => false) (fun _ => true)
              get_instance consistent_get_instance) as [Hnf Hexp].
  split.
  - apply Hnf. right. cbn. lia.
  - apply (Hexp (mkShared 4096 7) 0); reflexivity.
Defined.

(** X23.  [insert_asset_] keeps the two maps consistent, and the id it
    issues was not in use; the counter stays in the range of [int]. *)
Theorem asset_insert_keeps_consistency (heap : Z -> bool)
    (m : AssetManager) (ptr : shared_ptr) (id : Z) (m' : AssetManager) :
  consistent m ->
  0 <= counter m < 2 ^ 31 - 1 ->
  insert_asset_ heap m ptr = inr (id, m') ->
  id_to_asset m id = None /\
  counter m' = id + 1 /\
  consistent m'.
Proof.
  intros [Hids Haddr] Hc H.
  destruct (insert_asset_ok heap m ptr id m' H)
    as (Hid & Hcnt & a2i & i2a & Ha & Hi & Hcase).
  assert (Hfresh : id_to_asset m id = None).
  { destruct (id_to_asset m id) as [w |] eqn:E; [| reflexivity].
    destruct (Hids id w E) as [Hin _]. lia. }
  assert (Hcnt' : counter m' = id + 1).
  { rewrite Hcnt, Hid. apply wrap32_small. lia. }
  split; [exact Hfresh |]. split; [exact Hcnt' |].
  (* the maps that remain are consistent among themselves *)
  assert (Hrem :
    (forall j w, i2a j = Some w ->
       0 <= j < counter m /\
       exists a b, w = weak_to a b /\ a <> s_addr ptr /\ a2i a = Some j) /\
    (forall a j, a2i a = Some j ->
       a <> s_addr ptr /\ exists b, i2a j = Some (weak_to a b))).
  { destruct Hcase as [(Hnone & -> & ->) | (old & Hold & -> & ->)].
    - split.
      + intros j w Hj. destruct (Hids j w Hj) as (Hin & a & b & -> & Haj).
        split; [exact Hin |]. exists a, b. repeat split; auto.
        intros ->. congruence.
      + intros a j Haj. split; [intros ->; congruence |].
        apply Haddr. exact Haj.
    - split.
      + intros j w Hj. unfold zerase in Hj.
        destruct (Z.eqb_spec j old) as [-> | Hne]; [discriminate |].
        destruct (Hids j w Hj) as (Hin & a & b & -> & Haj).
        split; [exact Hin |]. exists a, b.
        assert (a <> s_addr ptr) by (intros ->; congruence).
        repeat split; auto. rewrite zerase_other by assumption. exact Haj.
      + intros a j Haj. unfold zerase in Haj.
        destruct (Z.eqb_spec a (s_addr ptr)) as [-> | Hne]; [discriminate |].
        split; [exact Hne |].
        destruct (Haddr a j Haj) as (b & Hb). exists b.
        rewrite zerase_other; [exact Hb |].
        intros ->. destruct (Haddr _ _ Hold) as (b' & Hb').
        rewrite Hb in Hb'. inversion Hb'. contradiction. }
  destruct Hrem as [Hrem1 Hrem2].
  split.
  - intros j w Hj. rewrite Hi in Hj. unfold zset in Hj.
    destruct (Z.eqb_spec j id) as [-> | Hne].
    + inversion Hj; subst w. split; [lia |].
      exists (s_addr ptr), (s_block ptr). split; [reflexivity |].
      rewrite Ha. apply zset_same.
    + destruct (Hrem1 j w Hj) as (Hin & a & b & -> & Hna & Haj).
      split; [lia |]. exists a, b. split; [reflexivity |].
      rewrite Ha, zset_other by exact Hna. exact Haj.
  - intros a j Haj. rewrite Ha in Haj. unfold zset in Haj.
    destruct (Z.eqb_spec a (s_addr ptr)) as [-> | Hne].
    + inversion Haj; subst j. exists (s_block ptr). rewrite Hi.
      apply zset_same.
    + destruct (Hrem2 a j Haj) as (_ & b & Hb). exists b.
      rewrite Hi, zset_other; [exact Hb |].
      intros ->. destruct (Hrem1 _ _ Hb) as (Hin & _). lia.
Qed.

Lemma asset_insert_keeps_consistency_witness :
  consistent
    (mkManager 1 (zset zempty 4096 0) (zset zempty 0 (weak_to 4096 7))).
Proof.
  apply (asset_insert_keeps_consistency (fun _ => false) get_instance
           (mkShared 4096 7) 0).
  - exact consistent_get_instance.
  - cbn. lia.
  - reflexivity.
Defined.

(** X24.  Inserting an asset does not disturb the others: an id that
    resolves to a pointer at another address resolves to the same pointer
    afterwards. *)
Theorem asset_insert_keeps_other_assets (heap heap' : Z -> bool)
    (m : AssetManager) (ptr other : shared_ptr) (id id' : Z)
    (m' : AssetManager) :
  consistent m ->
  insert_asset_ heap m ptr = inr (id, m') ->
  get_asset_ heap' m id' = inr other ->
  s_addr other <> s_addr ptr ->
  get_asset_ heap' m' id' = inr other.
Proof.
  intros [Hids Haddr] H Hget Hne.
  destruct (insert_asset_ok heap m ptr id m' H)
    as (Hid & _ & a2i & i2a & _ & Hi & Hcase).
  unfold get_asset_ in Hget |- *.
  destruct (id_to_asset m id') as [w |] eqn:E; [| discriminate].
  destruct (Hids id' w E) as (Hin & a & b & -> & Ha).
  assert (Hoa : a = s_addr other).
  { destruct (heap' b); [discriminate |]. inversion Hget. reflexivity. }
  assert (Hi' : id_to_asset m' id' = Some (weak_to a b)).
  { rewrite Hi, zset_other by lia.
    destruct Hcase as [(_ & _ & ->) | (old & Hold & _ & ->)]; [exact E |].
    rewrite zerase_other; [exact E |].
    intros ->. destruct (Haddr _ _ Hold) as (b' & Hb').
    rewrite E in Hb'. inversion Hb'. congruence. }
  rewrite Hi'. exact Hget.
Qed.

Lemma asset_insert_keeps_other_assets_witness :
  get_asset_ (fun _ => false)
    (mkManager 2 (zset (zset zempty 4096 0) 8192 1)
       (zset (zset zempty 0 (weak_to 4096 7)) 1 (weak_to 8192 9))) 0
  = inr (mkShared 4096 7).
Proof.
  apply (asset_insert_keeps_other_assets (fun _ => false) (fun _ => false)
           (mkManager 1 (zset zempty 4096 0)
                      (zset zempty 0 (weak_to 4096 7)))
           (mkShared 8192 9) (mkShared 4096 7) 1 0).
  - exact asset_insert_keeps_consistency_witness.
  - reflexivity.
  - reflexivity.
  - discriminate.
Defined.

(** X25.  An address can be used again: once the registered object has
    died, inserting a new object at its address succeeds with a new id,
    and the old id is no longer found. *)
Theorem asset_address_reuse (heap heap' heap'' : Z -> bool)
    (m : AssetManager) (ptr ptr' : shared_ptr) (id : Z)
    (m' : AssetManager) :
  0 <= counter m < 2 ^ 31 - 1 ->
  insert_asset_ heap m ptr = inr (id, m') ->
  heap' (s_block ptr) = true ->
  s_addr ptr' = s_addr ptr ->
  exists m'',
    insert_asset_ heap' m' ptr' = inr (id + 1, m'') /\
    get_asset_ heap'' m'' id = inl AssetNotFound /\
    (heap'' (s_block ptr') = false ->
     get_asset_ heap'' m'' (id + 1) = inr ptr').
Proof.
  intros Hc H Hdead Hsame.
  destruct (insert_asset_ok heap m ptr id m' H)
    as (Hid & Hcnt & a2i & i2a & Ha & Hi & _).
  assert (Hcnt' : counter m' = id + 1).
  { rewrite Hcnt, Hid. apply wrap32_small. lia. }
  unfold insert_asset_ at 1. rewrite Hsame, Ha, zset_same, Hi, zset_same.
  cbn [expired]. rewrite Hdead, Hcnt'.
  eexists. split; [reflexivity |]. split.
  - unfold get_asset_. cbn [id_to_asset].
    rewrite zset_other by lia. rewrite zerase_same. reflexivity.
  - intros Halive. unfold get_asset_. cbn [id_to_asset].
    rewrite zset_same, Halive. rewrite <- Hsame. destruct ptr'; reflexivity.
Qed.

Lemma asset_address_reuse_witness :
  exists m'',
    insert_asset_ (fun b => b =? 7)
      (mkManager 1 (zset zempty 4096 0) (zset zempty 0 (weak_to 4096 7)))
      (mkShared 4096 8)
    = inr (1, m'') /\
    get_asset_ (fun b => b =? 7) m'' 0 = inl AssetNotFound.
Proof.
  destruct (asset_address_reuse (fun _ => false) (fun b => b =? 7)
              (fun b => b =? 7) get_instance (mkShared 4096 7)
              (mkShared 4096 8) 0
              (mkManager 1 (zset zempty 4096 0)
                         (zset zempty 0 (weak_to 4096 7))))
    as (m'' & Hins & Hold & _).
  - cbn. lia.
  - reflexivity.
  - reflexivity.
  - reflexivity.
  - exists m''. split; [exact Hins | exact Hold].
Defined.

End AssetProperties.
